(** * Advanced cache manager: orchestration and invalidation engine

    A shallow embedding of the TypeScript sources (BaseStore, MemoryStore,
    LayeredStrategy, the invalidators and CacheManager) and the properties
    of the natural-language specification that are settled against them.

    Conventions of the embedding.
    - Asynchronous methods are modelled under the single-threaded cooperative
      scheduler of the runtime: a call runs to completion, and per-store
      closures started by [Array.prototype.map] are run in store order (each
      closure only touches its own store).
    - [Date.now()] reads a clock that is threaded through every computation
      next to the state, so an awaited operation may let time pass.
    - A computation either returns a value or throws; state changes made
      before a throw persist, as they do for JavaScript objects. *)

From Stdlib Require Import ZArith String Ascii List Bool Lia Sorted Permutation.
From stdpp Require Import base option list gmap strings pretty.
Import ListNotations.

(** ** Errors (src/types/index.ts) *)

Inductive CacheError : Type :=
| StoreError (message store : string)        (* code STORE_ERROR *)
| CircuitBreakerError (message : string)     (* code CIRCUIT_BREAKER_OPEN *)
| Error (message : string)                   (* a plain JavaScript Error *)
| TypeError (message : string).              (* raised by the runtime *)

Definition message (e : CacheError) : string :=
  match e with
  | StoreError m _ => m
  | CircuitBreakerError m => m
  | Error m => m
  | TypeError m => m
  end.

(** ** Computations: clock, state and exceptions *)

Inductive Result (A : Type) : Type :=
| Ok (a : A)
| Throw (e : CacheError).
Arguments Ok {A} a.
Arguments Throw {A} e.

Definition M (S A : Type) : Type := Z -> S -> Result A * Z * S.

Definition ret {S A} (a : A) : M S A := fun t s => (Ok a, t, s).

Definition throw {S A} (e : CacheError) : M S A := fun t s => (Throw e, t, s).

Definition bind {S A B} (m : M S A) (k : A -> M S B) : M S B :=
  fun t s =>
    match m t s with
    | (Ok a, t', s') => k a t' s'
    | (Throw e, t', s') => (Throw e, t', s')
    end.

Declare Scope js_scope.
Delimit Scope js_scope with js.
Notation "x <- c ;; k" := (bind c (fun x => k))
  (at level 100, c at next level, right associativity) : js_scope.
Notation "c ;;; k" := (bind c (fun _ => k))
  (at level 100, right associativity) : js_scope.
Open Scope js_scope.

(** [try { m } catch (error) { h error }] *)
Definition try_catch {S A} (m : M S A) (h : CacheError -> M S A) : M S A :=
  fun t s =>
    match m t s with
    | (Ok a, t', s') => (Ok a, t', s')
    | (Throw e, t', s') => h e t' s'
    end.

Definition Date_now {S} : M S Z := fun t s => (Ok t, t, s).

Definition get_state {S} : M S S := fun t s => (Ok s, t, s).

Definition modify {S} (f : S -> S) : M S unit := fun t s => (Ok tt, t, f s).

(** Running the same computation on one component of a larger state. *)
Definition focus {S X A} (proj : S -> X) (upd : X -> S -> S) (m : M X A) : M S A :=
  fun t s =>
    match m t (proj s) with
    | (r, t', x') => (r, t', upd x' s)
    end.

(** [for (const x of xs) body x], sequentially. *)
Fixpoint for_of {S A} (xs : list A) (body : A -> M S unit) : M S unit :=
  match xs with
  | [] => ret tt
  | x :: rest => body x ;;; for_of rest body
  end.

(** ** JavaScript values held by the cache *)

#[local] Unset Elimination Schemes.
Inductive JsValue : Type :=
| VUndefined
| VNull
| VBool (b : bool)
| VNum (n : Z)
| VStr (s : string)
| VArr (items : list JsValue)
| VObj (fields : list (string * JsValue)).
#[local] Set Elimination Schemes.

(** Truthiness, [typeof v === 'object'] and [Array.isArray]. *)
Definition js_truthy (v : JsValue) : bool :=
  match v with
  | VUndefined | VNull => false
  | VBool b => b
  | VNum n => negb (n =? 0)%Z
  | VStr s => negb (String.eqb s "")
  | VArr _ | VObj _ => true
  end.

Definition js_is_object (v : JsValue) : bool :=
  match v with
  | VNull | VArr _ | VObj _ => true
  | _ => false
  end.

(** Property access [v.name]; a missing property is [undefined]. *)
Definition js_property (name : string) (v : JsValue) : JsValue :=
  match v with
  | VObj fields =>
      match List.find (fun '(n, _) => String.eqb n name) fields with
      | Some (_, x) => x
      | None => VUndefined
      end
  | _ => VUndefined
  end.

(** Equality of values: strict equality on primitives, which is what [===],
    [includes] and a [Set] use for strings, the declared type of keys, tags
    and dependencies.  The values of the embedding carry no identity, so
    arrays and objects are compared by their contents, where JavaScript
    compares them by identity. *)
Fixpoint js_eqb (a b : JsValue) : bool :=
  match a, b with
  | VUndefined, VUndefined => true
  | VNull, VNull => true
  | VBool x, VBool y => Bool.eqb x y
  | VNum x, VNum y => (x =? y)%Z
  | VStr x, VStr y => String.eqb x y
  | VArr xs, VArr ys =>
      (fix all2 (xs ys : list JsValue) : bool :=
         match xs, ys with
         | [], [] => true
         | x :: xs', y :: ys' => js_eqb x y && all2 xs' ys'
         | _, _ => false
         end) xs ys
  | VObj xs, VObj ys =>
      (fix all2 (xs ys : list (string * JsValue)) : bool :=
         match xs, ys with
         | [], [] => true
         | (n, x) :: xs', (m, y) :: ys' => String.eqb n m && js_eqb x y && all2 xs' ys'
         | _, _ => false
         end) xs ys
  | _, _ => false
  end.

(** [String(v)], as used by template literals. *)
Fixpoint js_String (v : JsValue) : string :=
  match v with
  | VUndefined => "undefined"
  | VNull => "null"
  | VBool true => "true"
  | VBool false => "false"
  | VNum n => pretty n
  | VStr s => s
  | VArr items =>
      String.concat ","
        (List.map (fun x => match x with
                            | VUndefined | VNull => ""
                            | _ => js_String x
                            end) items)
  | VObj _ => "[object Object]"
  end.

(** ** BaseStore (src/stores/BaseStore.ts) *)

Module BaseStore.

Record CircuitBreakerState : Type := mkBreaker {
  isOpen : bool;
  failures : Z;
  lastFailTime : option Z;
  nextAttemptTime : option Z;
}.

Record CircuitBreakerConfig : Type := mkConfig {
  enabled : bool;
  errorThreshold : Z;
  timeout : Z;
}.

(** An instance of a subclass of BaseStore: the two protected fields and the
    fields [self] that the subclass adds. *)
Record Store (X : Type) : Type := mkStore {
  circuitBreaker : option CircuitBreakerState;
  circuitBreakerConfig : option CircuitBreakerConfig;
  self : X;
}.
Arguments mkStore {X} _ _ _.
Arguments circuitBreaker {X} _.
Arguments circuitBreakerConfig {X} _.
Arguments self {X} _.

Definition set_breaker {X} (cb : option CircuitBreakerState) (s : Store X) : Store X :=
  mkStore cb (circuitBreakerConfig s) (self s).

Definition set_self {X} (x : X) (s : Store X) : Store X :=
  mkStore (circuitBreaker s) (circuitBreakerConfig s) x.

Definition set_isOpen (b : bool) (cb : CircuitBreakerState) :=
  mkBreaker b (failures cb) (lastFailTime cb) (nextAttemptTime cb).
Definition set_failures (n : Z) (cb : CircuitBreakerState) :=
  mkBreaker (isOpen cb) n (lastFailTime cb) (nextAttemptTime cb).
Definition set_lastFailTime (t : Z) (cb : CircuitBreakerState) :=
  mkBreaker (isOpen cb) (failures cb) (Some t) (nextAttemptTime cb).
Definition set_nextAttemptTime (t : Z) (cb : CircuitBreakerState) :=
  mkBreaker (isOpen cb) (failures cb) (lastFailTime cb) (Some t).

(** The constructor: a breaker exists only when [config.circuitBreaker.enabled]. *)
Definition constructor {X} (config : option CircuitBreakerConfig) (x : X) : Store X :=
  match config with
  | Some cfg =>
      if enabled cfg
      then mkStore (Some (mkBreaker false 0 None None)) (Some cfg) x
      else mkStore None None x
  | None => mkStore None None x
  end.

(** Reading [this.circuitBreaker] / [this.circuitBreakerConfig] to access a
    property: the runtime raises a TypeError on [undefined]. *)
Definition the_breaker {X} : M (Store X) CircuitBreakerState :=
  this <- get_state ;;
  match circuitBreaker this with
  | Some cb => ret cb
  | None => throw (TypeError "Cannot read properties of undefined")
  end.

Definition the_config {X} : M (Store X) CircuitBreakerConfig :=
  this <- get_state ;;
  match circuitBreakerConfig this with
  | Some cfg => ret cfg
  | None => throw (TypeError "Cannot read properties of undefined")
  end.

Definition update_breaker {X} (f : CircuitBreakerState -> CircuitBreakerState)
  : M (Store X) unit :=
  cb <- the_breaker ;;
  modify (set_breaker (Some (f cb))).

(** [this.circuitBreaker.nextAttemptTime && now < this.circuitBreaker.nextAttemptTime]:
    an absent timestamp and the number 0 are falsy. *)
Definition still_open (next : option Z) (now : Z) : bool :=
  match next with
  | Some t => negb (t =? 0)%Z && (now <? t)%Z
  | None => false
  end.

Definition executeWithCircuitBreaker {X T} (operation : M (Store X) T) : M (Store X) T :=
  this <- get_state ;;
  match circuitBreaker this, circuitBreakerConfig this with
  | Some _, Some _ =>
      cb <- the_breaker ;;
      (if isOpen cb then
         now <- Date_now ;;
         if still_open (nextAttemptTime cb) now
         then throw (CircuitBreakerError "Circuit breaker is open")
         else
           update_breaker (set_isOpen false) ;;;
           update_breaker (set_failures 0)
       else ret tt) ;;;
      try_catch
        (result <- operation ;;
         update_breaker (set_failures 0) ;;;
         ret result)
        (fun error =>
           update_breaker (fun cb => set_failures (failures cb + 1) cb) ;;;
           now <- Date_now ;;
           update_breaker (set_lastFailTime now) ;;;
           cb <- the_breaker ;;
           cfg <- the_config ;;
           (if (errorThreshold cfg <=? failures cb)%Z then
              update_breaker (set_isOpen true) ;;;
              now' <- Date_now ;;
              cfg' <- the_config ;;
              update_breaker (set_nextAttemptTime (now' + timeout cfg'))
            else ret tt) ;;;
           throw error)
  | _, _ => operation
  end.

(** [handleError]: always throws. *)
Definition handleError {X A} (storeName : string) (error : CacheError) (operation : string)
  : M (Store X) A :=
  let msg := if String.eqb (message error) "" then "Unknown error" else message error in
  throw (StoreError (operation ++ " failed: " ++ msg) storeName).

(** [isExpired(createdAt, ttl)]: an absent or zero ttl never expires. *)
Definition isExpired (now createdAt : Z) (ttl : option Z) : bool :=
  match ttl with
  | None => false
  | Some ttl => if (ttl =? 0)%Z then false else (ttl * 1000 <? now - createdAt)%Z
  end.

(** [validateKey]: [!key || typeof key !== 'string'] rejects everything but a
    non-empty string; on success the key is used as that string. *)
Definition validateKey {S} (storeName : string) (key : JsValue) : M S string :=
  match key with
  | VStr k =>
      if String.eqb k ""
      then throw (StoreError "Cache key must be a non-empty string" storeName)
      else ret k
  | _ => throw (StoreError "Cache key must be a non-empty string" storeName)
  end.

Definition validateValue {S} (storeName : string) (value : JsValue) : M S unit :=
  match value with
  | VUndefined => throw (StoreError "Cache value cannot be undefined" storeName)
  | _ => ret tt
  end.

End BaseStore.


(** ** Regular expressions

    [RegExp] is the regular-expression engine of the JavaScript runtime.  Only
    the syntax that [patternToRegex] can emit is modelled: a pattern of the
    form [^ body $] whose body is a sequence of literal characters, escaped
    syntax characters [\c], the wildcard [.], and the quantifier [*] after one
    of these.  Without the [s] flag the wildcard matches every character
    except the line terminators; without the [m] flag [^] and [$] match only
    at the two ends of the input, so [test] is a whole-string match. *)

Module RegExp.

Inductive Atom : Type :=
| Lit (c : ascii)
| AnyChar.

Inductive Term : Type :=
| One (a : Atom)
| Star (a : Atom).

(** The line terminators among the characters of the embedding, which are
    the code units below 256: line feed and carriage return (the other two
    that the dot refuses, U+2028 and U+2029, are not among them). *)
Definition is_line_terminator (c : ascii) : bool :=
  Ascii.eqb c "010" || Ascii.eqb c "013".

(** The syntax characters of the pattern grammar. *)
Definition is_syntax_char (c : ascii) : bool :=
  existsb (Ascii.eqb c)
    ["^"; "$"; "\"; "."; "*"; "+"; "?"; "("; ")"; "["; "]"; "{"; "}"; "|"]%char.

(** Parsing the body up to the closing [$]; an atom directly followed by [*]
    is quantified.  [None] stands for a pattern outside the modelled syntax. *)
Fixpoint parse_body (src : string) : option (list Term) :=
  match src with
  | EmptyString => None
  | String c rest =>
      if Ascii.eqb c "$" then
        match rest with EmptyString => Some [] | _ => None end
      else if Ascii.eqb c "\" then
        match rest with
        | String e rest1 =>
            if is_syntax_char e then
              match rest1 with
              | String q rest2 =>
                  if Ascii.eqb q "*"
                  then option_map (cons (Star (Lit e))) (parse_body rest2)
                  else option_map (cons (One (Lit e))) (parse_body rest1)
              | EmptyString => None
              end
            else None
        | EmptyString => None
        end
      else if Ascii.eqb c "." then
        match rest with
        | String q rest1 =>
            if Ascii.eqb q "*"
            then option_map (cons (Star AnyChar)) (parse_body rest1)
            else option_map (cons (One AnyChar)) (parse_body rest)
        | EmptyString => None
        end
      else if is_syntax_char c then None
      else
        match rest with
        | String q rest1 =>
            if Ascii.eqb q "*"
            then option_map (cons (Star (Lit c))) (parse_body rest1)
            else option_map (cons (One (Lit c))) (parse_body rest)
        | EmptyString => None
        end
  end.

(** [new RegExp(source)] *)
Definition compile (source : string) : option (list Term) :=
  match source with
  | String c body => if Ascii.eqb c "^" then parse_body body else None
  | EmptyString => None
  end.

Definition atom_matches (a : Atom) (c : ascii) : bool :=
  match a with
  | Lit x => Ascii.eqb c x
  | AnyChar => negb (is_line_terminator c)
  end.

(** Backtracking match of the whole remaining input. *)
Fixpoint matches (terms : list Term) (input : string) : bool :=
  match terms with
  | [] => match input with EmptyString => true | _ => false end
  | One a :: terms' =>
      match input with
      | String c rest => atom_matches a c && matches terms' rest
      | EmptyString => false
      end
  | Star a :: terms' =>
      (fix star (input : string) : bool :=
         matches terms' input
         || match input with
            | String c rest => atom_matches a c && star rest
            | EmptyString => false
            end) input
  end.

(** [regex.test(input)] *)
Definition test (regex : list Term) (input : string) : bool := matches regex input.

End RegExp.

(** ** Glob patterns, as the specification words them

    [*] matches any sequence of characters, including the empty one, [?]
    matches exactly one character, every other character matches itself, and
    the whole key has to match. *)

Module Glob.

Fixpoint glob_match (pattern key : string) : bool :=
  match pattern with
  | EmptyString => match key with EmptyString => true | _ => false end
  | String p pattern' =>
      if Ascii.eqb p "*" then
        (fix any (key : string) : bool :=
           glob_match pattern' key
           || match key with
              | String _ rest => any rest
              | EmptyString => false
              end) key
      else
        match key with
        | String c rest =>
            (Ascii.eqb p "?" || Ascii.eqb p c) && glob_match pattern' rest
        | EmptyString => false
        end
  end.

End Glob.

(** ** MemoryStore.patternToRegex (src/stores/MemoryStore.ts) *)

Module Pattern.

(** [s.replace(/[class]/g, replacement)] for a one-character class: every
    matching character is replaced, the others are kept. *)
Fixpoint replace_each (f : ascii -> string) (s : string) : string :=
  match s with
  | EmptyString => EmptyString
  | String c rest => f c ++ replace_each f rest
  end.

(** The class [[.+^${}()|[\]\\]]. *)
Definition is_escaped_char (c : ascii) : bool :=
  existsb (Ascii.eqb c)
    ["."; "+"; "^"; "$"; "{"; "}"; "("; ")"; "|"; "["; "]"; "\"]%char.

Definition keep (c : ascii) : string := String c EmptyString.

(** The local variable [regexPattern]: escape the special characters except
    [*] and [?], then turn [*] into [.*], then [?] into [.]. *)
Definition regexPattern (pattern : string) : string :=
  replace_each (fun c => if Ascii.eqb c "?" then "." else keep c)
    (replace_each (fun c => if Ascii.eqb c "*" then ".*" else keep c)
       (replace_each (fun c => if is_escaped_char c then String "\" (keep c) else keep c)
          pattern)).

Definition patternToRegex (pattern : string) : string :=
  "^" ++ regexPattern pattern ++ "$".

(** [patternToRegex(pattern).test(key)]; [None] when [new RegExp] rejects the
    source. *)
Definition pattern_test (pattern key : string) : option bool :=
  option_map (fun regex => RegExp.test regex key) (RegExp.compile (patternToRegex pattern)).

End Pattern.

(** ** The LRU cache behind MemoryStore

    [LRUCache] is the class of the lru-cache package, which is not part of
    the repository.  It is modelled from the documented behaviour of the
    package for the options that the MemoryStore constructor passes: a bound
    [max] on the number of entries, a default [ttl] in milliseconds (0 for
    none), [updateAgeOnGet], [updateAgeOnHas] and a [dispose] hook.  The items
    are kept from least to most recently used; every operation reports the
    entries it disposes of, in order, so that the caller can run the hook. *)

Module LRUCache.

Record Item (V : Type) : Type := mkItem {
  key : string;
  value : V;
  start : Z;    (* when the age of the item was last reset, 0 without a ttl *)
  ttl : Z;      (* milliseconds, 0 for no expiry *)
}.
Arguments mkItem {V} _ _ _ _.
Arguments key {V} _.
Arguments value {V} _.
Arguments start {V} _.
Arguments ttl {V} _.

Record t (V : Type) : Type := mkCache {
  max : nat;
  default_ttl : Z;
  items : list (Item V);
}.
Arguments mkCache {V} _ _ _.
Arguments max {V} _.
Arguments default_ttl {V} _.
Arguments items {V} _.

Section Operations.
Context {V : Type}.

Definition create (max : nat) (ttl : Z) : t V := mkCache max ttl [].

Definition with_items (c : t V) (l : list (Item V)) : t V :=
  mkCache (max c) (default_ttl c) l.

Definition find (k : string) (l : list (Item V)) : option (Item V) :=
  List.find (fun it => String.eqb (key it) k) l.

Definition remove (k : string) (l : list (Item V)) : list (Item V) :=
  List.filter (fun it => negb (String.eqb (key it) k)) l.

Definition lookup (k : string) (c : t V) : option V :=
  option_map value (find k (items c)).

(** An item is stale when it has a ttl and its age exceeds it. *)
Definition is_stale (now : Z) (it : Item V) : bool :=
  negb (ttl it =? 0)%Z && negb (start it =? 0)%Z && (ttl it <? now - start it)%Z.

Definition fresh_start (now ttl : Z) : Z := if (ttl =? 0)%Z then 0%Z else now.

Definition size (c : t V) : nat := length (items c).

(** [cache.get(k)] with [updateAgeOnGet]: a stale item is deleted and
    disposed of; a live one becomes the most recently used and its age is
    reset. *)
Definition get (now : Z) (k : string) (c : t V) : option V * list (string * V) * t V :=
  match find k (items c) with
  | None => (None, [], c)
  | Some it =>
      if is_stale now it
      then (None, [(k, value it)], with_items c (remove k (items c)))
      else (Some (value it), [],
            with_items c (remove k (items c)
                          ++ [mkItem k (value it) (fresh_start now (ttl it)) (ttl it)]))
  end.

(** [cache.set(k, v, { ttl })]: an undefined ttl means the default.  An
    existing entry is replaced (the old value is disposed of); otherwise the
    least recently used item is evicted when the cache is full. *)
Definition set (now : Z) (k : string) (v : V) (ttl : option Z) (c : t V)
  : list (string * V) * t V :=
  let ttl := default (default_ttl c) ttl in
  let item := mkItem k v (fresh_start now ttl) ttl in
  match find k (items c) with
  | Some old => ([(k, value old)], with_items c (remove k (items c) ++ [item]))
  | None =>
      if Nat.eqb (size c) (max c)
      then match items c with
           | lru :: _ =>
               ([(key lru, value lru)], with_items c (remove (key lru) (items c) ++ [item]))
           | [] => ([], with_items c [item])
           end
      else ([], with_items c (items c ++ [item]))
  end.

(** [cache.delete(k)] *)
Definition delete (k : string) (c : t V) : bool * list (string * V) * t V :=
  match find k (items c) with
  | Some it => (true, [(k, value it)], with_items c (remove k (items c)))
  | None => (false, [], c)
  end.

(** [cache.has(k)] with [updateAgeOnHas]: a stale item is reported absent and
    left where it is. *)
Definition has (now : Z) (k : string) (c : t V) : bool * t V :=
  match find k (items c) with
  | Some it =>
      if is_stale now it then (false, c)
      else (true,
            with_items c
              (List.map (fun it' => if String.eqb (key it') k
                                    then mkItem k (value it') (fresh_start now (ttl it')) (ttl it')
                                    else it')
                 (items c)))
  | None => (false, c)
  end.

(** [cache.keys()]: the keys that are not stale, most recently used first. *)
Definition keys (now : Z) (c : t V) : list string :=
  List.map key (List.filter (fun it => negb (is_stale now it)) (rev (items c))).

(** [cache.clear()] *)
Definition clear (c : t V) : list (string * V) * t V :=
  (List.map (fun it => (key it, value it)) (items c), with_items c []).

(** Assigning to a property of the object stored under [k]. *)
Definition poke (k : string) (f : V -> V) (c : t V) : t V :=
  with_items c
    (List.map (fun it => if String.eqb (key it) k
                         then mkItem (key it) (f (value it)) (start it) (ttl it)
                         else it)
       (items c)).

End Operations.
End LRUCache.

(** ** MemoryStore (src/stores/MemoryStore.ts) *)

Module MemoryStore.
Import BaseStore.

Record CacheOptions : Type := mkOptions {
  opt_ttl : option Z;
  opt_tags : option (list string);
  opt_dependencies : option (list string);
  opt_compress : option bool;
  opt_serialize : option bool;
}.

Definition no_options : CacheOptions := mkOptions None None None None None.

Record CacheEntry : Type := mkEntry {
  value : JsValue;
  ttl : option Z;
  createdAt : Z;
  lastAccessed : Z;
  tags : option (list string);
  dependencies : option (list string);
  compressed : option bool;
  serialized : option bool;
}.

Definition set_lastAccessed (now : Z) (e : CacheEntry) : CacheEntry :=
  mkEntry (value e) (ttl e) (createdAt e) now (tags e) (dependencies e)
    (compressed e) (serialized e).

(** The part of [StoreConfig] that the constructor reads.  [LRUCache] accepts
    only a positive integer for [max] and for [ttl], so the two are taken as
    natural numbers ([max] an entry count, [ttl] in seconds). *)
Record StoreConfig : Type := mkStoreConfig {
  cfg_max : option nat;
  cfg_ttl : option N;
  cfg_circuitBreaker : option CircuitBreakerConfig;
}.

(** A [Set<CacheKey>] in insertion order. *)
Definition set_add (k : string) (keys : list string) : list string :=
  if existsb (String.eqb k) keys then keys else keys ++ [k].

Definition set_delete (k : string) (keys : list string) : list string :=
  List.filter (fun k' => negb (String.eqb k' k)) keys.

Record Fields : Type := mkFields {
  cache : LRUCache.t CacheEntry;
  tagIndex : gmap string (list string);
  dependencyIndex : gmap string (list string);
}.

Abbreviation MemoryStore := (Store Fields).

Definition name : string := "MemoryStore".

(** The errors with which [validateKey] and [validateValue] reject. *)
Definition key_error : CacheError :=
  StoreError "Cache key must be a non-empty string" name.
Definition value_error : CacheError :=
  StoreError "Cache value cannot be undefined" name.

(** [x || fallback] and [x ? x * 1000 : undefined] on numbers. *)
Definition or_default (x : option nat) (fallback : nat) : nat :=
  match x with
  | Some (S n) => S n
  | _ => fallback
  end.

Definition to_millis (ttl : option Z) : option Z :=
  match ttl with
  | Some s => if (s =? 0)%Z then None else Some (s * 1000)%Z
  | None => None
  end.

Definition constructor (config : StoreConfig) : MemoryStore :=
  BaseStore.constructor (cfg_circuitBreaker config)
    (mkFields
       (LRUCache.create (or_default (cfg_max config) 1000)
          (default 0%Z (to_millis (Z.of_N <$> cfg_ttl config))))
       ∅ ∅).

(** One step of the loops of [updateIndexes] and [cleanupIndexes]. *)
Definition index_add (k : string) (index : gmap string (list string)) (label : string)
  : gmap string (list string) :=
  <[label := set_add k (default [] (index !! label))]> index.

Definition index_remove (k : string) (index : gmap string (list string)) (label : string)
  : gmap string (list string) :=
  match index !! label with
  | Some keys =>
      let keys' := set_delete k keys in
      match keys' with
      | [] => base.delete label index
      | _ => <[label := keys']> index
      end
  | None => index
  end.

Definition over_labels (step : gmap string (list string) -> string -> gmap string (list string))
    (labels : option (list string)) (index : gmap string (list string))
  : gmap string (list string) :=
  match labels with
  | Some labels => fold_left step labels index
  | None => index
  end.

Definition updateIndexes (k : string) (entry : CacheEntry) (f : Fields) : Fields :=
  mkFields (cache f)
    (over_labels (index_add k) (tags entry) (tagIndex f))
    (over_labels (index_add k) (dependencies entry) (dependencyIndex f)).

Definition cleanupIndexes (k : string) (entry : CacheEntry) (f : Fields) : Fields :=
  mkFields (cache f)
    (over_labels (index_remove k) (tags entry) (tagIndex f))
    (over_labels (index_remove k) (dependencies entry) (dependencyIndex f)).

(** The [dispose] hook of the constructor, run on what the cache disposes of. *)
Definition dispose (disposed : list (string * CacheEntry)) (f : Fields) : Fields :=
  fold_left (fun f '(k, entry) => cleanupIndexes k entry f) disposed f.

Definition set_cache (c : LRUCache.t CacheEntry) (f : Fields) : Fields :=
  mkFields c (tagIndex f) (dependencyIndex f).

Definition on_fields (g : Fields -> Fields) : M MemoryStore unit :=
  modify (fun s => set_self (g (self s)) s).

Definition cache_get (k : string) : M MemoryStore (option CacheEntry) :=
  fun now s =>
    let '(found, disposed, c) := LRUCache.get now k (cache (self s)) in
    (Ok found, now, set_self (dispose disposed (set_cache c (self s))) s).

Definition cache_set (k : string) (entry : CacheEntry) (ttl : option Z) : M MemoryStore unit :=
  fun now s =>
    let '(disposed, c) := LRUCache.set now k entry ttl (cache (self s)) in
    (Ok tt, now, set_self (dispose disposed (set_cache c (self s))) s).

Definition cache_delete (k : string) : M MemoryStore bool :=
  fun now s =>
    let '(deleted, disposed, c) := LRUCache.delete k (cache (self s)) in
    (Ok deleted, now, set_self (dispose disposed (set_cache c (self s))) s).

Definition cache_has (k : string) : M MemoryStore bool :=
  fun now s =>
    let '(present, c) := LRUCache.has now k (cache (self s)) in
    (Ok present, now, set_self (set_cache c (self s)) s).

Definition cache_keys : M MemoryStore (list string) :=
  fun now s => (Ok (LRUCache.keys now (cache (self s))), now, s).

Definition cache_clear : M MemoryStore unit :=
  fun now s =>
    let '(disposed, c) := LRUCache.clear (cache (self s)) in
    (Ok tt, now, set_self (dispose disposed (set_cache c (self s))) s).

Definition get (key : JsValue) : M MemoryStore JsValue :=
  executeWithCircuitBreaker
    (k <- validateKey name key ;;
     entry <- cache_get k ;;
     match entry with
     | None => ret VNull
     | Some entry =>
         now <- Date_now ;;
         if isExpired now (createdAt entry) (ttl entry)
         then cache_delete k ;;; ret VNull
         else
           now' <- Date_now ;;
           on_fields (fun f => set_cache (LRUCache.poke k (set_lastAccessed now') (cache f)) f) ;;;
           ret (value entry)
     end).

Definition set (key value : JsValue) (options : option CacheOptions) : M MemoryStore unit :=
  executeWithCircuitBreaker
    (k <- validateKey name key ;;
     validateValue name value ;;;
     created <- Date_now ;;
     accessed <- Date_now ;;
     let entry :=
       mkEntry value (options ≫= opt_ttl) created accessed
         (options ≫= opt_tags) (options ≫= opt_dependencies)
         (options ≫= opt_compress) (options ≫= opt_serialize) in
     cache_set k entry (to_millis (options ≫= opt_ttl)) ;;;
     on_fields (updateIndexes k entry)).

Definition del (key : JsValue) : M MemoryStore bool :=
  executeWithCircuitBreaker
    (k <- validateKey name key ;;
     cache_delete k).

Fixpoint mget_loop (keys : list JsValue) (results : list JsValue)
  : M MemoryStore (list JsValue) :=
  match keys with
  | [] => ret results
  | key :: rest =>
      value <- get key ;;
      mget_loop rest (results ++ [value])
  end.

Definition mget (keys : list JsValue) : M MemoryStore (list JsValue) :=
  executeWithCircuitBreaker (mget_loop keys []).

Definition mset (keyValuePairs : list (JsValue * JsValue)) (options : option CacheOptions)
  : M MemoryStore unit :=
  executeWithCircuitBreaker
    (for_of keyValuePairs (fun '(key, value) => set key value options)).

Definition clear_all : M MemoryStore unit :=
  cache_clear ;;;
  on_fields (fun f => mkFields (cache f) ∅ (dependencyIndex f)) ;;;
  on_fields (fun f => mkFields (cache f) (tagIndex f) ∅).

Definition clear : M MemoryStore unit := executeWithCircuitBreaker clear_all.

Definition close : M MemoryStore unit := clear_all.

Definition exists_ (key : JsValue) : M MemoryStore bool :=
  executeWithCircuitBreaker
    (k <- validateKey name key ;;
     cache_has k).

(** [keys(pattern?)]: an absent or empty pattern lists every key. *)
Definition keys (pattern : option string) : M MemoryStore (list string) :=
  executeWithCircuitBreaker
    (allKeys <- cache_keys ;;
     match pattern with
     | None => ret allKeys
     | Some pattern =>
         if String.eqb pattern "" then ret allKeys
         else
           match RegExp.compile (Pattern.patternToRegex pattern) with
           | Some regex => ret (List.filter (RegExp.test regex) allKeys)
           | None => throw (Error "Invalid regular expression")
           end
     end).

(** [for (const key of keys) if (this.cache.delete(key)) count++] *)
Fixpoint delete_each (keys : list string) (count : Z) : M MemoryStore Z :=
  match keys with
  | [] => ret count
  | key :: rest =>
      deleted <- cache_delete key ;;
      delete_each rest (if deleted : bool then (count + 1)%Z else count)
  end.

Definition invalidateByTag (tag : string) : M MemoryStore Z :=
  executeWithCircuitBreaker
    (this <- get_state ;;
     match tagIndex (self this) !! tag with
     | None => ret 0%Z
     | Some keys =>
         count <- delete_each keys 0%Z ;;
         on_fields (fun f => mkFields (cache f) (base.delete tag (tagIndex f))
                               (dependencyIndex f)) ;;;
         ret count
     end).

Definition invalidateByPattern (pattern : string) : M MemoryStore Z :=
  executeWithCircuitBreaker
    (keys <- keys (Some pattern) ;;
     delete_each keys 0%Z).

Definition invalidateByDependency (dependency : string) : M MemoryStore Z :=
  executeWithCircuitBreaker
    (this <- get_state ;;
     match dependencyIndex (self this) !! dependency with
     | None => ret 0%Z
     | Some keys =>
         count <- delete_each keys 0%Z ;;
         on_fields (fun f => mkFields (cache f) (tagIndex f)
                               (base.delete dependency (dependencyIndex f))) ;;;
         ret count
     end).

End MemoryStore.

(** ** The store interface (IStore in src/types/index.ts)

    The optional methods [invalidateByTag], [invalidateByPattern] and
    [invalidateByDependency] are looked up on the store object at run time
    (['m' in store && typeof store.m === 'function']).  [getStats] plays no
    part in what follows and is left out. *)

Class IStore (St : Type) : Type := {
  constructor_name : St -> string;
  store_get : JsValue -> M St JsValue;
  store_set : JsValue -> JsValue -> option MemoryStore.CacheOptions -> M St unit;
  store_del : JsValue -> M St bool;
  store_mget : list JsValue -> M St (list JsValue);
  store_mset : list (JsValue * JsValue) -> option MemoryStore.CacheOptions -> M St unit;
  store_clear : M St unit;
  store_exists : JsValue -> M St bool;
  store_keys : option string -> M St (list string);
  store_close : M St unit;
  store_invalidateByTag : St -> option (string -> M St Z);
  store_invalidateByPattern : St -> option (string -> M St Z);
  store_invalidateByDependency : St -> option (JsValue -> M St Z);
}.

(** MemoryStore implements the interface and the three optional methods.  Its
    indexes are keyed by strings, so a dependency that is not a string is not
    found in [dependencyIndex]. *)
#[export] Instance MemoryStore_IStore : IStore MemoryStore.MemoryStore := {|
  constructor_name := fun _ => MemoryStore.name;
  store_get := MemoryStore.get;
  store_set := MemoryStore.set;
  store_del := MemoryStore.del;
  store_mget := MemoryStore.mget;
  store_mset := MemoryStore.mset;
  store_clear := MemoryStore.clear;
  store_exists := MemoryStore.exists_;
  store_keys := MemoryStore.keys;
  store_close := MemoryStore.close;
  store_invalidateByTag := fun _ => Some MemoryStore.invalidateByTag;
  store_invalidateByPattern := fun _ => Some MemoryStore.invalidateByPattern;
  store_invalidateByDependency := fun _ =>
    Some (fun dependency =>
            match dependency with
            | VStr d => MemoryStore.invalidateByDependency d
            | _ => BaseStore.executeWithCircuitBreaker (ret 0%Z)
            end);
|}.

(** A chain may mix store classes: a store of one of two classes implements
    the interface through its own class. *)
Definition either {A B T} (ma : M A T) (mb : M B T) : M (A + B) T :=
  fun t s =>
    match s with
    | inl a => let '(r, t', a') := ma t a in (r, t', inl a')
    | inr b => let '(r, t', b') := mb t b in (r, t', inr b')
    end.

Definition not_this_class {S T} : M S T :=
  throw (TypeError "method called on a store of another class").

#[export] Instance sum_IStore {A B : Type} `{IStore A} `{IStore B} : IStore (A + B) := {|
  constructor_name := fun s =>
    match s with inl a => constructor_name a | inr b => constructor_name b end;
  store_get := fun key => either (store_get key) (store_get key);
  store_set := fun key value options =>
    either (store_set key value options) (store_set key value options);
  store_del := fun key => either (store_del key) (store_del key);
  store_mget := fun keys => either (store_mget keys) (store_mget keys);
  store_mset := fun pairs options =>
    either (store_mset pairs options) (store_mset pairs options);
  store_clear := either store_clear store_clear;
  store_exists := fun key => either (store_exists key) (store_exists key);
  store_keys := fun pattern => either (store_keys pattern) (store_keys pattern);
  store_close := either store_close store_close;
  store_invalidateByTag := fun s =>
    match s with
    | inl a => option_map (fun native tag => either (native tag) not_this_class)
                 (store_invalidateByTag a)
    | inr b => option_map (fun native tag => either not_this_class (native tag))
                 (store_invalidateByTag b)
    end;
  store_invalidateByPattern := fun s =>
    match s with
    | inl a => option_map (fun native pattern => either (native pattern) not_this_class)
                 (store_invalidateByPattern a)
    | inr b => option_map (fun native pattern => either not_this_class (native pattern))
                 (store_invalidateByPattern b)
    end;
  store_invalidateByDependency := fun s =>
    match s with
    | inl a => option_map (fun native dependency => either (native dependency) not_this_class)
                 (store_invalidateByDependency a)
    | inr b => option_map (fun native dependency => either not_this_class (native dependency))
                 (store_invalidateByDependency b)
    end;
|}.

(** [this.stores[i].m(...)]: the call runs on the i-th store of the array. *)
Definition on_store {St A} (i : nat) (m : M St A) : M (list St) A :=
  fun t stores =>
    match stores !! i with
    | Some s => let '(r, t', s') := m t s in (r, t', <[i := s']> stores)
    | None => (Throw (TypeError "Cannot read properties of undefined"), t, stores)
    end.

(** ** LayeredStrategy (src/strategies/LayeredStrategy.ts) *)

Module LayeredStrategy.
Section WithStores.
Context {St : Type} `{IStore St}.

Definition getStorePriority (store : St) : Z :=
  let storeName := constructor_name store in
  if String.eqb storeName "MemoryStore" then 1%Z
  else if String.eqb storeName "RedisStore" then 2%Z
  else if String.eqb storeName "MemcachedStore" then 3%Z
  else 999%Z.

(** [stores.sort((a, b) => priority(a) - priority(b))]: the sort of the
    runtime is stable. *)
Fixpoint insert_sorted (store : St) (sorted : list St) : list St :=
  match sorted with
  | [] => [store]
  | other :: rest =>
      if (getStorePriority store <=? getStorePriority other)%Z
      then store :: other :: rest
      else other :: insert_sorted store rest
  end.

Definition sort (stores : list St) : list St := fold_right insert_sorted [] stores.

(** The order that the comparator of the sort induces. *)
Definition by_priority (a b : St) : Prop :=
  (getStorePriority a <= getStorePriority b)%Z.

Definition constructor (stores : list St) : list St := sort stores.

(** [promoteValue]: the writes to the stores above the hit; a failed write is
    caught and logged. *)
Definition promoteValue (key value : JsValue) (foundAtLevel : nat) : M (list St) unit :=
  for_of (seq 0 foundAtLevel)
    (fun i => try_catch (on_store i (store_set key value None)) (fun _ => ret tt)).

(** The loop of [get] with [n] stores left, starting at index [i]. *)
Fixpoint get_from (n i : nat) (key : JsValue) : M (list St) JsValue :=
  match n with
  | O => ret VNull
  | S n' =>
      found <- try_catch
                 (value <- on_store i (store_get key) ;;
                  match value with
                  | VNull => ret None
                  | _ => promoteValue key value i ;;; ret (Some value)
                  end)
                 (fun _ => ret None) ;;
      match found with
      | Some value => ret value
      | None => get_from n' (S i) key
      end
  end.

Definition get (key : JsValue) : M (list St) JsValue :=
  stores <- get_state ;;
  get_from (length stores) 0 key.

(** The loop shared by [set] and [mset]: the errors of the stores that
    failed, in store order. *)
Fixpoint write_from (write : M St unit) (n i : nat) (errors : list CacheError)
  : M (list St) (list CacheError) :=
  match n with
  | O => ret errors
  | S n' =>
      errors' <- try_catch (on_store i write ;;; ret errors)
                   (fun error => ret (errors ++ [error])) ;;
      write_from write n' (S i) errors'
  end.

Definition joined (errors : list CacheError) : string :=
  String.concat ", " (List.map message errors).

Definition set (key value : JsValue) (options : option MemoryStore.CacheOptions)
  : M (list St) unit :=
  stores <- get_state ;;
  errors <- write_from (store_set key value options) (length stores) 0 [] ;;
  stores' <- get_state ;;
  if Nat.eqb (length errors) (length stores')
  then throw (Error ("Failed to set key " ++ js_String key ++ " in all stores: "
                     ++ joined errors))
  else ret tt.

Definition mset (keyValuePairs : list (JsValue * JsValue))
    (options : option MemoryStore.CacheOptions) : M (list St) unit :=
  stores <- get_state ;;
  errors <- write_from (store_mset keyValuePairs options) (length stores) 0 [] ;;
  stores' <- get_state ;;
  if Nat.eqb (length errors) (length stores')
  then throw (Error ("Failed to execute mset in all stores: " ++ joined errors))
  else ret tt.

Fixpoint del_from (n i : nat) (key : JsValue) (deleted : bool) : M (list St) bool :=
  match n with
  | O => ret deleted
  | S n' =>
      deleted' <- try_catch
                    (result <- on_store i (store_del key) ;;
                     ret (if result : bool then true else deleted))
                    (fun _ => ret deleted) ;;
      del_from n' (S i) key deleted'
  end.

Definition del (key : JsValue) : M (list St) bool :=
  stores <- get_state ;;
  del_from (length stores) 0 key false.

Definition clear : M (list St) unit :=
  stores <- get_state ;;
  for_of (seq 0 (length stores))
    (fun i => try_catch (on_store i store_clear) (fun _ => ret tt)).

End WithStores.
End LayeredStrategy.

(** ** PatternInvalidator (src/invalidation/PatternInvalidator.ts) *)

Record InvalidationOptions : Type := mkInvalidation {
  cascade : option bool;
  async : option bool;
}.

(** [options?.async] and [options?.cascade] used as conditions. *)
Definition wants_async (options : option InvalidationOptions) : bool :=
  match options ≫= async with Some true => true | _ => false end.
Definition wants_cascade (options : option InvalidationOptions) : bool :=
  match options ≫= cascade with Some true => true | _ => false end.

(** [{ ...options, cascade: b }] *)
Definition with_cascade (b : bool) (options : option InvalidationOptions)
  : option InvalidationOptions :=
  Some (mkInvalidation (Some b) (options ≫= async)).

Definition sum (counts : list Z) : Z := fold_left Z.add counts 0%Z.

(** [this.stores.map(async store => body)] joined by [Promise.all]: one
    result per store, in store order. *)
Fixpoint map_stores {St A} (body : nat -> M (list St) A) (n i : nat) : M (list St) (list A) :=
  match n with
  | O => ret []
  | S n' =>
      r <- body i ;;
      rest <- map_stores body n' (S i) ;;
      ret (r :: rest)
  end.

Module PatternInvalidator.
Section WithStores.
Context {St : Type} `{IStore St}.

(** [for (const key of keys) { if (await store.del(key)) count++ }] *)
Fixpoint del_each (i : nat) (keys : list string) (count : Z) : M (list St) Z :=
  match keys with
  | [] => ret count
  | key :: rest =>
      deleted <- on_store i (store_del (VStr key)) ;;
      del_each i rest (if deleted : bool then (count + 1)%Z else count)
  end.

Definition per_store (pattern : string) (i : nat) : M (list St) Z :=
  try_catch
    (stores <- get_state ;;
     match stores !! i ≫= store_invalidateByPattern with
     | Some native => on_store i (native pattern)
     | None =>
         keys <- on_store i (store_keys (Some pattern)) ;;
         del_each i keys 0%Z
     end)
    (fun _ => ret 0%Z).

Definition invalidateByPattern (pattern : string) (options : option InvalidationOptions)
  : M (list St) Z :=
  stores <- get_state ;;
  results <- map_stores (per_store pattern) (length stores) 0 ;;
  if wants_async options then ret 0%Z else ret (sum results).

End WithStores.
End PatternInvalidator.

(** ** DependencyInvalidator (src/invalidation/DependencyInvalidator.ts)

    [invalidateByDependency] and [cascadeInvalidation] call each other without
    a bound, so the embedding takes a number [fuel] of nested calls that it
    may make; [None] is returned when that number is exhausted. *)

Module DependencyInvalidator.
Section WithStores.
Context {St : Type} `{IStore St}.

(** [Set.prototype.add] on a set kept in insertion order; membership is by
    [js_eqb], the membership of a [Set] of strings. *)
Definition add_child (dep : JsValue) (children : list JsValue) : list JsValue :=
  if existsb (js_eqb dep) children then children else children ++ [dep].

(** The body of the loop over the keys of one store, for one fetched value. *)
Definition children_of (parentDependency : JsValue) (value : JsValue)
    (children : list JsValue) : list JsValue :=
  if js_truthy value && js_is_object value && js_truthy (js_property "dependencies" value)
  then
    let dependencies :=
      match js_property "dependencies" value with
      | VArr items => items
      | other => [other]
      end in
    if existsb (js_eqb parentDependency) dependencies
    then fold_left (fun acc dep => if js_eqb dep parentDependency then acc else add_child dep acc)
           dependencies children
    else children
  else children.

(** The keys of store [i], one after the other; a failing [get] ends the scan
    of that store (the [catch] is outside the loop). *)
Fixpoint scan_keys (parentDependency : JsValue) (i : nat) (keys : list string)
    (children : list JsValue) : M (list St) (list JsValue) :=
  match keys with
  | [] => ret children
  | key :: rest =>
      fetched <- try_catch (value <- on_store i (store_get (VStr key)) ;; ret (Some value))
                   (fun _ => ret None) ;;
      match fetched with
      | Some value => scan_keys parentDependency i rest (children_of parentDependency value children)
      | None => ret children
      end
  end.

Fixpoint scan_stores (parentDependency : JsValue) (n i : nat) (children : list JsValue)
  : M (list St) (list JsValue) :=
  match n with
  | O => ret children
  | S n' =>
      listed <- try_catch (keys <- on_store i (store_keys (Some "*")) ;; ret (Some keys))
                  (fun _ => ret None) ;;
      children' <- match listed with
                   | Some keys => scan_keys parentDependency i keys children
                   | None => ret children
                   end ;;
      scan_stores parentDependency n' (S i) children'
  end.

Definition findChildDependencies (parentDependency : JsValue) : M (list St) (list JsValue) :=
  stores <- get_state ;;
  scan_stores parentDependency (length stores) 0 [].

(** The per-store closure of [invalidateByDependency]. *)
Definition per_store (dependency : JsValue) (i : nat) : M (list St) Z :=
  try_catch
    (stores <- get_state ;;
     match stores !! i ≫= store_invalidateByDependency with
     | Some native => on_store i (native dependency)
     | None => ret 0%Z
     end)
    (fun _ => ret 0%Z).

(** [for (const child of children) total += await invalidate(child, ...)] *)
Fixpoint sum_children {S} (invalidate : JsValue -> M S (option Z))
    (children : list JsValue) (total : Z) : M S (option Z) :=
  match children with
  | [] => ret (Some total)
  | child :: rest =>
      count <- invalidate child ;;
      match count with
      | Some count => sum_children invalidate rest (total + count)%Z
      | None => ret None
      end
  end.

Definition cascadeInvalidation
    (invalidate : JsValue -> option InvalidationOptions -> M (list St) (option Z))
    (dependency : JsValue) (options : option InvalidationOptions) : M (list St) (option Z) :=
  childDependencies <- findChildDependencies dependency ;;
  match childDependencies with
  | [] => ret (Some 0%Z)
  | _ =>
      sum_children (fun child => invalidate child (with_cascade true options))
        childDependencies 0%Z
  end.

Fixpoint invalidateByDependency (fuel : nat) (dependency : JsValue)
    (options : option InvalidationOptions) : M (list St) (option Z) :=
  match fuel with
  | O => ret None
  | S fuel' =>
      stores <- get_state ;;
      results <- map_stores (per_store dependency) (length stores) 0 ;;
      if wants_async options then ret (Some 0%Z)
      else
        let totalInvalidated := sum results in
        if wants_cascade options then
          cascaded <- cascadeInvalidation (invalidateByDependency fuel') dependency options ;;
          ret (option_map (Z.add totalInvalidated) cascaded)
        else ret (Some totalInvalidated)
  end.

End WithStores.
End DependencyInvalidator.

(** ** DependencyInvalidator, revised copy (a source file of unknown name)

    This copy of the class threads one [visited] set, created by the public
    [invalidateByDependency], through [invalidateByDependencyInternal] and
    [cascadeInvalidation].  The set and the console are part of the state of
    a run; [findChildDependencies] and the per-store closure are those of the
    other copy. *)

Module VisitedDependencyInvalidator.
Section WithStores.
Context {St : Type} `{IStore St}.

Record Run : Type := mkRun {
  visited : list JsValue;    (* the Set, in insertion order *)
  warnings : list string;    (* what console.warn was given *)
  stores : list St;
}.

Definition on_stores {A} (m : M (list St) A) : M Run A :=
  focus stores (fun stores' r => mkRun (visited r) (warnings r) stores') m.

Definition console_warn (line : string) : M Run unit :=
  modify (fun r => mkRun (visited r) (warnings r ++ [line]) (stores r)).

Definition visited_add (dependency : JsValue) : M Run unit :=
  modify (fun r => mkRun (DependencyInvalidator.add_child dependency (visited r))
                     (warnings r) (stores r)).

Definition circular (dependency : JsValue) : string :=
  "Circular dependency detected: " ++ js_String dependency
  ++ ". Skipping to prevent infinite recursion.".

Definition cascadeInvalidation
    (invalidate : JsValue -> option InvalidationOptions -> M Run (option Z))
    (dependency : JsValue) (options : option InvalidationOptions) : M Run (option Z) :=
  childDependencies <- on_stores (DependencyInvalidator.findChildDependencies dependency) ;;
  match childDependencies with
  | [] => ret (Some 0%Z)
  | _ =>
      DependencyInvalidator.sum_children
        (fun child => invalidate child (with_cascade true options))
        childDependencies 0%Z
  end.

Fixpoint invalidateByDependencyInternal (fuel : nat) (dependency : JsValue)
    (options : option InvalidationOptions) : M Run (option Z) :=
  match fuel with
  | O => ret None
  | S fuel' =>
      r <- get_state ;;
      if existsb (js_eqb dependency) (visited r)
      then console_warn (circular dependency) ;;; ret (Some 0%Z)
      else
        visited_add dependency ;;;
        results <- on_stores
                     (map_stores (DependencyInvalidator.per_store dependency)
                        (length (stores r)) 0) ;;
        if wants_async options then ret (Some 0%Z)
        else
          let totalInvalidated := sum results in
          if wants_cascade options then
            cascaded <- cascadeInvalidation (invalidateByDependencyInternal fuel')
                          dependency options ;;
            ret (option_map (Z.add totalInvalidated) cascaded)
          else ret (Some totalInvalidated)
  end.

(** The public method: a fresh [visited] set for each top-level call.  The
    result comes with the warnings that the call logged. *)
Definition invalidateByDependency (fuel : nat) (dependency : JsValue)
    (options : option InvalidationOptions) : M (list St) (option Z * list string) :=
  fun t created =>
    match invalidateByDependencyInternal fuel dependency options t (mkRun [] [] created) with
    | (Ok count, t', r) => (Ok (count, warnings r), t', stores r)
    | (Throw e, t', r) => (Throw e, t', stores r)
    end.

End WithStores.
End VisitedDependencyInvalidator.

(** A cyclic dependency graph in the cache contents: a MemoryStore (max 100,
    ttl 300 s) whose only entry, written at clock 1000 under the key [k], has
    the value [{ dependencies: ['A', 'B'] }]; [A] and [B] are each the child
    of the other. *)
Module Cyclic.

Definition value : JsValue := VObj [("dependencies", VArr [VStr "A"; VStr "B"])].

Definition store : MemoryStore.MemoryStore :=
  snd (MemoryStore.set (VStr "k") value None 1000%Z
         (MemoryStore.constructor (MemoryStore.mkStoreConfig (Some 100) (Some 300%N) None))).

(** The same store once the entry has been read at clock 2000. *)
Definition store_read : MemoryStore.MemoryStore :=
  snd (MemoryStore.get (VStr "k") 2000%Z store).

Definition cascading : option InvalidationOptions :=
  Some (mkInvalidation (Some true) None).

End Cyclic.

(** Stores and a manager on which the properties are exercised: the
    configuration of the test suite (max 100, ttl 300 s), an empty store, a
    store that holds [user:1] with the tags [user] and [active], and a chain
    of the two. *)
Module Example.

Definition config : MemoryStore.StoreConfig :=
  MemoryStore.mkStoreConfig (Some 100) (Some 300%N) None.

Definition empty_store : MemoryStore.MemoryStore := MemoryStore.constructor config.

Definition tagged : option MemoryStore.CacheOptions :=
  Some (MemoryStore.mkOptions None (Some ["user"; "active"]) None None None).

Definition user_store : MemoryStore.MemoryStore :=
  snd (MemoryStore.set (VStr "user:1") (VStr "user1") tagged 1000%Z empty_store).

End Example.

(** ** MetricsCollector (src/metrics/MetricsCollector.ts) *)

Module MetricsCollector.

Record t : Type := mkMetrics {
  hits : Z;
  misses : Z;
  operations : Z;
  errors : Z;
  totalResponseTime : Z;
  startTime : Z;
}.

Definition create (now : Z) : t := mkMetrics 0 0 0 0 0 now.

Definition recordHit (m : t) : t :=
  mkMetrics (hits m + 1) (misses m) (operations m) (errors m) (totalResponseTime m) (startTime m).
Definition recordMiss (m : t) : t :=
  mkMetrics (hits m) (misses m + 1) (operations m) (errors m) (totalResponseTime m) (startTime m).
Definition recordOperation (duration : Z) (m : t) : t :=
  mkMetrics (hits m) (misses m) (operations m + 1) (errors m)
    (totalResponseTime m + duration) (startTime m).
Definition recordError (m : t) : t :=
  mkMetrics (hits m) (misses m) (operations m) (errors m + 1) (totalResponseTime m) (startTime m).

End MetricsCollector.

(** ** CacheManager (src/CacheManager.ts)

    The manager hands its [stores] array to the strategy and to the
    invalidators; they all hold the same array object, which the constructor
    of LayeredStrategy sorts in place.  The embedding keeps that one array in
    the state of the manager. *)

Module CacheManager.
Section WithStores.
Context {St : Type} `{IStore St}.

Record t : Type := mkManager {
  stores : list St;
  metricsCollector : MetricsCollector.t;
}.

Definition set_stores (l : list St) (m : t) : t := mkManager l (metricsCollector m).
Definition set_metrics (c : MetricsCollector.t) (m : t) : t := mkManager (stores m) c.

Definition on_stores {A} (m : M (list St) A) : M t A := focus stores set_stores m.
Definition on_metrics (f : MetricsCollector.t -> MetricsCollector.t) : M t unit :=
  modify (fun m => set_metrics (f (metricsCollector m)) m).

(** The constructor, given the stores that [initializeStores] created from the
    configuration, in configuration order. *)
Definition constructor (now : Z) (created : list St) : Result t :=
  match created with
  | [] => Throw (Error "At least one store must be configured")
  | _ => Ok (mkManager (LayeredStrategy.constructor created) (MetricsCollector.create now))
  end.

Definition withMetrics {A} (operation : M t A) : M t A :=
  startTime <- Date_now ;;
  try_catch
    (result <- operation ;;
     finished <- Date_now ;;
     on_metrics (MetricsCollector.recordOperation (finished - startTime)) ;;;
     ret result)
    (fun error =>
       finished <- Date_now ;;
       on_metrics (MetricsCollector.recordOperation (finished - startTime)) ;;;
       on_metrics MetricsCollector.recordError ;;;
       throw error).

Definition get (key : JsValue) : M t JsValue :=
  withMetrics
    (result <- on_stores (LayeredStrategy.get key) ;;
     match result with
     | VNull => on_metrics MetricsCollector.recordMiss ;;; ret VNull
     | _ => on_metrics MetricsCollector.recordHit ;;; ret result
     end).

Definition set (key value : JsValue) (options : option MemoryStore.CacheOptions) : M t unit :=
  withMetrics (on_stores (LayeredStrategy.set key value options)).

Definition del (key : JsValue) : M t bool :=
  withMetrics (on_stores (LayeredStrategy.del key)).

Definition mset (keyValuePairs : list (JsValue * JsValue))
    (options : option MemoryStore.CacheOptions) : M t unit :=
  withMetrics (on_stores (LayeredStrategy.mset keyValuePairs options)).

(** The loop of [exists] with [n] stores left, starting at index [i]. *)
Fixpoint exists_from (n i : nat) (key : JsValue) : M (list St) bool :=
  match n with
  | O => ret false
  | S n' =>
      found <- try_catch (on_store i (store_exists key)) (fun _ => ret false) ;;
      if found : bool then ret true else exists_from n' (S i) key
  end.

Definition exists_ (key : JsValue) : M t bool :=
  withMetrics
    (on_stores (stores <- get_state ;; exists_from (length stores) 0 key)).

Definition invalidateByPattern (pattern : string) (options : option InvalidationOptions)
  : M t Z :=
  withMetrics (on_stores (PatternInvalidator.invalidateByPattern pattern options)).

End WithStores.
End CacheManager.

(** A manager over one MemoryStore, as the test suite configures it. *)
Definition example_manager : @CacheManager.t MemoryStore.MemoryStore :=
  CacheManager.mkManager (LayeredStrategy.constructor [Example.user_store])
    (MetricsCollector.create 1000%Z).

(** The keys that [validateKey] accepts. *)
Definition is_valid_key (key : JsValue) : bool :=
  match key with
  | VStr k => negb (String.eqb k "")
  | _ => false
  end.

(** ** Describing a fan-out

    What it means for a call to go to every store of the chain: each store
    receives the call once, in store order, at the clock reading left by the
    calls before it. *)

Module FanOut.
Section WithStores.
Context {St A : Type}.

Fixpoint each_store (call : M St A) (t : Z) (stores : list St)
  : list (Result A) * Z * list St :=
  match stores with
  | [] => ([], t, [])
  | s :: rest =>
      let '(r, t1, s') := call t s in
      let '(rs, t2, rest') := each_store call t1 rest in
      (r :: rs, t2, s' :: rest')
  end.

Definition failed (r : Result A) : bool :=
  match r with Throw _ => true | Ok _ => false end.

(** A call that fails on every store, whenever it is made. *)
Definition always_throws (call : M St A) : Prop :=
  forall t s, exists e t' s', call t s = (Throw e, t', s').

Fixpoint thrown (rs : list (Result A)) : list CacheError :=
  match rs with
  | [] => []
  | Throw e :: rest => e :: thrown rest
  | Ok _ :: rest => thrown rest
  end.

End WithStores.

(** Polling the stores for a key: in list order, stopping at the first store
    that answers [true]; a store that answers [false] or throws is passed
    over.  [polls key t stores b t' stores'] relates the clock and the stores
    before and after to the answer [b]. *)
Inductive polls {St : Type} `{IStore St} (key : JsValue)
  : Z -> list St -> bool -> Z -> list St -> Prop :=
| polls_end t : polls key t [] false t []
| polls_found t s rest t' s' :
    store_exists key t s = (Ok true, t', s') ->
    polls key t (s :: rest) true t' (s' :: rest)
| polls_next t s rest r t1 s' b t2 rest' :
    store_exists key t s = (r, t1, s') ->
    r <> Ok true ->
    polls key t1 rest b t2 rest' ->
    polls key t (s :: rest) b t2 (s' :: rest').

End FanOut.

(** ** The index invariant of MemoryStore *)

Module Invariant.
Import MemoryStore.

(** The entry that the cache of the store holds under a key, if any: a live
    entry, or an expired one that the cache has not disposed of yet. *)
Definition held (f : Fields) (k : string) : option CacheEntry :=
  LRUCache.lookup k (cache f).

(** An index is sound for the entries [holds] when no bucket is empty and
    every key listed under a label is held with an entry that carries the
    label. *)
Definition sound (labels : CacheEntry -> option (list string))
    (index : gmap string (list string)) (holds : string -> option CacheEntry) : Prop :=
  forall label keys,
    index !! label = Some keys ->
    keys <> []
    /\ forall k, In k keys ->
         exists entry ls, holds k = Some entry /\ labels entry = Some ls /\ In label ls.

Definition invariant (f : Fields) : Prop :=
  sound tags (tagIndex f) (held f) /\ sound dependencies (dependencyIndex f) (held f).

(** What the invariant says of the listed keys: every listed key is held by
    the cache (live, or expired and not disposed of yet), and there is no
    empty bucket. *)
Definition listed_keys_exist (index : gmap string (list string)) (f : Fields) : Prop :=
  forall label keys,
    index !! label = Some keys ->
    keys <> [] /\ forall k, In k keys -> is_Some (held f k).

(** The fields [f'] hold and list what the fields [f] do. *)
Definition same_holdings (f f' : Fields) : Prop :=
  tagIndex f' = tagIndex f
  /\ dependencyIndex f' = dependencyIndex f
  /\ forall k, held f' k = held f k.

(** The operations of a MemoryStore; eviction happens inside [Set], expiry
    inside [Get], at the clock reading of the call. *)
Inductive Operation : Type :=
| CallGet (key : JsValue)
| CallSet (key value : JsValue) (options : option CacheOptions)
| CallDel (key : JsValue)
| CallMget (keys : list JsValue)
| CallMset (keyValuePairs : list (JsValue * JsValue)) (options : option CacheOptions)
| CallClear
| CallExists (key : JsValue)
| CallKeys (pattern : option string)
| CallClose
| CallInvalidateByTag (tag : string)
| CallInvalidateByPattern (pattern : string)
| CallInvalidateByDependency (dependency : string).

Definition step (op : Operation) (t : Z) (s : MemoryStore) : MemoryStore :=
  match op with
  | CallGet key => snd (get key t s)
  | CallSet key value options => snd (set key value options t s)
  | CallDel key => snd (del key t s)
  | CallMget keys => snd (mget keys t s)
  | CallMset pairs options => snd (mset pairs options t s)
  | CallClear => snd (clear t s)
  | CallExists key => snd (exists_ key t s)
  | CallKeys pattern => snd (keys pattern t s)
  | CallClose => snd (close t s)
  | CallInvalidateByTag tag => snd (invalidateByTag tag t s)
  | CallInvalidateByPattern pattern => snd (invalidateByPattern pattern t s)
  | CallInvalidateByDependency dependency => snd (invalidateByDependency dependency t s)
  end.

Inductive reachable : MemoryStore -> Prop :=
| reachable_new config : reachable (constructor config)
| reachable_step s op t : reachable s -> reachable (step op t s).

(** The cache was created with the default ttl [d]. *)
Definition default_ttl_is (d : Z) (f : Fields) : Prop :=
  LRUCache.default_ttl (cache f) = d.

(** A computation on the store keeps a property of the fields. *)
Definition keeps {A} (P : Fields -> Prop) (m : M MemoryStore A) : Prop :=
  forall t s, P (BaseStore.self s) -> P (BaseStore.self (snd (m t s))).

End Invariant.

(** The regular-expression term that stands for one pattern character, and
    the keys on which the wildcard of the engine and the wildcard of the
    specification can differ. *)
Module GlobTerms.

Definition term_of (c : ascii) : RegExp.Term :=
  if Ascii.eqb c "*" then RegExp.Star RegExp.AnyChar
  else if Ascii.eqb c "?" then RegExp.One RegExp.AnyChar
  else RegExp.One (RegExp.Lit c).

Fixpoint terms_of (pattern : string) : list RegExp.Term :=
  match pattern with
  | EmptyString => []
  | String c rest => term_of c :: terms_of rest
  end.

(** The text that [regexPattern] emits for one pattern character. *)
Definition source_of (c : ascii) : string :=
  if Ascii.eqb c "*" then ".*"
  else if Ascii.eqb c "?" then "."
  else if Pattern.is_escaped_char c then String "\" (String c EmptyString)
  else String c EmptyString.

Fixpoint has_line_terminator (key : string) : bool :=
  match key with
  | EmptyString => false
  | String c rest => RegExp.is_line_terminator c || has_line_terminator rest
  end.

End GlobTerms.

(** The breaker record after a wrapped operation succeeded, and after it
    failed at clock reading [now] under configuration [cfg]. *)
Module BreakerSteps.
Import BaseStore.

Definition reset (cb : CircuitBreakerState) : CircuitBreakerState :=
  set_failures 0 (set_isOpen false cb).

Definition after_success (cb : CircuitBreakerState) : CircuitBreakerState :=
  set_failures 0 cb.

Definition after_failure (cfg : CircuitBreakerConfig) (now : Z) (cb : CircuitBreakerState)
  : CircuitBreakerState :=
  let counted := set_lastFailTime now (set_failures (failures cb + 1) cb) in
  if (errorThreshold cfg <=? failures counted)%Z
  then set_nextAttemptTime (now + timeout cfg) (set_isOpen true counted)
  else counted.

(** A store on which a wrapped call starts its operation at once: there is no
    breaker, or the breaker is closed. *)
Definition ready {X} (s : Store X) : Prop :=
  match circuitBreaker s, circuitBreakerConfig s with
  | Some cb, Some _ => isOpen cb = false
  | _, _ => True
  end.

(** A computation that leaves the clock and the breaker fields alone. *)
Definition frames {X A} (m : M (Store X) A) : Prop :=
  forall t s,
    let '(_, t', s') := m t s in
    t' = t /\ circuitBreaker s' = circuitBreaker s
    /\ circuitBreakerConfig s' = circuitBreakerConfig s.

(** The outcome (returned value or thrown error) of a run. *)
Definition outcome {S A} (run : Result A * Z * S) : Result A := fst (fst run).
Definition final {S A} (run : Result A * Z * S) : S := snd run.

End BreakerSteps.

(** ** What a MemoryStore holds and for how long *)

Module Holding.
Import BaseStore MemoryStore.

(** The entry that [set] builds at the clock reading [now]. *)
Definition entry_of (value : JsValue) (options : option CacheOptions) (now : Z) : CacheEntry :=
  mkEntry value (options ≫= opt_ttl) now now
    (options ≫= opt_tags) (options ≫= opt_dependencies)
    (options ≫= opt_compress) (options ≫= opt_serialize).

(** The lifetime in milliseconds that [set] asks of the cache for an entry:
    the ttl of the options, or else the default of the cache; 0 for none. *)
Definition lifetime (options : option CacheOptions) (s : MemoryStore) : Z :=
  default (LRUCache.default_ttl (cache (self s))) (to_millis (options ≫= opt_ttl)).

(** The labels (tags, or dependencies) of an entry include [label]. *)
Definition carries (labels : CacheEntry -> option (list string)) (label : string)
    (e : option CacheEntry) : bool :=
  match e ≫= labels with
  | Some ls => existsb (String.eqb label) ls
  | None => false
  end.

End Holding.

(** The bodies of [set], [cache.delete] and [get] as functions on the fields
    of the store; the properties below relate them to the methods. *)
Module Effects.
Import BaseStore MemoryStore Holding.

Definition written (k : string) (v : JsValue) (options : option CacheOptions) (now : Z)
    (f : Fields) : Fields :=
  let entry := entry_of v options now in
  let '(disposed, c) :=
    LRUCache.set now k entry (to_millis (options ≫= opt_ttl)) (cache f) in
  updateIndexes k entry (dispose disposed (set_cache c f)).

Definition removed (k : string) (f : Fields) : bool * Fields :=
  let '(deleted, disposed, c) := LRUCache.delete k (cache f) in
  (deleted, dispose disposed (set_cache c f)).

Definition read (now : Z) (k : string) (f : Fields) : JsValue * Fields :=
  let '(found, disposed, c) := LRUCache.get now k (cache f) in
  let f1 := dispose disposed (set_cache c f) in
  match found with
  | None => (VNull, f1)
  | Some entry =>
      if isExpired now (createdAt entry) (ttl entry)
      then (VNull, (removed k f1).2)
      else (value entry,
            set_cache (LRUCache.poke k (set_lastAccessed now) (cache f1)) f1)
  end.



End Effects.

(** ** The indexes of MemoryStore list exactly the labelled keys *)

Module Exactness.
Import MemoryStore Invariant.

(** Every held entry is listed under each of its labels. *)
Definition complete (labels : CacheEntry -> option (list string))
    (index : gmap string (list string)) (holds : string -> option CacheEntry) : Prop :=
  forall k entry ls label,
    holds k = Some entry -> labels entry = Some ls -> In label ls ->
    exists keys, index !! label = Some keys /\ In k keys.

(** No bucket lists a key twice (the buckets are sets). *)
Definition duplicate_free (index : gmap string (list string)) : Prop :=
  forall label keys, index !! label = Some keys -> List.NoDup keys.

Definition all_listed (f : Fields) : Prop :=
  complete tags (tagIndex f) (held f)
  /\ complete dependencies (dependencyIndex f) (held f).

Definition no_duplicates (f : Fields) : Prop :=
  duplicate_free (tagIndex f) /\ duplicate_free (dependencyIndex f).

Definition exact (f : Fields) : Prop :=
  invariant f /\ all_listed f /\ no_duplicates f.

End Exactness.

(** ** Calls in a row through the circuit breaker *)

Module Calls.
Import BaseStore BreakerSteps.

(** The store after one wrapped call at each of the clock readings [clocks],
    whatever the calls return or throw. *)
Fixpoint after_calls {X T} (operation : M (Store X) T) (clocks : list Z) (s : Store X)
  : Store X :=
  match clocks with
  | [] => s
  | t :: rest => after_calls operation rest (final (executeWithCircuitBreaker operation t s))
  end.

(** An operation that fails whenever it runs and leaves the clock and the
    breaker fields alone. *)
Definition failing {X T} (operation : M (Store X) T) : Prop :=
  frames operation /\ forall t s, FanOut.failed (outcome (operation t s)) = true.

End Calls.

(** ** LayeredStrategy.mget (src/strategies/LayeredStrategy.ts)

    [results] starts as one null per key; [missingKeys] is an object keyed by
    the positions still missing, which [Object.values] and [Object.entries]
    enumerate in ascending order.  A store is asked for the keys still
    missing; a slot of its answer that is not null (an absent slot is
    [undefined]) fills the result, removes the position from [missingKeys]
    and is promoted to the stores above. *)

Module LayeredBulk.
Section WithStores.
Context {St : Type} `{IStore St}.

(** The loop over [Object.entries(missingKeys)] for one store's answer. *)
Fixpoint absorb (storeIndex : nat) (entries : list (nat * JsValue))
    (storeResults : list JsValue) (fetchIndex : nat)
    (results : list JsValue) (missingKeys : list (nat * JsValue))
  : M (list St) (list JsValue * list (nat * JsValue)) :=
  match entries with
  | [] => ret (results, missingKeys)
  | (index, key) :: rest =>
      let value := nth fetchIndex storeResults VUndefined in
      match value with
      | VNull => absorb storeIndex rest storeResults (S fetchIndex) results missingKeys
      | _ =>
          let results' := <[index := value]> results in
          let missingKeys' :=
            List.filter (fun '(i, _) => negb (Nat.eqb i index)) missingKeys in
          LayeredStrategy.promoteValue key value storeIndex ;;;
          absorb storeIndex rest storeResults (S fetchIndex) results' missingKeys'
      end
  end.

(** The loop over the stores, with [n] stores left, starting at index [i]. *)
Fixpoint mget_from (n i : nat) (results : list JsValue) (missingKeys : list (nat * JsValue))
  : M (list St) (list JsValue) :=
  match n with
  | O => ret results
  | S n' =>
      let keysToFetch := List.map snd missingKeys in
      match keysToFetch with
      | [] => ret results
      | _ =>
          next <- try_catch
                    (storeResults <- on_store i (store_mget keysToFetch) ;;
                     absorb i missingKeys storeResults 0 results missingKeys)
                    (fun _ => ret (results, missingKeys)) ;;
          mget_from n' (S i) next.1 next.2
      end
  end.

Definition mget (keys : list JsValue) : M (list St) (list JsValue) :=
  stores <- get_state ;;
  mget_from (length stores) 0
    (List.repeat VNull (length keys))
    (List.combine (seq 0 (length keys)) keys).

End WithStores.
End LayeredBulk.

(** Outcomes of the calls of a fan-out. *)
Module Answers.

(** A store has no value for the key: it answered null, or it threw. *)
Definition missed (r : Result JsValue) : bool :=
  match r with
  | Ok VNull | Throw _ => true
  | Ok _ => false
  end.

(** A store reported that it deleted the key. *)
Definition deleted (r : Result bool) : bool :=
  match r with
  | Ok true => true
  | _ => false
  end.

(** The count that a store contributes to an invalidation: 0 when it threw. *)
Definition counted (r : Result Z) : Z :=
  match r with
  | Ok n => n
  | Throw _ => 0%Z
  end.

End Answers.

(** ** TagInvalidator (src/invalidation/TagInvalidator.ts) *)

Module TagInvalidator.
Section WithStores.
Context {St : Type} `{IStore St}.

(** The per-store closure of [invalidateByTag]. *)
Definition per_store (tag : string) (i : nat) : M (list St) Z :=
  try_catch
    (stores <- get_state ;;
     match stores !! i ≫= store_invalidateByTag with
     | Some native => on_store i (native tag)
     | None => ret 0%Z
     end)
    (fun _ => ret 0%Z).

Definition invalidateByTag (tag : string) (options : option InvalidationOptions)
  : M (list St) Z :=
  stores <- get_state ;;
  results <- map_stores (per_store tag) (length stores) 0 ;;
  if wants_async options then ret 0%Z else ret (sum results).

(** [tags.map(tag => this.invalidateByTag(tag, options))], joined. *)
Fixpoint each_tag (tags : list string) (options : option InvalidationOptions)
  : M (list St) (list Z) :=
  match tags with
  | [] => ret []
  | tag :: rest =>
      count <- invalidateByTag tag options ;;
      counts <- each_tag rest options ;;
      ret (count :: counts)
  end.

Definition invalidateMultipleTags (tags : list string) (options : option InvalidationOptions)
  : M (list St) Z :=
  results <- each_tag tags options ;;
  if wants_async options then ret 0%Z else ret (sum results).

End WithStores.
End TagInvalidator.

(** What one store is asked to do by an invalidator. *)
Module PerStore.
Section WithStores.
Context {St : Type} `{IStore St}.

(** The native method of the store when it has one, and else [otherwise]. *)
Definition native_or (native : St -> option (M St Z)) (otherwise : M St Z) : M St Z :=
  fun t s =>
    match native s with
    | Some method => method t s
    | None => otherwise t s
    end.

Definition by_tag (tag : string) : M St Z :=
  native_or (fun s => (fun method => method tag) <$> store_invalidateByTag s) (ret 0%Z).

Definition by_dependency (dependency : JsValue) : M St Z :=
  native_or (fun s => (fun method => method dependency) <$> store_invalidateByDependency s)
    (ret 0%Z).

(** The fallback of PatternInvalidator on one store: list the matching keys,
    delete them one by one, count the deletions. *)
Fixpoint del_keys (keys : list string) (count : Z) : M St Z :=
  match keys with
  | [] => ret count
  | key :: rest =>
      deleted <- store_del (VStr key) ;;
      del_keys rest (if deleted : bool then (count + 1)%Z else count)
  end.

Definition by_pattern (pattern : string) : M St Z :=
  native_or (fun s => (fun method => method pattern) <$> store_invalidateByPattern s)
    (keys <- store_keys (Some pattern) ;; del_keys keys 0%Z).

End WithStores.
End PerStore.

(** ** CacheManager: the bulk methods (src/CacheManager.ts) *)

Module ManagerBulk.
Section WithStores.
Context {St : Type} `{IStore St}.

(** [for (let i = 0; i < n; i++) this.metricsCollector.recordHit()] *)
Definition record_each (n : nat) (record : MetricsCollector.t -> MetricsCollector.t)
  : M (@CacheManager.t St) unit :=
  for_of (seq 0 n) (fun _ => CacheManager.on_metrics record).

Definition is_null (v : JsValue) : bool :=
  match v with VNull => true | _ => false end.

Definition mget (keys : list JsValue) : M (@CacheManager.t St) (list JsValue) :=
  CacheManager.withMetrics
    (results <- CacheManager.on_stores (LayeredBulk.mget keys) ;;
     let hits := length (List.filter (fun r => negb (is_null r)) results) in
     let misses := length (List.filter is_null results) in
     record_each hits MetricsCollector.recordHit ;;;
     record_each misses MetricsCollector.recordMiss ;;;
     ret results).

Definition clear : M (@CacheManager.t St) unit :=
  CacheManager.withMetrics (CacheManager.on_stores LayeredStrategy.clear).

(** The loop of [keys] with [n] stores left, starting at index [i]; [allKeys]
    is the Set in insertion order. *)
Fixpoint keys_from (n i : nat) (pattern : option string) (allKeys : list string)
  : M (list St) (list string) :=
  match n with
  | O => ret allKeys
  | S n' =>
      allKeys' <- try_catch
                    (keys <- on_store i (store_keys pattern) ;;
                     ret (fold_left (fun all key => MemoryStore.set_add key all) keys allKeys))
                    (fun _ => ret allKeys) ;;
      keys_from n' (S i) pattern allKeys'
  end.

Definition keys (pattern : option string) : M (@CacheManager.t St) (list string) :=
  CacheManager.withMetrics
    (CacheManager.on_stores
       (stores <- get_state ;; keys_from (length stores) 0 pattern [])).

Definition invalidateByTag (tag : string) (options : option InvalidationOptions)
  : M (@CacheManager.t St) Z :=
  CacheManager.withMetrics
    (CacheManager.on_stores (TagInvalidator.invalidateByTag tag options)).

End WithStores.
End ManagerBulk.

(** Reads in a row of one key of a MemoryStore, one at each of the clock
    readings [clocks]. *)
Module Reads.
Import BaseStore BreakerSteps.

Fixpoint after_gets (key : JsValue) (clocks : list Z) (s : MemoryStore.MemoryStore)
  : MemoryStore.MemoryStore :=
  match clocks with
  | [] => s
  | t :: rest => after_gets key rest (final (MemoryStore.get key t s))
  end.

End Reads.

(** ** PatternInvalidator.patternToRegex (src/invalidation/PatternInvalidator.ts)

    The invalidator has its own translation of a glob pattern: it escapes
    every special character, the wildcards included, and then turns the
    escaped wildcards into their expressions. *)

Module InvalidatorPattern.

(** The class [[.*+?^${}()|[\]\\]]. *)
Definition is_special (c : ascii) : bool :=
  existsb (Ascii.eqb c)
    ["."; "*"; "+"; "?"; "^"; "$"; "{"; "}"; "("; ")"; "|"; "["; "]"; "\"]%char.

Definition escaped (pattern : string) : string :=
  Pattern.replace_each
    (fun c => if is_special c then String "\" (Pattern.keep c) else Pattern.keep c) pattern.

(** [s.replace(/\\c/g, replacement)]: every occurrence of a backslash followed
    by the character [c], from left to right, is replaced. *)
Fixpoint replace_escaped (c : ascii) (replacement : string) (s : string) : string :=
  match s with
  | EmptyString => EmptyString
  | String a rest =>
      match rest with
      | String b rest' =>
          if Ascii.eqb a "\" && Ascii.eqb b c
          then replacement ++ replace_escaped c replacement rest'
          else String a (replace_escaped c replacement rest)
      | EmptyString => String a EmptyString
      end
  end.

Definition regexPattern (pattern : string) : string :=
  replace_escaped "?" "." (replace_escaped "*" ".*" (escaped pattern)).

Definition patternToRegex (pattern : string) : string :=
  "^" ++ regexPattern pattern ++ "$".

End InvalidatorPattern.

(** A list of children as [findChildDependencies] builds it: no element
    equals, by [js_eqb], one that comes before it. *)
Module Children.

Fixpoint listed_once (children : list JsValue) : bool :=
  match children with
  | [] => true
  | x :: rest => forallb (fun later => negb (js_eqb later x)) rest && listed_once rest
  end.

(** A dependency of the declared type: a string. *)
Definition is_string (dep : JsValue) : bool :=
  match dep with
  | VStr _ => true
  | _ => false
  end.

End Children.

(** ** What a cascade can reach

    The dependencies that a cached value names (the array that
    [findChildDependencies] reads from the value), the dependencies named by
    the values of a chain of MemoryStores, and how many of a list of
    dependencies a [visited] set does not hold yet. *)
Module Reach.

Definition dependencies_of (value : JsValue) : list JsValue :=
  if js_truthy value && js_is_object value && js_truthy (js_property "dependencies" value)
  then match js_property "dependencies" value with
       | VArr items => items
       | other => [other]
       end
  else [].

Definition named_by (s : MemoryStore.MemoryStore) : list JsValue :=
  List.concat
    (List.map (fun it => dependencies_of (MemoryStore.value (LRUCache.value it)))
       (LRUCache.items (MemoryStore.cache (BaseStore.self s)))).

Definition universe (stores : list MemoryStore.MemoryStore) : list JsValue :=
  List.concat (List.map named_by stores).

Definition unvisited (all visited : list JsValue) : nat :=
  length (List.filter (fun u => negb (existsb (js_eqb u) visited)) all).

(** Every dependency named by a value that the store holds is in [all]. *)
Definition names_within (all : list JsValue) (f : MemoryStore.Fields) : Prop :=
  forall k e, Invariant.held f k = Some e ->
              incl (dependencies_of (MemoryStore.value e)) all.

End Reach.
(** ** The bulk operations of a MemoryStore, call by call

    [mget] and [mset] loop over [get] and [set]; the store after the calls
    that the loop has made, all at one clock reading, the pairs that [set]
    accepts, and stores whose breakers are of the same kind (both absent,
    or both present with the same configuration). *)
Module Bulk.
Import BaseStore BreakerSteps.

Fixpoint after_reading (keys : list JsValue) (t : Z) (s : MemoryStore.MemoryStore)
  : MemoryStore.MemoryStore :=
  match keys with
  | [] => s
  | key :: rest => after_reading rest t (final (MemoryStore.get key t s))
  end.

Fixpoint after_writing (pairs : list (JsValue * JsValue))
    (options : option MemoryStore.CacheOptions) (t : Z) (s : MemoryStore.MemoryStore)
  : MemoryStore.MemoryStore :=
  match pairs with
  | [] => s
  | (key, value) :: rest =>
      after_writing rest options t (final (MemoryStore.set key value options t s))
  end.

Definition is_defined (value : JsValue) : bool :=
  match value with
  | VUndefined => false
  | _ => true
  end.

Definition is_valid_pair (pair : JsValue * JsValue) : bool :=
  is_valid_key (fst pair) && is_defined (snd pair).

Definition same_breaker {X} (s s' : Store X) : Prop :=
  circuitBreakerConfig s' = circuitBreakerConfig s
  /\ (circuitBreaker s' = None <-> circuitBreaker s = None).

End Bulk.


(** Stores on which the further properties are exercised: [user:1] tagged
    [user] and [active], [post:1] tagged [post] and depending on [user:1]. *)
Module Sample.

Definition depending : option MemoryStore.CacheOptions :=
  Some (MemoryStore.mkOptions None (Some ["post"]) (Some ["user:1"]) None None).

Definition blog : MemoryStore.MemoryStore :=
  snd (MemoryStore.set (VStr "post:1") (VStr "post1") depending 1500%Z Example.user_store).

End Sample.

(** * Properties *)

(** ** The circuit breaker *)

Import BaseStore BreakerSteps.

Ltac run_breaker :=
  unfold executeWithCircuitBreaker, update_breaker, the_breaker, the_config,
    try_catch, bind, get_state, modify, Date_now, ret, throw;
  cbn.

Ltac with_facts tac := repeat (progress (tac; cbn)).

Section CircuitBreaker.
Context {X T : Type}.
Implicit Types (operation : M (Store X) T) (s : Store X) (now : Z).

Lemma execute_no_breaker operation now s :
  circuitBreaker s = None \/ circuitBreakerConfig s = None ->
  executeWithCircuitBreaker operation now s = operation now s.
Proof.
  intros H. run_breaker.
  destruct H as [H | H]; rewrite H; [reflexivity |].
  destruct (circuitBreaker s); reflexivity.
Qed.

Lemma execute_open_blocked operation now s cb cfg t :
  circuitBreaker s = Some cb -> circuitBreakerConfig s = Some cfg ->
  isOpen cb = true -> nextAttemptTime cb = Some t -> (0 <= now < t)%Z ->
  executeWithCircuitBreaker operation now s
  = (Throw (CircuitBreakerError "Circuit breaker is open"), now, s).
Proof.
  intros Hcb Hcfg Hopen Hnext Hnow.
  assert (Hstill : still_open (nextAttemptTime cb) now = true).
  { unfold still_open. rewrite Hnext.
    replace (t =? 0)%Z with false by (symmetry; apply Z.eqb_neq; lia).
    replace (now <? t)%Z with true by (symmetry; apply Z.ltb_lt; lia).
    reflexivity. }
  run_breaker. with_facts ltac:(rewrite ?Hcb, ?Hcfg, ?Hopen, ?Hstill). reflexivity.
Qed.

Lemma execute_open_elapsed operation now s cb cfg :
  circuitBreaker s = Some cb -> circuitBreakerConfig s = Some cfg ->
  isOpen cb = true -> still_open (nextAttemptTime cb) now = false ->
  executeWithCircuitBreaker operation now s
  = executeWithCircuitBreaker operation now (set_breaker (Some (reset cb)) s).
Proof.
  intros Hcb Hcfg Hopen Hnext.
  run_breaker. with_facts ltac:(rewrite ?Hcb, ?Hcfg, ?Hopen, ?Hnext). reflexivity.
Qed.

Lemma execute_closed_success operation now s cb cfg r now' s' cb' :
  circuitBreaker s = Some cb -> circuitBreakerConfig s = Some cfg ->
  isOpen cb = false ->
  operation now s = (Ok r, now', s') -> circuitBreaker s' = Some cb' ->
  executeWithCircuitBreaker operation now s
  = (Ok r, now', set_breaker (Some (after_success cb')) s').
Proof.
  intros Hcb Hcfg Hopen Hop Hcb'.
  run_breaker. with_facts ltac:(rewrite ?Hcb, ?Hcfg, ?Hopen, ?Hop, ?Hcb'). reflexivity.
Qed.

Lemma execute_closed_failure operation now s cb cfg e now' s' cb' cfg' :
  circuitBreaker s = Some cb -> circuitBreakerConfig s = Some cfg ->
  isOpen cb = false ->
  operation now s = (Throw e, now', s') ->
  circuitBreaker s' = Some cb' -> circuitBreakerConfig s' = Some cfg' ->
  executeWithCircuitBreaker operation now s
  = (Throw e, now', set_breaker (Some (after_failure cfg' now' cb')) s').
Proof.
  intros Hcb Hcfg Hopen Hop Hcb' Hcfg'.
  run_breaker. with_facts ltac:(rewrite ?Hcb, ?Hcfg, ?Hopen, ?Hop, ?Hcb', ?Hcfg').
  unfold after_failure. cbn.
  destruct (errorThreshold cfg' <=? failures cb' + 1)%Z; cbn; rewrite ?Hcfg'; reflexivity.
Qed.

(** A wrapped call that returns has run its operation, from a state with the
    same subclass fields, and leaves the breaker closed when the operation
    itself left the breaker alone. *)
Lemma execute_ok_inv operation now s r now1 s1 :
  executeWithCircuitBreaker operation now s = (Ok r, now1, s1) ->
  exists s0 s',
    self s0 = self s
    /\ operation now s0 = (Ok r, now1, s')
    /\ self s1 = self s'
    /\ (circuitBreaker s' = circuitBreaker s0 ->
        circuitBreakerConfig s' = circuitBreakerConfig s0 -> ready s1).
Proof.
  intros Hrun.
  destruct (circuitBreaker s) as [cb |] eqn:Hcb;
    [destruct (circuitBreakerConfig s) as [cfg |] eqn:Hcfg |].
  - assert (Hstart : exists s0 cb0,
               self s0 = self s /\ circuitBreaker s0 = Some cb0 /\ isOpen cb0 = false
               /\ circuitBreakerConfig s0 = Some cfg
               /\ executeWithCircuitBreaker operation now s0 = (Ok r, now1, s1)).
    { destruct (isOpen cb) eqn:Hopen.
      - destruct (still_open (nextAttemptTime cb) now) eqn:Hstill.
        + exfalso. revert Hrun. run_breaker.
          with_facts ltac:(rewrite ?Hcb, ?Hcfg, ?Hopen, ?Hstill). discriminate.
        + erewrite execute_open_elapsed in Hrun by eassumption.
          exists (set_breaker (Some (reset cb)) s), (reset cb).
          split; [reflexivity |]. split; [reflexivity |]. split; [reflexivity |].
          split; [exact Hcfg | exact Hrun].
      - exists s, cb. auto. }
    destruct Hstart as (s0 & cb0 & Hself & Hcb0 & Hopen0 & Hcfg0 & Hrun0).
    destruct (operation now s0) as [[[r' | e] t'] s'] eqn:Hop.
    + destruct (circuitBreaker s') as [cb' |] eqn:Hcb'.
      * erewrite execute_closed_success in Hrun0 by eassumption.
        inversion Hrun0; subst. exists s0, s'.
        split; [exact Hself |]. split; [exact Hop |]. split; [reflexivity |].
        intros Hsame Hsamecfg. unfold ready. cbn. rewrite Hsamecfg, Hcfg0.
        rewrite Hcb', Hcb0 in Hsame. injection Hsame as ->. exact Hopen0.
      * exfalso. revert Hrun0. run_breaker.
        with_facts ltac:(rewrite ?Hcb0, ?Hcfg0, ?Hopen0, ?Hop, ?Hcb'). discriminate.
    + exfalso. revert Hrun0. run_breaker.
      with_facts ltac:(rewrite ?Hcb0, ?Hcfg0, ?Hopen0, ?Hop).
      destruct (circuitBreaker s') as [cb' |]; cbn; [| discriminate].
      destruct (circuitBreakerConfig s') as [cfg' |] eqn:Hcfg'; cbn; [| discriminate].
      destruct (errorThreshold cfg' <=? failures cb' + 1)%Z; cbn; rewrite ?Hcfg'; cbn;
        discriminate.
  - rewrite execute_no_breaker in Hrun by (right; exact Hcfg).
    exists s, s1. split; [reflexivity |]. split; [exact Hrun |]. split; [reflexivity |].
    intros Hsame Hsamecfg. unfold ready. rewrite Hsamecfg, Hcfg.
    destruct (circuitBreaker s1); exact I.
  - rewrite execute_no_breaker in Hrun by (left; exact Hcb).
    exists s, s1. split; [reflexivity |]. split; [exact Hrun |]. split; [reflexivity |].
    intros Hsame Hsamecfg. unfold ready. rewrite Hsame, Hcb. exact I.
Qed.

Lemma execute_ready_ok operation now s r now' s' :
  ready s -> operation now s = (Ok r, now', s') ->
  circuitBreaker s' = circuitBreaker s ->
  circuitBreakerConfig s' = circuitBreakerConfig s ->
  exists s1,
    executeWithCircuitBreaker operation now s = (Ok r, now', s1)
    /\ self s1 = self s' /\ ready s1.
Proof.
  intros Hready Hop Hsame Hsamecfg. unfold ready in Hready.
  destruct (circuitBreaker s) as [cb |] eqn:Hcb;
    [destruct (circuitBreakerConfig s) as [cfg |] eqn:Hcfg |].
  - eexists. split; [eapply execute_closed_success; eauto |].
    split; [reflexivity |]. unfold ready. cbn. rewrite Hsamecfg. exact Hready.
  - exists s'. rewrite execute_no_breaker by (right; exact Hcfg).
    split; [exact Hop |]. split; [reflexivity |]. unfold ready. rewrite Hsamecfg.
    destruct (circuitBreaker s'); exact I.
  - exists s'. rewrite execute_no_breaker by (left; exact Hcb).
    split; [exact Hop |]. split; [reflexivity |]. unfold ready. rewrite Hsame. exact I.
Qed.

(** An operation that throws without touching anything makes the wrapped
    call throw, its own error or the circuit-open error, and the subclass
    fields stay as they were. *)
Lemma execute_throws operation e0 now s :
  (forall s0, operation now s0 = (Throw e0, now, s0)) ->
  exists e s1,
    executeWithCircuitBreaker operation now s = (Throw e, now, s1)
    /\ self s1 = self s
    /\ (ready s -> e = e0).
Proof.
  intros Hop.
  destruct (circuitBreaker s) as [cb |] eqn:Hcb;
    [destruct (circuitBreakerConfig s) as [cfg |] eqn:Hcfg |].
  - destruct (isOpen cb) eqn:Hopen.
    + destruct (still_open (nextAttemptTime cb) now) eqn:Hstill.
      * exists (CircuitBreakerError "Circuit breaker is open"), s.
        split; [| split; [reflexivity |]].
        -- run_breaker. with_facts ltac:(rewrite ?Hcb, ?Hcfg, ?Hopen, ?Hstill). reflexivity.
        -- unfold ready. rewrite Hcb, Hcfg, Hopen. discriminate.
      * erewrite execute_open_elapsed by eassumption.
        erewrite execute_closed_failure; [| reflexivity | exact Hcfg | reflexivity
                                          | apply Hop | reflexivity | exact Hcfg].
        eexists _, _. split; [reflexivity |]. split; [reflexivity |].
        unfold ready. rewrite Hcb, Hcfg, Hopen. discriminate.
    + erewrite execute_closed_failure; [| exact Hcb | exact Hcfg | exact Hopen
                                        | apply Hop | exact Hcb | exact Hcfg].
      eexists _, _. split; [reflexivity |]. split; reflexivity.
  - rewrite execute_no_breaker by (right; exact Hcfg). rewrite Hop. eauto.
  - rewrite execute_no_breaker by (left; exact Hcb). rewrite Hop. eauto.
Qed.

(** C2. The per-store circuit breaker is the specified state machine: with no
    breaker configured the operation runs directly; an open breaker whose
    open-until timestamp lies ahead fails at once with the circuit-open error,
    whatever the operation is, leaving clock and store untouched; otherwise the
    operation is attempted, from the closed state with counter 0 when the
    breaker was open and its timestamp has passed; a success resets the counter;
    a failure increments it, records the failure time, opens the breaker with
    open-until = now + timeout once the counter reaches the threshold, and
    re-raises the original error. *)
Theorem circuit_breaker_state_machine operation now s :
  (0 <= now)%Z ->
  ((circuitBreaker s = None \/ circuitBreakerConfig s = None) ->
   executeWithCircuitBreaker operation now s = operation now s)
  /\ (forall cb cfg,
        circuitBreaker s = Some cb -> circuitBreakerConfig s = Some cfg ->
        (forall t, isOpen cb = true -> nextAttemptTime cb = Some t -> (now < t)%Z ->
           executeWithCircuitBreaker operation now s
           = (Throw (CircuitBreakerError "Circuit breaker is open"), now, s))
        /\ (forall s0,
              (isOpen cb = false /\ s0 = s)
              \/ (isOpen cb = true
                  /\ (exists t, nextAttemptTime cb = Some t /\ (t <= now)%Z)
                  /\ s0 = set_breaker (Some (mkBreaker false 0 (lastFailTime cb) (nextAttemptTime cb))) s) ->
              (forall r now' s' cb',
                  operation now s0 = (Ok r, now', s') ->
                  circuitBreaker s' = Some cb' ->
                  executeWithCircuitBreaker operation now s
                  = (Ok r, now', set_breaker (Some (set_failures 0 cb')) s'))
              /\ (forall e now' s' cb' cfg',
                    operation now s0 = (Throw e, now', s') ->
                    circuitBreaker s' = Some cb' -> circuitBreakerConfig s' = Some cfg' ->
                    executeWithCircuitBreaker operation now s
                    = (Throw e, now',
                       set_breaker
                         (Some (if (errorThreshold cfg' <=? failures cb' + 1)%Z
                                then mkBreaker true (failures cb' + 1) (Some now')
                                       (Some (now' + timeout cfg')%Z)
                                else mkBreaker (isOpen cb') (failures cb' + 1) (Some now')
                                       (nextAttemptTime cb')))
                         s')))).
Proof.
  intros Hnow. split; [apply execute_no_breaker |].
  intros cb cfg Hcb Hcfg. split.
  { intros t Hopen Hnext Hlt. eapply execute_open_blocked; eauto; lia. }
  intros s0 Hs0.
  assert (Hstart : executeWithCircuitBreaker operation now s
                   = executeWithCircuitBreaker operation now s0
                   /\ exists cb0, circuitBreaker s0 = Some cb0 /\ isOpen cb0 = false
                                  /\ circuitBreakerConfig s0 = Some cfg).
  { destruct Hs0 as [[Hopen ->] | (Hopen & (t & Hnext & Hle) & ->)].
    - split; [reflexivity | eauto].
    - split.
      + erewrite execute_open_elapsed; eauto.
        unfold still_open. rewrite Hnext.
        replace (now <? t)%Z with false by (symmetry; apply Z.ltb_ge; lia).
        apply andb_false_r.
      + eexists. cbn. eauto. }
  destruct Hstart as [-> (cb0 & Hcb0 & Hopen0 & Hcfg0)]. split.
  - intros r now' s' cb' Hop Hcb'.
    erewrite execute_closed_success; eauto.
  - intros e now' s' cb' cfg' Hop Hcb' Hcfg'.
    erewrite execute_closed_failure; eauto.
Qed.


End CircuitBreaker.

Open Scope Z_scope.

Lemma circuit_breaker_state_machine_witness :
  let cfg := mkConfig true 3 5000 in
  let opened := mkStore (Some (mkBreaker true 3 (Some 100%Z) (Some 5100%Z))) (Some cfg) tt in
  let closed := mkStore (Some (mkBreaker false 2 (Some 90%Z) None)) (Some cfg) tt in
  executeWithCircuitBreaker (ret 7%Z) 200 opened
  = (Throw (CircuitBreakerError "Circuit breaker is open"), 200%Z, opened)
  /\ executeWithCircuitBreaker (ret 7%Z) 6000 opened
     = (Ok 7%Z, 6000%Z,
        mkStore (Some (mkBreaker false 0 (Some 100%Z) (Some 5100%Z))) (Some cfg) tt)
  /\ executeWithCircuitBreaker (throw (Error "down") : M (Store unit) Z) 6000 closed
     = (Throw (Error "down"), 6000%Z,
        mkStore (Some (mkBreaker true 3 (Some 6000%Z) (Some 11000%Z))) (Some cfg) tt).
Proof.
  intros cfg opened closed. split; [| split].
  - pose proof (circuit_breaker_state_machine (ret 7) 200 opened ltac:(lia)) as [_ H].
    destruct (H _ cfg eq_refl eq_refl) as [Hfast _].
    apply (Hfast 5100); [reflexivity | reflexivity | lia].
  - pose proof (circuit_breaker_state_machine (ret 7) 6000 opened ltac:(lia)) as [_ H].
    destruct (H _ cfg eq_refl eq_refl) as [_ Hrun].
    edestruct Hrun as [Hok _].
    + right. split; [reflexivity |]. split; [| reflexivity].
      exists 5100. split; [reflexivity | lia].
    + apply (Hok 7 6000 _ _ eq_refl eq_refl).
  - pose proof (circuit_breaker_state_machine
                  (throw (Error "down") : M (Store unit) Z) 6000 closed ltac:(lia)) as [_ H].
    destruct (H _ cfg eq_refl eq_refl) as [_ Hrun].
    edestruct Hrun as [_ Hfail].
    + left. split; reflexivity.
    + apply (Hfail (Error "down") 6000 _ _ cfg eq_refl eq_refl eq_refl).
Defined.


Close Scope Z_scope.


(** ** Glob patterns *)

Section GlobMatching.
Import RegExp Glob Pattern GlobTerms.
Local Open Scope string_scope.

Lemma append_cons c (a b : string) : String c a ++ b = String c (a ++ b).
Proof. reflexivity. Qed.

Lemma append_nil (b : string) : "" ++ b = b.
Proof. reflexivity. Qed.

Lemma append_assoc (a b c : string) : (a ++ b) ++ c = a ++ (b ++ c).
Proof.
  induction a as [| x a IH]; [reflexivity |].
  rewrite !append_cons. f_equal. exact IH.
Qed.

Lemma replace_each_app f a b :
  replace_each f (a ++ b) = replace_each f a ++ replace_each f b.
Proof.
  induction a as [| c a IH]; [reflexivity |].
  rewrite append_cons. cbn [replace_each]. rewrite IH. symmetry. apply append_assoc.
Qed.

Lemma escaped_not_wild c :
  is_escaped_char c = true ->
  Ascii.eqb c "*" = false /\ Ascii.eqb c "?" = false /\ is_syntax_char c = true.
Proof.
  unfold is_escaped_char. cbn [existsb]. intros H.
  repeat (apply orb_true_iff in H as [H | H];
          [apply Ascii.eqb_eq in H; subst c; repeat split; reflexivity |]).
  discriminate.
Qed.

Lemma plain_not_syntax c :
  is_escaped_char c = false -> Ascii.eqb c "*" = false -> Ascii.eqb c "?" = false ->
  is_syntax_char c = false
  /\ Ascii.eqb c "$" = false /\ Ascii.eqb c "\" = false /\ Ascii.eqb c "." = false.
Proof.
  unfold is_escaped_char, is_syntax_char. cbn [existsb]. intros H Hs Hq.
  repeat (apply orb_false_iff in H as [? H]).
  repeat split; repeat (apply orb_false_iff; split); assumption.
Qed.

Ltac crunch_passes Hstar Hquest :=
  repeat (progress
            (cbv beta iota delta [replace_each keep String.append];
             change (Ascii.eqb "\" "*") with false;
             change (Ascii.eqb "\" "?") with false;
             change (Ascii.eqb "." "*") with false;
             change (Ascii.eqb "." "?") with false;
             change (Ascii.eqb "*" "?") with false;
             rewrite ?Hstar, ?Hquest)).

Lemma regexPattern_cons c pattern :
  regexPattern (String c pattern) = source_of c ++ regexPattern pattern.
Proof.
  unfold regexPattern, source_of. cbn [replace_each].
  rewrite !replace_each_app. f_equal.
  destruct (Ascii.eqb c "*") eqn:Hstar.
  { apply Ascii.eqb_eq in Hstar. subst c. reflexivity. }
  destruct (Ascii.eqb c "?") eqn:Hquest.
  { apply Ascii.eqb_eq in Hquest. subst c. reflexivity. }
  destruct (is_escaped_char c) eqn:Hesc; crunch_passes Hstar Hquest; reflexivity.
Qed.

(** The emitted text never begins with the quantifier. *)
Lemma regexPattern_head pattern :
  exists h rest, regexPattern pattern ++ "$" = String h rest /\ Ascii.eqb h "*" = false.
Proof.
  destruct pattern as [| c pattern]; [exists "$"%char, ""; split; reflexivity |].
  rewrite regexPattern_cons. unfold source_of.
  destruct (Ascii.eqb c "*") eqn:Hstar; [eexists _, _; split; reflexivity |].
  destruct (Ascii.eqb c "?"); [eexists _, _; split; reflexivity |].
  destruct (is_escaped_char c); eexists _, _; (split; [reflexivity |]);
    [reflexivity | exact Hstar].
Qed.

Lemma parse_source_of c rest h rest' :
  rest = String h rest' -> Ascii.eqb h "*" = false ->
  parse_body (source_of c ++ rest) = option_map (cons (term_of c)) (parse_body rest).
Proof.
  intros -> Hh. unfold source_of, term_of.
  destruct (Ascii.eqb c "*") eqn:Hstar; [reflexivity |].
  destruct (Ascii.eqb c "?") eqn:Hquest.
  { rewrite append_cons, append_nil.
    change (parse_body (String "." (String h rest')))
      with (if Ascii.eqb h "*"
            then option_map (cons (Star AnyChar)) (parse_body rest')
            else option_map (cons (One AnyChar)) (parse_body (String h rest'))).
    rewrite Hh. reflexivity. }
  destruct (is_escaped_char c) eqn:Hesc.
  - destruct (escaped_not_wild c Hesc) as (_ & _ & Hsyn).
    rewrite !append_cons, append_nil.
    change (parse_body (String "\" (String c (String h rest'))))
      with (if is_syntax_char c
            then if Ascii.eqb h "*"
                 then option_map (cons (Star (Lit c))) (parse_body rest')
                 else option_map (cons (One (Lit c))) (parse_body (String h rest'))
            else None).
    rewrite Hsyn, Hh. reflexivity.
  - destruct (plain_not_syntax c Hesc Hstar Hquest) as (Hsyn & Hd & Hb & Hdot).
    rewrite append_cons, append_nil.
    cbn [parse_body]. rewrite Hd, Hb, Hdot, Hsyn, Hh. reflexivity.
Qed.

Lemma parse_regexPattern pattern :
  parse_body (regexPattern pattern ++ "$") = Some (terms_of pattern).
Proof.
  induction pattern as [| c pattern IH]; [reflexivity |].
  rewrite regexPattern_cons, append_assoc.
  destruct (regexPattern_head pattern) as (h & rest & Heq & Hh).
  erewrite parse_source_of; eauto. rewrite IH. reflexivity.
Qed.

(** [new RegExp] accepts every source that [patternToRegex] builds. *)
Lemma compile_patternToRegex pattern :
  compile (patternToRegex pattern) = Some (terms_of pattern).
Proof.
  unfold patternToRegex. rewrite append_cons, append_nil. cbn [compile].
  cbn. apply parse_regexPattern.
Qed.

Lemma matches_terms_of pattern key :
  has_line_terminator key = false ->
  matches (terms_of pattern) key = glob_match pattern key.
Proof.
  revert key. induction pattern as [| p pattern IH]; intros key Hkey.
  { destruct key; reflexivity. }
  cbn [terms_of glob_match]. unfold term_of.
  destruct (Ascii.eqb p "*") eqn:Hstar.
  - cbn [matches].
    induction key as [| c key IHkey].
    + rewrite IH by assumption. reflexivity.
    + cbn [has_line_terminator] in Hkey. apply orb_false_iff in Hkey as [Hc Hkey].
      rewrite IH by (cbn [has_line_terminator]; rewrite Hc, Hkey; reflexivity).
      f_equal. cbn [atom_matches]. rewrite Hc. cbn [negb andb].
      apply IHkey. exact Hkey.
  - destruct (Ascii.eqb p "?") eqn:Hquest; cbn [matches]; destruct key as [| c key];
      try reflexivity;
      cbn [has_line_terminator] in Hkey; apply orb_false_iff in Hkey as [Hc Hkey];
      cbn [atom_matches orb]; rewrite IH by assumption.
    + rewrite Hc. reflexivity.
    + rewrite Ascii.eqb_sym. reflexivity.
Qed.

(** On keys without line terminators the matcher of the store is exactly the
    glob matching of the specification. *)
Lemma pattern_test_glob pattern key :
  has_line_terminator key = false ->
  pattern_test pattern key = Some (glob_match pattern key).
Proof.
  intros Hkey. unfold pattern_test. rewrite compile_patternToRegex. cbn.
  unfold test. rewrite matches_terms_of by assumption. reflexivity.
Qed.

End GlobMatching.

Section GlobExamples.
Import BaseStore BreakerSteps MemoryStore Pattern Glob.
Local Open Scope Z_scope.

(** The two examples of the specification: [a?c] and [user:*]. *)
Lemma pattern_examples :
  pattern_test "a?c" "abc" = Some true
  /\ pattern_test "a?c" "ac" = Some false
  /\ pattern_test "a?c" "abbc" = Some false
  /\ let store :=
       final (set (VStr "post:1") (VStr "post1") None 1003
                (final (set (VStr "user:2") (VStr "user2") None 1002
                          (final (set (VStr "user:1") (VStr "user1") None 1001
                                    (constructor (mkStoreConfig (Some 100%nat) (Some 300%N) None))))))) in
     outcome (invalidateByPattern "user:*" 1004 store) = Ok 2
     /\ outcome (keys None 1005 (final (invalidateByPattern "user:*" 1004 store)))
        = Ok ["post:1"%string].
Proof. vm_compute. repeat split; reflexivity. Qed.

(** C6 (failing input). The wildcard of the compiled expression does not match
    a line terminator: pattern [a*] and the key made of [a], a line feed and
    [b] match as a glob, but [patternToRegex] rejects the key, so [keys] does
    not list it and [invalidateByPattern] leaves it in the store, counting 0. *)
Theorem glob_star_misses_line_feed :
  let key := String "a" (String "010" (String "b" EmptyString)) in
  glob_match "a*" key = true
  /\ pattern_test "a*" key = Some false
  /\ let store :=
       final (set (VStr key) (VStr "v") None 1001
                (constructor (mkStoreConfig (Some 100%nat) (Some 300%N) None))) in
     outcome (keys (Some "a*"%string) 1002 store) = Ok []
     /\ outcome (invalidateByPattern "a*" 1002 store) = Ok 0
     /\ outcome (get (VStr key) 1003 (final (invalidateByPattern "a*" 1002 store)))
        = Ok (VStr "v").
Proof. vm_compute. repeat split; reflexivity. Qed.

End GlobExamples.

Section TimeToLive.
Import BaseStore BreakerSteps MemoryStore.
Local Open Scope Z_scope.

(** C7 (failing input). A store with a default ttl of 300 seconds holds an
    entry written at clock 1000 without a ttl of its own.  Read at 401000 it
    has expired; but after a read at 201000 the same read at 401000 still
    finds it: the read reset the age of the entry, and with it the time at
    which the entry expires.  [exists] shows the same. *)
Theorem get_postpones_expiry :
  let store :=
    final (set (VStr "k") (VStr "v") None 1000
             (constructor (mkStoreConfig (Some 100%nat) (Some 300%N) None))) in
  outcome (get (VStr "k") 401000 store) = Ok VNull
  /\ outcome (get (VStr "k") 201000 store) = Ok (VStr "v")
  /\ outcome (get (VStr "k") 401000 (final (get (VStr "k") 201000 store))) = Ok (VStr "v")
  /\ outcome (exists_ (VStr "k") 401000 store) = Ok false
  /\ outcome (exists_ (VStr "k") 401000 (final (get (VStr "k") 201000 store))) = Ok true.
Proof. vm_compute. repeat split; reflexivity. Qed.

End TimeToLive.

(** ** The layered strategy *)

Section Layered.
Import FanOut BreakerSteps.
Context {St : Type} `{IStore St}.

Lemma on_store_middle {A} (m : M St A) (pre : list St) s rest t :
  on_store (length pre) m t (pre ++ s :: rest)
  = let '(r, t', s') := m t s in (r, t', pre ++ s' :: rest).
Proof.
  unfold on_store. rewrite list_lookup_middle by reflexivity.
  destruct (m t s) as [[r t'] s'].
  replace (length pre) with (length pre + 0) by lia.
  rewrite insert_app_r. reflexivity.
Qed.

Lemma snoc_middle (pre : list St) s rest : pre ++ s :: rest = (pre ++ [s]) ++ rest.
Proof. rewrite <- app_assoc. reflexivity. Qed.

Lemma length_snoc (pre : list St) s : length (pre ++ [s]) = S (length pre).
Proof. rewrite length_app. cbn. lia. Qed.

Lemma thrown_length {A} (rs : list (Result A)) :
  length (thrown rs) <= length rs
  /\ (length (thrown rs) = length rs <-> forallb failed rs = true).
Proof.
  induction rs as [| [a | e] rs [IHle IHeq]]; cbn.
  - split; [lia | tauto].
  - split; [lia |]. split; [lia | discriminate].
  - split; [lia |]. rewrite <- IHeq. lia.
Qed.

Lemma each_store_length {A} (call : M St A) t stores :
  length (each_store call t stores).1.1 = length stores
  /\ length (each_store call t stores).2 = length stores.
Proof.
  revert t. induction stores as [| s rest IH]; intros t; cbn; [auto |].
  destruct (call t s) as [[r t1] s'].
  specialize (IH t1). destruct (each_store call t1 rest) as [[rs t2] rest'].
  cbn in *. lia.
Qed.

Lemma write_from_each_store (write : M St unit) rest :
  forall pre errors t,
    LayeredStrategy.write_from write (length rest) (length pre) errors t (pre ++ rest)
    = let '(rs, t', rest') := each_store write t rest in
      (Ok (errors ++ thrown rs), t', pre ++ rest').
Proof.
  induction rest as [| s rest IH]; intros pre errors t.
  { cbn. rewrite !app_nil_r. reflexivity. }
  cbn [length LayeredStrategy.write_from each_store].
  unfold bind at 1. unfold try_catch, bind at 1.
  rewrite on_store_middle.
  destruct (write t s) as [[[[] | e] t1] s'];
    cbn; rewrite snoc_middle, <- length_snoc with (s := s'), IH;
    destruct (each_store write t1 rest) as [[rs t2] rest'];
    rewrite <- snoc_middle; [reflexivity |].
  rewrite <- app_assoc. reflexivity.
Qed.

Lemma fan_out_write (write : M St unit) (failure : string -> CacheError) t stores :
  (stores' <- get_state ;;
   errors <- LayeredStrategy.write_from write (length stores') 0 [] ;;
   stores'' <- get_state ;;
   if Nat.eqb (length errors) (length stores'')
   then throw (failure (LayeredStrategy.joined errors))
   else ret tt) t stores
  = let '(rs, t', stores') := each_store write t stores in
    (if forallb failed rs
     then Throw (failure (LayeredStrategy.joined (thrown rs)))
     else Ok tt, t', stores').
Proof.
  unfold bind at 1, get_state at 1. unfold bind at 1.
  pose proof (write_from_each_store write stores [] [] t) as Hloop.
  cbn [length app] in Hloop. rewrite Hloop.
  pose proof (each_store_length write t stores) as [Hrs Hst].
  destruct (each_store write t stores) as [[rs t'] stores'].
  cbn in Hrs, Hst. cbn.
  destruct (thrown_length rs) as [Hle Hiff].
  destruct (forallb failed rs) eqn:Hall.
  - rewrite Hst, <- Hrs. replace (length (thrown rs) =? length rs) with true; [reflexivity |].
    symmetry. apply Nat.eqb_eq. apply Hiff. reflexivity.
  - rewrite Hst, <- Hrs. replace (length (thrown rs) =? length rs) with false; [reflexivity |].
    symmetry. apply Nat.eqb_neq. intros Heq. apply Hiff in Heq. discriminate.
Qed.

(** C4. Layered [set] and [mset] send the write to every store; they raise
    exactly when every store failed it, and the error raised is the aggregate
    whose message joins the messages of all the failures; as soon as one
    store succeeds the call returns normally and no store error is raised. *)
Theorem layered_write_raises_iff_all_failed key value pairs options t stores :
  (let '(rs, t', stores') := each_store (store_set key value options) t stores in
   LayeredStrategy.set key value options t stores
   = (if forallb failed rs
      then Throw (Error ("Failed to set key " ++ js_String key ++ " in all stores: "
                         ++ String.concat ", " (List.map message (thrown rs))))
      else Ok tt, t', stores'))
  /\ (let '(rs, t', stores') := each_store (store_mset pairs options) t stores in
      LayeredStrategy.mset pairs options t stores
      = (if forallb failed rs
         then Throw (Error ("Failed to execute mset in all stores: "
                            ++ String.concat ", " (List.map message (thrown rs))))
         else Ok tt, t', stores')).
Proof.
  split.
  - pose proof (fan_out_write (store_set key value options)
                  (fun joined => Error ("Failed to set key " ++ js_String key
                                        ++ " in all stores: " ++ joined)) t stores) as Hset.
    destruct (each_store (store_set key value options) t stores) as [[rs t'] stores'].
    exact Hset.
  - pose proof (fan_out_write (store_mset pairs options)
                  (fun joined => Error ("Failed to execute mset in all stores: " ++ joined))
                  t stores) as Hmset.
    destruct (each_store (store_mset pairs options) t stores) as [[rs t'] stores'].
    exact Hmset.
Qed.

Lemma exists_from_polls key rest :
  forall pre t,
  exists b t' rest',
    CacheManager.exists_from (length rest) (length pre) key t (pre ++ rest)
    = (Ok b, t', pre ++ rest')
    /\ polls key t rest b t' rest'.
Proof.
  induction rest as [| s rest IH]; intros pre t.
  { exists false, t, []. split; [reflexivity | constructor]. }
  cbn [length CacheManager.exists_from].
  unfold bind at 1. unfold try_catch. rewrite on_store_middle.
  destruct (store_exists key t s) as [[r t1] s'] eqn:Hpoll.
  destruct r as [[|] | e].
  - exists true, t1, (s' :: rest). split; [reflexivity |].
    eapply polls_found; eauto.
  - destruct (IH (pre ++ [s']) t1) as (b & t2 & rest' & Hrun & Hpolls).
    exists b, t2, (s' :: rest'). split.
    + cbn. rewrite snoc_middle, <- length_snoc with (s := s'), Hrun.
      rewrite <- snoc_middle. reflexivity.
    + eapply polls_next; eauto; discriminate.
  - destruct (IH (pre ++ [s']) t1) as (b & t2 & rest' & Hrun & Hpolls).
    exists b, t2, (s' :: rest'). split.
    + cbn. rewrite snoc_middle, <- length_snoc with (s := s'), Hrun.
      rewrite <- snoc_middle. reflexivity.
    + eapply polls_next; eauto; discriminate.
Qed.

Lemma insert_sorted_perm s l : Permutation (s :: l) (LayeredStrategy.insert_sorted s l).
Proof.
  induction l as [| o l IH]; cbn; [reflexivity |].
  destruct (LayeredStrategy.getStorePriority s <=? LayeredStrategy.getStorePriority o)%Z;
    [reflexivity |].
  rewrite perm_swap. constructor. exact IH.
Qed.

Lemma sort_perm l : Permutation l (LayeredStrategy.sort l).
Proof.
  induction l as [| s l IH]; cbn; [constructor |].
  rewrite <- insert_sorted_perm. constructor. exact IH.
Qed.

Lemma insert_sorted_sorted s l :
  StronglySorted LayeredStrategy.by_priority l ->
  StronglySorted LayeredStrategy.by_priority (LayeredStrategy.insert_sorted s l).
Proof.
  induction 1 as [| o l Hsorted IH Hall]; cbn.
  { repeat constructor. }
  destruct (LayeredStrategy.getStorePriority s <=? LayeredStrategy.getStorePriority o)%Z
    eqn:Hle.
  - apply Z.leb_le in Hle. constructor; [constructor; assumption |].
    constructor; [exact Hle |].
    eapply Forall_impl; [exact Hall |]. unfold LayeredStrategy.by_priority. cbn. intros; lia.
  - apply Z.leb_gt in Hle. constructor; [exact IH |].
    rewrite <- insert_sorted_perm. constructor; [unfold LayeredStrategy.by_priority; lia | exact Hall].
Qed.

Lemma sort_sorted l : StronglySorted LayeredStrategy.by_priority (LayeredStrategy.sort l).
Proof.
  induction l as [| s l IH]; cbn; [constructor |].
  apply insert_sorted_sorted. exact IH.
Qed.

(** C10. [CacheManager.exists] never raises: it returns [true] or [false]
    after polling the stores in the order of the manager's array, which the
    constructor leaves sorted by priority; it stops at the first store that
    answers [true], passes over a store that answers [false] or throws, and
    returns [true] exactly when a polled store answered [true]. *)
Theorem manager_exists_polls_by_priority key t (manager : CacheManager.t) :
  (exists b t' stores',
      CacheManager.exists_ key t manager
      = (Ok b, t',
         CacheManager.mkManager stores'
           (MetricsCollector.recordOperation (t' - t)
              (CacheManager.metricsCollector manager)))
      /\ polls key t (CacheManager.stores manager) b t' stores')
  /\ (forall now created built,
         CacheManager.constructor now created = Ok built ->
         StronglySorted LayeredStrategy.by_priority (CacheManager.stores built)
         /\ Permutation created (CacheManager.stores built)).
Proof.
  split.
  - destruct (exists_from_polls key (CacheManager.stores manager) [] t)
      as (b & t' & stores' & Hrun & Hpolls).
    exists b, t', stores'. split; [| exact Hpolls].
    unfold CacheManager.exists_, CacheManager.withMetrics, CacheManager.on_stores,
      CacheManager.on_metrics, focus, try_catch, bind, Date_now, get_state, modify, ret.
    cbn [length app] in Hrun. rewrite Hrun. reflexivity.
  - intros now created built Hbuilt. destruct created as [| s created]; [discriminate |].
    cbn in Hbuilt. injection Hbuilt as <-. cbn [CacheManager.stores].
    split; [apply (sort_sorted (s :: created)) | apply (sort_perm (s :: created))].
Qed.

End Layered.

(** ** The LRU cache *)

Section LRUFacts.
Import LRUCache.
Context {V : Type}.
Implicit Types (l : list (Item V)) (it : Item V) (c : t V) (k : string).

Lemma find_app k l1 l2 :
  find k (l1 ++ l2) = match find k l1 with Some it => Some it | None => find k l2 end.
Proof.
  unfold find. induction l1 as [| it l1 IH]; cbn; [reflexivity |].
  destruct (String.eqb (key it) k); [reflexivity | exact IH].
Qed.

Lemma find_remove k k' l :
  find k (remove k' l) = if String.eqb k k' then None else find k l.
Proof.
  unfold find, remove. induction l as [| it l IH]; cbn.
  { destruct (String.eqb k k'); reflexivity. }
  destruct (String.eqb (key it) k') eqn:Hk'; cbn.
  - rewrite IH. destruct (String.eqb k k') eqn:Hkk'; [reflexivity |].
    destruct (String.eqb (key it) k) eqn:Hk; [| reflexivity].
    apply String.eqb_eq in Hk', Hk. apply String.eqb_neq in Hkk'. congruence.
  - destruct (String.eqb (key it) k) eqn:Hk.
    + apply String.eqb_eq in Hk. subst k. rewrite Hk'. reflexivity.
    + exact IH.
Qed.

Lemma find_key k l it : find k l = Some it -> key it = k.
Proof.
  unfold find. intros Hfind. apply find_some in Hfind as [_ Heq].
  apply String.eqb_eq. exact Heq.
Qed.

Lemma find_one k it : find k [it] = if String.eqb (key it) k then Some it else None.
Proof. reflexivity. Qed.

Lemma lookup_moved k k' l (v : V) start ttl c :
  lookup k' (with_items c (remove k l ++ [mkItem k v start ttl]))
  = if String.eqb k' k then Some v else option_map value (find k' l).
Proof.
  unfold lookup. cbn [items with_items]. rewrite find_app, find_remove, find_one. cbn [key].
  rewrite (String.eqb_sym k k').
  destruct (String.eqb k' k) eqn:Hk; [reflexivity |].
  destruct (find k' l); reflexivity.
Qed.

Lemma lookup_removed k k' l c :
  lookup k' (with_items c (remove k l))
  = if String.eqb k' k then None else option_map value (find k' l).
Proof.
  unfold lookup. cbn [items with_items]. rewrite find_remove.
  destruct (String.eqb k' k); reflexivity.
Qed.

Lemma find_map (g : Item V -> Item V) k l :
  (forall it, key (g it) = key it) ->
  find k (List.map g l) = option_map g (find k l).
Proof.
  intros Hkey. unfold find. induction l as [| it l IH]; cbn; [reflexivity |].
  rewrite Hkey. destruct (String.eqb (key it) k); [reflexivity | exact IH].
Qed.

Lemma lookup_found k c it : find k (items c) = Some it -> lookup k c = Some (value it).
Proof. unfold lookup. intros ->. reflexivity. Qed.

Lemma lookup_missing k c : find k (items c) = None -> lookup k c = None.
Proof. unfold lookup. intros ->. reflexivity. Qed.

Lemma get_effect now k c :
  let '(found, disposed, c') := get now k c in
  (found = None /\ disposed = [] /\ c' = c /\ lookup k c = None)
  \/ (exists v, found = None /\ disposed = [(k, v)] /\ lookup k c = Some v
                /\ forall k', lookup k' c' = if String.eqb k' k then None else lookup k' c)
  \/ (exists v, found = Some v /\ disposed = [] /\ lookup k c = Some v
                /\ forall k', lookup k' c' = lookup k' c).
Proof.
  unfold get. destruct (find k (items c)) as [it |] eqn:Hfind.
  - destruct (is_stale now it).
    + right. left. exists (value it).
      split; [reflexivity |]. split; [reflexivity |]. split; [apply lookup_found, Hfind |].
      intros k'. apply lookup_removed.
    + right. right. exists (value it).
      split; [reflexivity |]. split; [reflexivity |]. split; [apply lookup_found, Hfind |].
      intros k'. rewrite lookup_moved. destruct (String.eqb k' k) eqn:Hk; [| reflexivity].
      apply String.eqb_eq in Hk. subst k'. symmetry. apply lookup_found, Hfind.
  - left. split; [reflexivity |]. split; [reflexivity |]. split; [reflexivity |].
    apply lookup_missing, Hfind.
Qed.

Lemma set_effect now k (v : V) ttl c :
  let '(disposed, c') := set now k v ttl c in
  (disposed = [] /\ lookup k c = None
   /\ forall k', lookup k' c' = if String.eqb k' k then Some v else lookup k' c)
  \/ (exists k0 v0, disposed = [(k0, v0)] /\ lookup k0 c = Some v0
                    /\ (k0 = k \/ lookup k c = None)
                    /\ forall k', lookup k' c'
                                  = if String.eqb k' k then Some v
                                    else if String.eqb k' k0 then None else lookup k' c).
Proof.
  unfold set. destruct (find k (items c)) as [old |] eqn:Hfind.
  - right. exists k, (value old). split; [reflexivity |].
    split; [apply lookup_found, Hfind |]. split; [left; reflexivity |].
    intros k'. rewrite lookup_moved. destruct (String.eqb k' k); reflexivity.
  - pose proof (lookup_missing _ _ Hfind) as Hmiss.
    destruct (Nat.eqb (size c) (max c)).
    + destruct (items c) as [| lru rest] eqn:Hitems.
      * left. split; [reflexivity |]. split; [exact Hmiss |].
        intros k'. unfold lookup. cbn. rewrite Hitems.
        rewrite (String.eqb_sym k k'). destruct (String.eqb k' k); reflexivity.
      * right. exists (key lru), (value lru). split; [reflexivity |]. split.
        { unfold lookup, find. rewrite Hitems. cbn. rewrite String.eqb_refl. reflexivity. }
        split; [right; exact Hmiss |].
        intros k'. unfold lookup. cbn [items with_items].
        rewrite find_app, find_remove, find_one. cbn [key]. rewrite Hitems.
        rewrite (String.eqb_sym k k').
        destruct (String.eqb k' k) eqn:Hk.
        -- apply String.eqb_eq in Hk. subst k'.
           destruct (String.eqb k (key lru)); [reflexivity |]. rewrite Hfind. reflexivity.
        -- destruct (String.eqb k' (key lru)); [reflexivity |].
           destruct (find k' (lru :: rest)); reflexivity.
    + left. split; [reflexivity |]. split; [exact Hmiss |].
      intros k'. unfold lookup. cbn [items with_items].
      rewrite find_app, find_one. cbn [key]. rewrite (String.eqb_sym k k').
      destruct (String.eqb k' k) eqn:Hk.
      * apply String.eqb_eq in Hk. subst k'. rewrite Hfind. reflexivity.
      * destruct (find k' (items c)); reflexivity.
Qed.

Lemma delete_effect k c :
  let '(deleted, disposed, c') := delete k c in
  (deleted = false /\ disposed = [] /\ c' = c)
  \/ (exists v, deleted = true /\ disposed = [(k, v)] /\ lookup k c = Some v
                /\ forall k', lookup k' c' = if String.eqb k' k then None else lookup k' c).
Proof.
  unfold delete. destruct (find k (items c)) as [it |] eqn:Hfind.
  - right. exists (value it).
    split; [reflexivity |]. split; [reflexivity |]. split; [apply lookup_found, Hfind |].
    intros k'. apply lookup_removed.
  - left. repeat split.
Qed.

Lemma has_effect now k c k' : lookup k' (snd (has now k c)) = lookup k' c.
Proof.
  unfold has. destruct (find k (items c)) as [it |]; [| reflexivity].
  destruct (is_stale now it); [reflexivity |].
  unfold lookup. cbn [snd items with_items]. rewrite find_map.
  - destruct (find k' (items c)) as [it' |]; [| reflexivity]. cbn.
    destruct (String.eqb (key it') k); reflexivity.
  - intros it'. destruct (String.eqb (key it') k) eqn:Hk; [| reflexivity].
    apply String.eqb_eq in Hk. symmetry. exact Hk.
Qed.

Lemma poke_effect k (f : V -> V) c k' :
  lookup k' (poke k f c) = if String.eqb k' k then option_map f (lookup k c) else lookup k' c.
Proof.
  unfold poke, lookup. cbn [items with_items]. rewrite find_map.
  - destruct (String.eqb k' k) eqn:Hk.
    + apply String.eqb_eq in Hk. subst k'.
      destruct (find k (items c)) as [it |] eqn:Hfind; [| reflexivity]. cbn.
      rewrite (find_key _ _ _ Hfind), String.eqb_refl. reflexivity.
    + destruct (find k' (items c)) as [it |] eqn:Hfind; [| reflexivity]. cbn.
      rewrite (find_key _ _ _ Hfind), Hk. reflexivity.
  - intros it. destruct (String.eqb (key it) k); reflexivity.
Qed.

End LRUFacts.

(** ** The indexes of MemoryStore *)

Section IndexFacts.
Import MemoryStore Invariant.
Implicit Types (index : gmap string (list string)) (k label : string)
  (keys ls : list string) (holds : string -> option CacheEntry).

Lemma in_set_add k x keys : In x (set_add k keys) <-> x = k \/ In x keys.
Proof.
  unfold set_add. destruct (existsb (String.eqb k) keys) eqn:Hin.
  - apply existsb_exists in Hin as (y & Hy & Heq). apply String.eqb_eq in Heq. subst y.
    split; [auto | intros [-> | ?]; assumption].
  - rewrite in_app_iff. cbn. split; [intros [? | [<- | []]]; auto |].
    intros [-> | ?]; auto.
Qed.

Lemma set_add_nonempty k keys : set_add k keys <> [].
Proof.
  intros Hnil. assert (Hin : In k (set_add k keys)) by (apply in_set_add; auto).
  rewrite Hnil in Hin. destruct Hin.
Qed.

Lemma in_set_delete k x keys : In x (set_delete k keys) <-> x <> k /\ In x keys.
Proof.
  unfold set_delete. rewrite filter_In, negb_true_iff, String.eqb_neq. tauto.
Qed.

Lemma index_add_lookup k index l label :
  index_add k index l !! label
  = if decide (l = label) then Some (set_add k (default [] (index !! l)))
    else index !! label.
Proof. unfold index_add. apply lookup_insert. Qed.

Lemma index_remove_lookup k index l label :
  index_remove k index l !! label
  = if decide (l = label)
    then match index !! l with
         | Some keys => match set_delete k keys with [] => None | keys' => Some keys' end
         | None => None
         end
    else index !! label.
Proof.
  unfold index_remove. destruct (index !! l) as [keys |] eqn:Hl.
  - destruct (set_delete k keys) as [| x keys'] eqn:Hdel.
    + rewrite lookup_delete. destruct (decide (l = label)); reflexivity.
    + rewrite lookup_insert. destruct (decide (l = label)); reflexivity.
  - destruct (decide (l = label)) as [<- |]; [exact Hl | reflexivity].
Qed.

Lemma fold_add_lookup k ls : forall index label keys',
  fold_left (index_add k) ls index !! label = Some keys' ->
  (In label ls /\ keys' <> []
   /\ forall x, In x keys' -> x = k \/ exists keys, index !! label = Some keys /\ In x keys)
  \/ (~ In label ls /\ index !! label = Some keys').
Proof.
  induction ls as [| l ls IH]; intros index label keys' Hfinal; cbn in Hfinal.
  { right. split; [intros [] | exact Hfinal]. }
  apply IH in Hfinal as [(Hin & Hne & Hmem) | (Hnin & Hstep)].
  - left. split; [right; exact Hin |]. split; [exact Hne |].
    intros x Hx. apply Hmem in Hx as [-> | (keys & Hkeys & Hx)]; [left; reflexivity |].
    rewrite index_add_lookup in Hkeys. destruct (decide (l = label)) as [-> |].
    + injection Hkeys as <-. apply in_set_add in Hx as [-> | Hx]; [left; reflexivity |].
      right. destruct (index !! label) as [old |]; [eauto | destruct Hx].
    + right. eauto.
  - rewrite index_add_lookup in Hstep. destruct (decide (l = label)) as [-> |].
    + injection Hstep as <-. left. split; [left; reflexivity |].
      split; [apply set_add_nonempty |].
      intros x Hx. apply in_set_add in Hx as [-> | Hx]; [left; reflexivity |].
      right. destruct (index !! label) as [old |]; [eauto | destruct Hx].
    + right. split; [| exact Hstep]. intros [-> | Hin]; [congruence | exact (Hnin Hin)].
Qed.

Lemma fold_remove_lookup k ls : forall index label keys',
  fold_left (index_remove k) ls index !! label = Some keys' ->
  exists keys,
    index !! label = Some keys
    /\ ((In label ls /\ keys' <> [] /\ forall x, In x keys' -> x <> k /\ In x keys)
        \/ (~ In label ls /\ keys' = keys)).
Proof.
  induction ls as [| l ls IH]; intros index label keys' Hfinal; cbn in Hfinal.
  { exists keys'. split; [exact Hfinal |]. right. split; [intros [] | reflexivity]. }
  apply IH in Hfinal as (mid & Hmid & Hcases).
  rewrite index_remove_lookup in Hmid. destruct (decide (l = label)) as [-> |].
  - destruct (index !! label) as [keys |] eqn:Hkeys; [| discriminate].
    destruct (set_delete k keys) as [| y rest] eqn:Hdel; [discriminate |].
    injection Hmid as <-. exists keys. split; [reflexivity |]. left.
    split; [left; reflexivity |].
    destruct Hcases as [(_ & Hne & Hmem) | (_ & ->)].
    + split; [exact Hne |]. intros x Hx. apply Hmem in Hx as [Hxk Hx].
      split; [exact Hxk |]. rewrite <- Hdel in Hx. apply in_set_delete in Hx. tauto.
    + split; [discriminate |]. intros x Hx. rewrite <- Hdel in Hx.
      apply in_set_delete in Hx. exact Hx.
  - exists mid. split; [exact Hmid |].
    destruct Hcases as [(Hin & Hne & Hmem) | (Hnin & ->)].
    + left. split; [right; exact Hin |]. split; assumption.
    + right. split; [| reflexivity]. intros [-> | Hin]; [congruence | exact (Hnin Hin)].
Qed.

Lemma sound_mono labels index holds holds' :
  sound labels index holds ->
  (forall k e, holds k = Some e -> exists e', holds' k = Some e' /\ labels e' = labels e) ->
  sound labels index holds'.
Proof.
  intros Hsound Hmono label keys Hkeys. destruct (Hsound label keys Hkeys) as [Hne Hmem].
  split; [exact Hne |]. intros k Hk.
  destruct (Hmem k Hk) as (e & ls & Hheld & Hls & Hin).
  destruct (Hmono k e Hheld) as (e' & Hheld' & Hlabels).
  exists e', ls. rewrite Hlabels. auto.
Qed.

Lemma sound_empty labels holds : sound labels ∅ holds.
Proof. intros label keys Hkeys. rewrite lookup_empty in Hkeys. discriminate. Qed.

Lemma sound_delete labels index holds label :
  sound labels index holds -> sound labels (base.delete label index) holds.
Proof.
  intros Hsound l keys Hkeys. rewrite lookup_delete in Hkeys.
  destruct (decide (label = l)); [discriminate |]. exact (Hsound l keys Hkeys).
Qed.

(** Adding the key of a held entry under the labels of that entry. *)
Lemma sound_update labels index holds k e :
  sound labels index holds -> holds k = Some e ->
  sound labels (over_labels (index_add k) (labels e) index) holds.
Proof.
  intros Hsound Hheld. unfold over_labels.
  destruct (labels e) as [ls |] eqn:Hls; [| exact Hsound].
  intros label keys' Hfinal.
  apply fold_add_lookup in Hfinal as [(Hin & Hne & Hmem) | (_ & Hold)];
    [| exact (Hsound label keys' Hold)].
  split; [exact Hne |]. intros x Hx.
  apply Hmem in Hx as [-> | (keys & Hkeys & Hx)].
  - exists e, ls. auto.
  - exact (proj2 (Hsound label keys Hkeys) x Hx).
Qed.

(** Removing the key of an entry that is no longer held from the buckets of
    the labels of that entry. *)
Lemma sound_cleanup labels index holds holds' k e :
  sound labels index holds -> holds k = Some e ->
  (forall k', holds' k' = if String.eqb k' k then None else holds k') ->
  sound labels (over_labels (index_remove k) (labels e) index) holds'.
Proof.
  intros Hsound Hheld Hholds'.
  assert (Hother : forall x, x <> k -> holds' x = holds x).
  { intros x Hx. rewrite Hholds'. apply String.eqb_neq in Hx. rewrite Hx. reflexivity. }
  unfold over_labels. destruct (labels e) as [ls |] eqn:Hls.
  - intros label keys' Hfinal.
    apply fold_remove_lookup in Hfinal as (keys & Hkeys & Hcases).
    destruct (Hsound label keys Hkeys) as [Hne Hmem].
    destruct Hcases as [(Hin & Hne' & Hsub) | (Hnin & ->)].
    + split; [exact Hne' |]. intros x Hx. apply Hsub in Hx as [Hxk Hx].
      rewrite (Hother x Hxk). exact (Hmem x Hx).
    + split; [exact Hne |]. intros x Hx.
      destruct (Hmem x Hx) as (e' & ls' & Hheld' & Hls' & Hin').
      destruct (String.eqb_spec x k) as [-> | Hxk].
      * rewrite Hheld in Hheld'. injection Hheld' as <-.
        rewrite Hls in Hls'. injection Hls' as <-. contradiction.
      * rewrite (Hother x Hxk). eauto.
  - intros label keys Hkeys. destruct (Hsound label keys Hkeys) as [Hne Hmem].
    split; [exact Hne |]. intros x Hx.
    destruct (Hmem x Hx) as (e' & ls' & Hheld' & Hls' & Hin').
    destruct (String.eqb_spec x k) as [-> | Hxk].
    + rewrite Hheld in Hheld'. injection Hheld' as <-. congruence.
    + rewrite (Hother x Hxk). eauto.
Qed.

End IndexFacts.

(** ** Computations that keep a property of the fields of a store *)

Section Keeps.
Import BaseStore MemoryStore Invariant.
Context (P : Fields -> Prop).

Lemma keeps_ret {A} (a : A) : keeps P (ret a).
Proof. intros t s HP. exact HP. Qed.

Lemma keeps_throw {A} e : keeps P (throw e : M MemoryStore A).
Proof. intros t s HP. exact HP. Qed.

Lemma keeps_bind {A B} (m : M MemoryStore A) (k : A -> M MemoryStore B) :
  keeps P m -> (forall a, keeps P (k a)) -> keeps P (bind m k).
Proof.
  intros Hm Hk t s HP. unfold bind. specialize (Hm t s HP).
  destruct (m t s) as [[[a | e] t'] s']; cbn in Hm; [apply Hk; exact Hm | exact Hm].
Qed.

Lemma keeps_try_catch {A} (m : M MemoryStore A) (h : CacheError -> M MemoryStore A) :
  keeps P m -> (forall e, keeps P (h e)) -> keeps P (try_catch m h).
Proof.
  intros Hm Hh t s HP. unfold try_catch. specialize (Hm t s HP).
  destruct (m t s) as [[[a | e] t'] s']; cbn in Hm; [exact Hm | apply Hh; exact Hm].
Qed.

Lemma keeps_Date_now : keeps P Date_now.
Proof. intros t s HP. exact HP. Qed.

Lemma keeps_get_state : keeps P get_state.
Proof. intros t s HP. exact HP. Qed.

Lemma keeps_the_breaker : keeps P the_breaker.
Proof.
  intros t s HP. unfold the_breaker, bind, get_state.
  destruct (circuitBreaker s); exact HP.
Qed.

Lemma keeps_the_config : keeps P the_config.
Proof.
  intros t s HP. unfold the_config, bind, get_state.
  destruct (circuitBreakerConfig s); exact HP.
Qed.

Lemma keeps_update_breaker f : keeps P (update_breaker f).
Proof.
  intros t s HP. unfold update_breaker, the_breaker, bind, get_state, modify.
  destruct (circuitBreaker s); exact HP.
Qed.

Lemma keeps_execute {A} (operation : M MemoryStore A) :
  keeps P operation -> keeps P (executeWithCircuitBreaker operation).
Proof.
  intros Hop. unfold executeWithCircuitBreaker.
  apply keeps_bind; [apply keeps_get_state |]. intros this.
  destruct (circuitBreaker this); [| exact Hop].
  destruct (circuitBreakerConfig this); [| exact Hop].
  apply keeps_bind; [apply keeps_the_breaker |]. intros cb.
  apply keeps_bind.
  { destruct (isOpen cb); [| apply keeps_ret].
    apply keeps_bind; [apply keeps_Date_now |]. intros now.
    destruct (still_open (nextAttemptTime cb) now); [apply keeps_throw |].
    apply keeps_bind; [apply keeps_update_breaker |]. intros _. apply keeps_update_breaker. }
  intros _. apply keeps_try_catch.
  - apply keeps_bind; [exact Hop |]. intros result.
    apply keeps_bind; [apply keeps_update_breaker |]. intros _. apply keeps_ret.
  - intros error.
    apply keeps_bind; [apply keeps_update_breaker |]. intros _.
    apply keeps_bind; [apply keeps_Date_now |]. intros now.
    apply keeps_bind; [apply keeps_update_breaker |]. intros _.
    apply keeps_bind; [apply keeps_the_breaker |]. intros cb'.
    apply keeps_bind; [apply keeps_the_config |]. intros cfg.
    apply keeps_bind; [| intros _; apply keeps_throw].
    destruct (errorThreshold cfg <=? failures cb')%Z; [| apply keeps_ret].
    apply keeps_bind; [apply keeps_update_breaker |]. intros _.
    apply keeps_bind; [apply keeps_Date_now |]. intros now'.
    apply keeps_bind; [apply keeps_the_config |]. intros cfg'.
    apply keeps_update_breaker.
Qed.

Lemma keeps_for_of {A} (xs : list A) (body : A -> M MemoryStore unit) :
  (forall x, keeps P (body x)) -> keeps P (for_of xs body).
Proof.
  intros Hbody. induction xs as [| x xs IH]; cbn; [apply keeps_ret |].
  apply keeps_bind; [apply Hbody | intros _; exact IH].
Qed.

Lemma keeps_validateKey key : keeps P (validateKey name key).
Proof.
  destruct key; try apply keeps_throw. cbn.
  destruct (String.eqb s ""); [apply keeps_throw | apply keeps_ret].
Qed.

Lemma keeps_validateValue value : keeps P (validateValue name value).
Proof. destruct value; first [apply keeps_throw | apply keeps_ret]. Qed.

End Keeps.

(** ** Every operation keeps what the primitive steps keep *)

Section StoreOperations.
Import BaseStore MemoryStore Invariant.
Context (P : Fields -> Prop).
Hypothesis P_cache_get : forall k, keeps P (cache_get k).
Hypothesis P_cache_delete : forall k, keeps P (cache_delete k).
Hypothesis P_cache_has : forall k, keeps P (cache_has k).
Hypothesis P_touch : forall k now,
  keeps P (on_fields (fun f => set_cache (LRUCache.poke k (set_lastAccessed now) (cache f)) f)).
Hypothesis P_write : forall k entry ttl,
  keeps P (cache_set k entry ttl ;;; on_fields (updateIndexes k entry)).
Hypothesis P_clear_all : keeps P clear_all.
Hypothesis P_drop_tag : forall tag,
  keeps P (on_fields (fun f => mkFields (cache f) (base.delete tag (tagIndex f))
                                 (dependencyIndex f))).
Hypothesis P_drop_dependency : forall dependency,
  keeps P (on_fields (fun f => mkFields (cache f) (tagIndex f)
                                 (base.delete dependency (dependencyIndex f)))).

Lemma keeps_cache_keys : keeps P cache_keys.
Proof. intros t s HP. exact HP. Qed.

Lemma keeps_delete_each keys : forall count, keeps P (delete_each keys count).
Proof.
  induction keys as [| key keys IH]; intros count; cbn; [apply keeps_ret |].
  apply keeps_bind; [apply P_cache_delete | intros deleted; apply IH].
Qed.

Lemma keeps_get key : keeps P (get key).
Proof.
  apply keeps_execute.
  apply keeps_bind; [apply keeps_validateKey |]. intros k.
  apply keeps_bind; [apply P_cache_get |]. intros [entry |]; [| apply keeps_ret].
  apply keeps_bind; [apply keeps_Date_now |]. intros now.
  destruct (isExpired now (createdAt entry) (ttl entry)).
  - apply keeps_bind; [apply P_cache_delete | intros _; apply keeps_ret].
  - apply keeps_bind; [apply keeps_Date_now |]. intros now'.
    apply keeps_bind; [apply P_touch | intros _; apply keeps_ret].
Qed.

Lemma keeps_set key value options : keeps P (set key value options).
Proof.
  apply keeps_execute.
  apply keeps_bind; [apply keeps_validateKey |]. intros k.
  apply keeps_bind; [apply keeps_validateValue |]. intros _.
  apply keeps_bind; [apply keeps_Date_now |]. intros created.
  apply keeps_bind; [apply keeps_Date_now |]. intros accessed.
  apply P_write.
Qed.

Lemma keeps_del key : keeps P (del key).
Proof.
  apply keeps_execute.
  apply keeps_bind; [apply keeps_validateKey | intros k; apply P_cache_delete].
Qed.

Lemma keeps_mget keys : keeps P (mget keys).
Proof.
  apply keeps_execute. generalize (@nil JsValue).
  induction keys as [| key keys IH]; intros results; cbn; [apply keeps_ret |].
  apply keeps_bind; [apply keeps_get | intros value; apply IH].
Qed.

Lemma keeps_mset pairs options : keeps P (mset pairs options).
Proof.
  apply keeps_execute. apply keeps_for_of. intros [key value]. apply keeps_set.
Qed.

Lemma keeps_clear : keeps P clear.
Proof. apply keeps_execute, P_clear_all. Qed.

Lemma keeps_exists key : keeps P (exists_ key).
Proof.
  apply keeps_execute.
  apply keeps_bind; [apply keeps_validateKey | intros k; apply P_cache_has].
Qed.

Lemma keeps_keys pattern : keeps P (keys pattern).
Proof.
  apply keeps_execute.
  apply keeps_bind; [apply keeps_cache_keys |]. intros allKeys.
  destruct pattern as [pattern |]; [| apply keeps_ret].
  destruct (String.eqb pattern ""); [apply keeps_ret |].
  destruct (RegExp.compile (Pattern.patternToRegex pattern));
    [apply keeps_ret | apply keeps_throw].
Qed.

Lemma keeps_invalidateByTag tag : keeps P (invalidateByTag tag).
Proof.
  apply keeps_execute.
  apply keeps_bind; [apply keeps_get_state |]. intros this.
  destruct (tagIndex (self this) !! tag) as [listed |]; [| apply keeps_ret].
  apply keeps_bind; [apply keeps_delete_each |]. intros count.
  apply keeps_bind; [apply P_drop_tag | intros _; apply keeps_ret].
Qed.

Lemma keeps_invalidateByPattern pattern : keeps P (invalidateByPattern pattern).
Proof.
  apply keeps_execute.
  apply keeps_bind; [apply keeps_keys | intros listed; apply keeps_delete_each].
Qed.

Lemma keeps_invalidateByDependency dependency :
  keeps P (invalidateByDependency dependency).
Proof.
  apply keeps_execute.
  apply keeps_bind; [apply keeps_get_state |]. intros this.
  destruct (dependencyIndex (self this) !! dependency) as [listed |]; [| apply keeps_ret].
  apply keeps_bind; [apply keeps_delete_each |]. intros count.
  apply keeps_bind; [apply P_drop_dependency | intros _; apply keeps_ret].
Qed.

Lemma keeps_step op t s : P (self s) -> P (self (step op t s)).
Proof.
  intros HP. destruct op; cbn [step].
  - apply keeps_get, HP.
  - apply keeps_set, HP.
  - apply keeps_del, HP.
  - apply keeps_mget, HP.
  - apply keeps_mset, HP.
  - apply keeps_clear, HP.
  - apply keeps_exists, HP.
  - apply keeps_keys, HP.
  - apply P_clear_all, HP.
  - apply keeps_invalidateByTag, HP.
  - apply keeps_invalidateByPattern, HP.
  - apply keeps_invalidateByDependency, HP.
Qed.

End StoreOperations.

(** ** The index invariant is kept by every operation *)

Section StoreInvariant.
Import BaseStore MemoryStore Invariant.
Implicit Types (f : Fields) (k : string) (e entry : CacheEntry).

Lemma invariant_same f c' :
  invariant f ->
  (forall k, LRUCache.lookup k c' = held f k) ->
  invariant (set_cache c' f).
Proof.
  intros [Htags Hdeps] Hsame.
  split; cbn; (eapply sound_mono; [eassumption |]);
    intros k e Hk; exists e; (split; [| reflexivity]);
    unfold held; cbn; rewrite Hsame; exact Hk.
Qed.

Lemma invariant_dispose f c' k e :
  invariant f -> held f k = Some e ->
  (forall k', LRUCache.lookup k' c' = if String.eqb k' k then None else held f k') ->
  invariant (dispose [(k, e)] (set_cache c' f)).
Proof.
  intros [Htags Hdeps] Hheld Hrest.
  split; cbn; (eapply sound_cleanup; [eassumption | exact Hheld |]);
    intros k'; unfold held; cbn; apply Hrest.
Qed.

Lemma invariant_cache_get k : keeps invariant (cache_get k).
Proof.
  intros t s Hinv. unfold cache_get.
  pose proof (get_effect t k (cache (self s))) as Heffect.
  destruct (LRUCache.get t k (cache (self s))) as [[found disposed] c'].
  cbn [snd self set_self].
  destruct Heffect as [(_ & -> & -> & _) | [(v & _ & -> & Hheld & Hrest) | (v & _ & -> & _ & Hsame)]].
  - cbn. destruct (self s). exact Hinv.
  - apply invariant_dispose; assumption.
  - cbn [dispose fold_left]. apply invariant_same; assumption.
Qed.

Lemma invariant_cache_delete k : keeps invariant (cache_delete k).
Proof.
  intros t s Hinv. unfold cache_delete.
  pose proof (delete_effect k (cache (self s))) as Heffect.
  destruct (LRUCache.delete k (cache (self s))) as [[deleted disposed] c'].
  cbn [snd self set_self].
  destruct Heffect as [(_ & -> & ->) | (v & _ & -> & Hheld & Hrest)].
  - cbn. destruct (self s). exact Hinv.
  - apply invariant_dispose; assumption.
Qed.

Lemma invariant_cache_has k : keeps invariant (cache_has k).
Proof.
  intros t s Hinv. unfold cache_has.
  pose proof (has_effect t k (cache (self s))) as Heffect.
  destruct (LRUCache.has t k (cache (self s))) as [present c'].
  cbn [snd self set_self] in *. apply invariant_same; assumption.
Qed.

Lemma invariant_touch k now :
  keeps invariant
    (on_fields (fun f => set_cache (LRUCache.poke k (set_lastAccessed now) (cache f)) f)).
Proof.
  intros t s [Htags Hdeps]. unfold on_fields, modify. cbn [snd self set_self].
  split; cbn; (eapply sound_mono; [eassumption |]);
    intros k' e Hk'; unfold held in *; cbn; rewrite poke_effect;
    (destruct (String.eqb k' k) eqn:Hk;
     [apply String.eqb_eq in Hk; subst k'; rewrite Hk'; cbn; eexists; split; reflexivity
     | exists e; split; [exact Hk' | reflexivity]]).
Qed.

Lemma invariant_intro c (ti di : gmap string (list string)) :
  sound tags ti (fun k => LRUCache.lookup k c) ->
  sound dependencies di (fun k => LRUCache.lookup k c) ->
  invariant (mkFields c ti di).
Proof. intros Htags Hdeps. split; assumption. Qed.

Lemma invariant_write k entry ttl :
  keeps invariant (cache_set k entry ttl ;;; on_fields (updateIndexes k entry)).
Proof.
  intros t s [Htags Hdeps]. unfold bind, cache_set, on_fields, modify.
  pose proof (set_effect t k entry ttl (cache (self s))) as Heffect.
  destruct (LRUCache.set t k entry ttl (cache (self s))) as [disposed c'].
  cbn [snd self set_self].
  assert (Hk : LRUCache.lookup k c' = Some entry).
  { destruct Heffect as [(_ & _ & Hall) | (k0 & v0 & _ & _ & _ & Hall)];
      rewrite Hall, String.eqb_refl; reflexivity. }
  assert (Hmid : forall labels index,
             sound labels index (held (self s)) ->
             sound labels
               (fold_left (fun index '(k0, v0) => over_labels (index_remove k0) (labels v0) index)
                  disposed index)
               (fun k' => LRUCache.lookup k' c')).
  { intros labels index Hsound.
    destruct Heffect as [(-> & Hmiss & Hall) | (k0 & v0 & -> & Hheld0 & Hcase & Hall)].
    - cbn [fold_left]. eapply sound_mono; [exact Hsound |].
      intros k' e Hk'. exists e. split; [| reflexivity]. rewrite Hall.
      destruct (String.eqb_spec k' k) as [-> | Hne]; [| exact Hk'].
      unfold held in Hk'. congruence.
    - cbn [fold_left]. eapply sound_mono.
      + eapply (sound_cleanup labels index (held (self s))
                  (fun k' => if String.eqb k' k0 then None else held (self s) k'));
          [exact Hsound | exact Hheld0 | reflexivity].
      + intros k' e Hk'. cbn in Hk'.
        destruct (String.eqb k' k0) eqn:Hk0; [discriminate |].
        exists e. split; [| reflexivity]. rewrite Hall, Hk0.
        destruct (String.eqb_spec k' k) as [-> | Hne]; [| exact Hk'].
        destruct Hcase as [-> | Hmiss].
        * rewrite String.eqb_refl in Hk0. discriminate.
        * unfold held in Hk'. congruence. }
  assert (Hdisposed :
            dispose disposed (set_cache c' (self s))
            = mkFields c'
                (fold_left (fun index '(k0, v0) => over_labels (index_remove k0) (tags v0) index)
                   disposed (tagIndex (self s)))
                (fold_left (fun index '(k0, v0) =>
                              over_labels (index_remove k0) (dependencies v0) index)
                   disposed (dependencyIndex (self s)))).
  { unfold set_cache. generalize (tagIndex (self s)), (dependencyIndex (self s)).
    clear. induction disposed as [| [k0 v0] disposed IH]; intros ti di; [reflexivity |].
    cbn [dispose fold_left]. unfold cleanupIndexes at 1. cbn [cache tagIndex dependencyIndex].
    apply IH. }
  rewrite Hdisposed. unfold updateIndexes. cbn [cache tagIndex dependencyIndex].
  apply invariant_intro; (apply sound_update; [| exact Hk]); apply Hmid; assumption.
Qed.

Lemma invariant_clear_all : keeps invariant clear_all.
Proof.
  intros t s _. unfold clear_all, bind, cache_clear, on_fields, modify.
  destruct (LRUCache.clear (cache (self s))) as [disposed c']. cbn.
  split; apply sound_empty.
Qed.

Lemma invariant_drop_tag tag :
  keeps invariant
    (on_fields (fun f => mkFields (cache f) (base.delete tag (tagIndex f)) (dependencyIndex f))).
Proof.
  intros t s [Htags Hdeps]. split; cbn; [apply sound_delete |]; assumption.
Qed.

Lemma invariant_drop_dependency dependency :
  keeps invariant
    (on_fields (fun f => mkFields (cache f) (tagIndex f)
                           (base.delete dependency (dependencyIndex f)))).
Proof.
  intros t s [Htags Hdeps]. split; cbn; [| apply sound_delete]; assumption.
Qed.

Lemma invariant_step op t s : invariant (self s) -> invariant (self (step op t s)).
Proof.
  apply keeps_step.
  - exact invariant_cache_get.
  - exact invariant_cache_delete.
  - exact invariant_cache_has.
  - exact invariant_touch.
  - exact invariant_write.
  - exact invariant_clear_all.
  - exact invariant_drop_tag.
  - exact invariant_drop_dependency.
Qed.

Lemma invariant_constructor config : invariant (self (constructor config)).
Proof.
  unfold constructor, BaseStore.constructor.
  destruct (cfg_circuitBreaker config) as [cfg |]; [destruct (enabled cfg) |];
    split; apply sound_empty.
Qed.

Lemma invariant_listed f :
  invariant f ->
  listed_keys_exist (tagIndex f) f /\ listed_keys_exist (dependencyIndex f) f.
Proof.
  intros [Htags Hdeps]. split; intros label listed Hlisted.
  - destruct (Htags label listed Hlisted) as [Hne Hmem]. split; [exact Hne |].
    intros k Hk. destruct (Hmem k Hk) as (e & ls & -> & _). eauto.
  - destruct (Hdeps label listed Hlisted) as [Hne Hmem]. split; [exact Hne |].
    intros k Hk. destruct (Hmem k Hk) as (e & ls & -> & _). eauto.
Qed.

Lemma probes_leave_holdings key pattern t s :
  same_holdings (self s) (self (snd (exists_ key t s)))
  /\ same_holdings (self s) (self (snd (keys pattern t s))).
Proof.
  split.
  - apply (keeps_exists (same_holdings (self s))).
    + intros k t0 s0 (Htags & Hdeps & Hheld). unfold cache_has.
      pose proof (has_effect t0 k (cache (self s0))) as Heffect.
      destruct (LRUCache.has t0 k (cache (self s0))) as [present c'].
      cbn [snd self set_self] in *.
      split; [exact Htags |]. split; [exact Hdeps |].
      intros k'. rewrite <- Hheld. unfold held. cbn. apply Heffect.
    + repeat split.
  - apply (keeps_keys (same_holdings (self s))). repeat split.
Qed.

(** C8 (as amended). In every reachable state of a MemoryStore every key
    listed in a bucket of the tag index or of the dependency index is held by
    the cache of the store, as a live entry or as an expired one that the
    cache has not disposed of yet, and no bucket is empty; so a key that the
    cache no longer holds, whether it was deleted, evicted, or disposed of on
    expiry, is listed in no bucket.  The invariant behind this (a listed key
    is held with an entry that carries the label of the bucket) holds after
    construction and is kept by every operation, at every clock reading.
    Expiry is lazy: [exists] and [keys] never remove an entry or a listing,
    so a key that they report as absent because it has expired stays held
    and listed. *)
Theorem index_invariant :
  (forall s, reachable s ->
     listed_keys_exist (tagIndex (self s)) (self s)
     /\ listed_keys_exist (dependencyIndex (self s)) (self s)
     /\ forall k, held (self s) k = None ->
          forall label listed,
            tagIndex (self s) !! label = Some listed
            \/ dependencyIndex (self s) !! label = Some listed ->
            ~ In k listed)
  /\ (forall config, invariant (self (constructor config)))
  /\ (forall op t s, invariant (self s) -> invariant (self (step op t s)))
  /\ (forall key pattern t s,
        same_holdings (self s) (self (snd (exists_ key t s)))
        /\ same_holdings (self s) (self (snd (keys pattern t s)))).
Proof.
  split; [| split; [exact invariant_constructor |
                    split; [exact invariant_step | exact probes_leave_holdings]]].
  intros s Hreach.
  assert (Hinv : invariant (self s)).
  { induction Hreach as [config | s op t _ IH];
      [apply invariant_constructor | apply invariant_step, IH]. }
  destruct (invariant_listed _ Hinv) as [Htags Hdeps].
  split; [exact Htags |]. split; [exact Hdeps |].
  intros k Hgone label listed [Hlisted | Hlisted] Hin.
  - destruct (proj2 (Htags label listed Hlisted) k Hin) as [e He]. congruence.
  - destruct (proj2 (Hdeps label listed Hlisted) k Hin) as [e He]. congruence.
Qed.

End StoreInvariant.

(** ** What a MemoryStore does to the clock, the breaker and the cache *)

Section StoreFrames.
Import BaseStore BreakerSteps MemoryStore.

Lemma frames_ret {X A} (a : A) : frames (ret a : M (Store X) A).
Proof. intros t s. cbn. auto. Qed.

Lemma frames_throw {X A} e : frames (throw e : M (Store X) A).
Proof. intros t s. cbn. auto. Qed.

Lemma frames_Date_now {X} : frames (Date_now : M (Store X) Z).
Proof. intros t s. cbn. auto. Qed.

Lemma frames_bind {X A B} (m : M (Store X) A) (k : A -> M (Store X) B) :
  frames m -> (forall a, frames (k a)) -> frames (bind m k).
Proof.
  intros Hm Hk t s. unfold bind. specialize (Hm t s).
  destruct (m t s) as [[[a | e] t1] s1]; [| exact Hm].
  destruct Hm as (-> & Hcb & Hcfg). specialize (Hk a t s1).
  destruct (k a t s1) as [[r t2] s2]. rewrite <- Hcb, <- Hcfg. exact Hk.
Qed.

Lemma frames_validateKey {X} key : frames (validateKey name key : M (Store X) string).
Proof.
  destruct key; try apply frames_throw. cbn.
  destruct (String.eqb s ""); [apply frames_throw | apply frames_ret].
Qed.

Lemma frames_validateValue {X} value : frames (validateValue name value : M (Store X) unit).
Proof. destruct value; first [apply frames_throw | apply frames_ret]. Qed.

Lemma frames_on_fields g : frames (on_fields g).
Proof. intros t s. cbn. auto. Qed.

Lemma frames_cache_get k : frames (cache_get k).
Proof.
  intros t s. unfold cache_get.
  destruct (LRUCache.get t k (cache (self s))) as [[found disposed] c]. cbn. auto.
Qed.

Lemma frames_cache_set k entry ttl : frames (cache_set k entry ttl).
Proof.
  intros t s. unfold cache_set.
  destruct (LRUCache.set t k entry ttl (cache (self s))) as [disposed c]. cbn. auto.
Qed.

Lemma frames_cache_delete k : frames (cache_delete k).
Proof.
  intros t s. unfold cache_delete.
  destruct (LRUCache.delete k (cache (self s))) as [[deleted disposed] c]. cbn. auto.
Qed.

Lemma cache_dispose disposed f : cache (dispose disposed f) = cache f.
Proof.
  revert f. induction disposed as [| [k e] disposed IH]; intros f; [reflexivity |].
  cbn [dispose fold_left]. fold (dispose disposed (cleanupIndexes k e f)).
  rewrite IH. reflexivity.
Qed.

(** The operations of the cache leave its default ttl alone. *)
Lemma get_default_ttl {V} now k (c : LRUCache.t V) :
  LRUCache.default_ttl (snd (LRUCache.get now k c)) = LRUCache.default_ttl c.
Proof.
  unfold LRUCache.get. destruct (LRUCache.find k (LRUCache.items c)) as [it |];
    [destruct (LRUCache.is_stale now it) |]; reflexivity.
Qed.

Lemma set_default_ttl {V} now k (v : V) ttl (c : LRUCache.t V) :
  LRUCache.default_ttl (snd (LRUCache.set now k v ttl c)) = LRUCache.default_ttl c.
Proof.
  unfold LRUCache.set. destruct (LRUCache.find k (LRUCache.items c)) as [old |];
    [reflexivity |].
  destruct (Nat.eqb (LRUCache.size c) (LRUCache.max c)); [| reflexivity].
  destruct (LRUCache.items c); reflexivity.
Qed.

Lemma delete_default_ttl {V} k (c : LRUCache.t V) :
  LRUCache.default_ttl (snd (LRUCache.delete k c)) = LRUCache.default_ttl c.
Proof.
  unfold LRUCache.delete. destruct (LRUCache.find k (LRUCache.items c)); reflexivity.
Qed.

Lemma has_default_ttl {V} now k (c : LRUCache.t V) :
  LRUCache.default_ttl (snd (LRUCache.has now k c)) = LRUCache.default_ttl c.
Proof.
  unfold LRUCache.has. destruct (LRUCache.find k (LRUCache.items c)) as [it |];
    [destruct (LRUCache.is_stale now it) |]; reflexivity.
Qed.

(** After [cache.set], the key is found with a fresh item. *)
Lemma set_find {V} now k (v : V) (c : LRUCache.t V) :
  LRUCache.find k (LRUCache.items (snd (LRUCache.set now k v None c)))
  = Some (LRUCache.mkItem k v (LRUCache.fresh_start now (LRUCache.default_ttl c))
            (LRUCache.default_ttl c)).
Proof.
  unfold LRUCache.set. cbn [default].
  destruct (LRUCache.find k (LRUCache.items c)) as [old |] eqn:Hfind.
  - cbn [snd LRUCache.items LRUCache.with_items].
    rewrite find_app, find_remove, String.eqb_refl, find_one. cbn.
    rewrite String.eqb_refl. reflexivity.
  - destruct (Nat.eqb (LRUCache.size c) (LRUCache.max c)).
    + destruct (LRUCache.items c) as [| lru rest] eqn:Hitems.
      * cbn. rewrite String.eqb_refl. reflexivity.
      * cbn [snd LRUCache.items LRUCache.with_items].
        rewrite find_app, find_remove, Hfind, find_one. cbn.
        rewrite String.eqb_refl. destruct (String.eqb k (LRUCache.key lru)); reflexivity.
    + cbn [snd LRUCache.items LRUCache.with_items].
      rewrite find_app, Hfind, find_one. cbn. rewrite String.eqb_refl. reflexivity.
Qed.

Lemma fresh_not_stale {V} now k (v : V) ttl :
  (0 <= ttl)%Z ->
  LRUCache.is_stale now (LRUCache.mkItem k v (LRUCache.fresh_start now ttl) ttl) = false.
Proof.
  intros Httl. unfold LRUCache.is_stale, LRUCache.fresh_start. cbn.
  destruct (ttl =? 0)%Z eqn:Hzero; [reflexivity |]. cbn.
  destruct (now =? 0)%Z; [reflexivity |]. cbn.
  apply Z.ltb_ge. lia.
Qed.

End StoreFrames.

(** ** The default ttl of a MemoryStore *)

Section DefaultTtl.
Import BaseStore MemoryStore Invariant.
Local Open Scope Z_scope.
Context (d : Z).

Lemma fixed_cache_get k : keeps (default_ttl_is d) (cache_get k).
Proof.
  intros t s Hd. unfold cache_get.
  pose proof (get_default_ttl t k (cache (self s))) as Hsame.
  destruct (LRUCache.get t k (cache (self s))) as [[found disposed] c].
  cbn [snd self set_self] in *. unfold default_ttl_is in *. rewrite cache_dispose. cbn. congruence.
Qed.

Lemma fixed_cache_set k entry ttl : keeps (default_ttl_is d) (cache_set k entry ttl).
Proof.
  intros t s Hd. unfold cache_set.
  pose proof (set_default_ttl t k entry ttl (cache (self s))) as Hsame.
  destruct (LRUCache.set t k entry ttl (cache (self s))) as [disposed c].
  cbn [snd self set_self] in *. unfold default_ttl_is in *. rewrite cache_dispose. cbn. congruence.
Qed.

Lemma fixed_cache_delete k : keeps (default_ttl_is d) (cache_delete k).
Proof.
  intros t s Hd. unfold cache_delete.
  pose proof (delete_default_ttl k (cache (self s))) as Hsame.
  destruct (LRUCache.delete k (cache (self s))) as [[deleted disposed] c].
  cbn [snd self set_self] in *. unfold default_ttl_is in *. rewrite cache_dispose. cbn. congruence.
Qed.

Lemma fixed_cache_has k : keeps (default_ttl_is d) (cache_has k).
Proof.
  intros t s Hd. unfold cache_has.
  pose proof (has_default_ttl t k (cache (self s))) as Hsame.
  destruct (LRUCache.has t k (cache (self s))) as [present c].
  cbn [snd self set_self] in *. unfold default_ttl_is in *. cbn. congruence.
Qed.

Lemma fixed_on_fields g :
  (forall f, LRUCache.default_ttl (cache (g f)) = LRUCache.default_ttl (cache f)) ->
  keeps (default_ttl_is d) (on_fields g).
Proof.
  intros Hg t s Hd. unfold on_fields, modify. cbn [snd self set_self].
  unfold default_ttl_is in *. rewrite Hg. exact Hd.
Qed.

Lemma fixed_clear_all : keeps (default_ttl_is d) clear_all.
Proof.
  unfold clear_all.
  apply keeps_bind; [| intros _; apply keeps_bind; [| intros _]];
    [| apply fixed_on_fields; reflexivity | apply fixed_on_fields; reflexivity].
  intros t s Hd. unfold cache_clear, LRUCache.clear. cbn [snd self set_self].
  unfold default_ttl_is in *. rewrite cache_dispose. exact Hd.
Qed.

(** Every operation of the store leaves the default ttl as it is. *)
Lemma fixed_step op t s : default_ttl_is d (self s) -> default_ttl_is d (self (step op t s)).
Proof.
  apply keeps_step.
  - exact fixed_cache_get.
  - exact fixed_cache_delete.
  - exact fixed_cache_has.
  - intros k now. apply fixed_on_fields. reflexivity.
  - intros k entry ttl. apply keeps_bind; [apply fixed_cache_set |].
    intros _. apply fixed_on_fields. reflexivity.
  - exact fixed_clear_all.
  - intros tag. apply fixed_on_fields. reflexivity.
  - intros dependency. apply fixed_on_fields. reflexivity.
Qed.

Lemma fixed_get key : keeps (default_ttl_is d) (get key).
Proof. intros t s. exact (fixed_step (CallGet key) t s). Qed.

End DefaultTtl.

Section ReachableTtl.
Import BaseStore MemoryStore Invariant.
Local Open Scope Z_scope.

(** The default ttl of a store is the one its constructor derived from the
    configuration; it is never negative. *)
Lemma reachable_default_ttl s :
  reachable s -> 0 <= LRUCache.default_ttl (cache (self s)).
Proof.
  induction 1 as [config | s op t Hs IH].
  - assert (Hself : self (constructor config)
                    = mkFields
                        (LRUCache.create (or_default (cfg_max config) 1000)
                           (default 0 (to_millis (Z.of_N <$> cfg_ttl config)))) ∅ ∅).
    { unfold constructor, BaseStore.constructor.
      destruct (cfg_circuitBreaker config) as [cfg |]; [destruct (enabled cfg) |]; reflexivity. }
    rewrite Hself. cbn [cache LRUCache.create LRUCache.default_ttl]. unfold to_millis.
    destruct (cfg_ttl config) as [n |]; cbn [fmap option_fmap option_map default]; [| lia].
    destruct (Z.of_N n =? 0); cbn [default]; unfold id; lia.
  - pose proof (fixed_step (LRUCache.default_ttl (cache (self s))) op t s eq_refl) as Hsame.
    unfold default_ttl_is in Hsame. rewrite Hsame. exact IH.
Qed.

End ReachableTtl.

Section Promotion.
Import BaseStore BreakerSteps MemoryStore FanOut.

Lemma frames_get_body key :
  frames (k <- validateKey name key ;;
          entry <- cache_get k ;;
          match entry with
          | None => ret VNull
          | Some entry =>
              now <- Date_now ;;
              if isExpired now (createdAt entry) (ttl entry)
              then cache_delete k ;;; ret VNull
              else
                now' <- Date_now ;;
                on_fields (fun f => set_cache (LRUCache.poke k (set_lastAccessed now') (cache f)) f) ;;;
                ret (value entry)
          end).
Proof.
  apply frames_bind; [apply frames_validateKey |]. intros k.
  apply frames_bind; [apply frames_cache_get |]. intros [entry |]; [| apply frames_ret].
  apply frames_bind; [apply frames_Date_now |]. intros now.
  destruct (isExpired now (createdAt entry) (ttl entry)).
  - apply frames_bind; [apply frames_cache_delete | intros _; apply frames_ret].
  - apply frames_bind; [apply frames_Date_now |]. intros now'.
    apply frames_bind; [apply frames_on_fields | intros _; apply frames_ret].
Qed.

Lemma frames_set_body key value options :
  frames (k <- validateKey name key ;;
          validateValue name value ;;;
          created <- Date_now ;;
          accessed <- Date_now ;;
          let entry :=
            mkEntry value (options ≫= opt_ttl) created accessed
              (options ≫= opt_tags) (options ≫= opt_dependencies)
              (options ≫= opt_compress) (options ≫= opt_serialize) in
          cache_set k entry (to_millis (options ≫= opt_ttl)) ;;;
          on_fields (updateIndexes k entry)).
Proof.
  apply frames_bind; [apply frames_validateKey |]. intros k.
  apply frames_bind; [apply frames_validateValue |]. intros _.
  apply frames_bind; [apply frames_Date_now |]. intros created.
  apply frames_bind; [apply frames_Date_now |]. intros accessed.
  apply frames_bind; [apply frames_cache_set | intros _; apply frames_on_fields].
Qed.

(** A [get] that returns has a valid key, took no time, and leaves the store
    ready for the next call. *)
Lemma get_returned key t (A : MemoryStore) v t1 A1 :
  get key t A = (Ok v, t1, A1) ->
  t1 = t
  /\ (exists k, key = VStr k /\ String.eqb k "" = false)
  /\ ready A1
  /\ LRUCache.default_ttl (cache (self A1)) = LRUCache.default_ttl (cache (self A)).
Proof.
  intros Hget.
  pose proof (fixed_get (LRUCache.default_ttl (cache (self A))) key t A eq_refl)
    as Httl.
  rewrite Hget in Httl. cbn [snd] in Httl.
  unfold get in Hget. apply execute_ok_inv in Hget as (s0 & s' & Hself & Hop & Hself1 & Hready).
  pose proof (frames_get_body key t s0) as Hframe. rewrite Hop in Hframe.
  destruct Hframe as (-> & Hcb & Hcfg).
  split; [reflexivity |]. split; [| split; [exact (Hready Hcb Hcfg) | exact Httl]].
  destruct key; try (cbn in Hop; discriminate).
  exists s. split; [reflexivity |].
  destruct (String.eqb s "") eqn:Hs; [| reflexivity].
  unfold bind, validateKey in Hop. rewrite Hs in Hop. cbn in Hop. discriminate.
Qed.

(** A value written to a ready store is read back at once. *)
Lemma set_then_get k v t (A1 : MemoryStore) :
  ready A1 -> String.eqb k "" = false -> v <> VUndefined ->
  (0 <= LRUCache.default_ttl (cache (self A1)))%Z ->
  exists A3,
    set (VStr k) v None t A1 = (Ok tt, t, A3)
    /\ outcome (get (VStr k) t A3) = Ok v.
Proof.
  intros Hready Hk Hv Httl.
  set (entry := mkEntry v None t t None None None None).
  destruct (LRUCache.set t k entry None (cache (self A1))) as [disposed c'] eqn:Hset.
  set (A2 := set_self (updateIndexes k entry (dispose disposed (set_cache c' (self A1)))) A1).
  assert (Hbody :
            (key <- validateKey name (VStr k) ;;
             validateValue name v ;;;
             created <- Date_now ;;
             accessed <- Date_now ;;
             let entry :=
               mkEntry v (None ≫= opt_ttl) created accessed
                 (None ≫= opt_tags) (None ≫= opt_dependencies)
                 (None ≫= opt_compress) (None ≫= opt_serialize) in
             cache_set key entry (to_millis (None ≫= opt_ttl)) ;;;
             on_fields (updateIndexes key entry)) t A1
            = (Ok tt, t, A2)).
  { unfold bind at 1. unfold validateKey. rewrite Hk. cbn [ret].
    unfold bind at 1.
    replace (validateValue name v t A1) with (Ok tt, t, A1)
      by (destruct v; try reflexivity; contradiction).
    unfold bind, Date_now, cache_set, on_fields, modify. cbn [mbind option_bind to_millis].
    fold entry. rewrite Hset. reflexivity. }
  destruct (execute_ready_ok _ t A1 tt t A2 Hready Hbody eq_refl eq_refl)
    as (A3 & Hrun & Hself3 & Hready3).
  exists A3. split; [exact Hrun |].
  assert (Hfound : LRUCache.get t k (cache (self A3))
                   = (Some entry, [],
                      LRUCache.with_items c'
                        (LRUCache.remove k (LRUCache.items c')
                         ++ [LRUCache.mkItem k entry
                               (LRUCache.fresh_start t (LRUCache.default_ttl (cache (self A1))))
                               (LRUCache.default_ttl (cache (self A1)))]))).
  { rewrite Hself3. unfold A2. cbn [self set_self]. unfold updateIndexes. cbn [cache].
    rewrite cache_dispose. cbn [cache set_cache].
    pose proof (set_find t k entry (cache (self A1))) as Hfind. rewrite Hset in Hfind.
    cbn [snd] in Hfind. unfold LRUCache.get. rewrite Hfind.
    rewrite fresh_not_stale by exact Httl. reflexivity. }
  assert (Hread :
            exists A4,
              (key <- validateKey name (VStr k) ;;
               found <- cache_get key ;;
               match found with
               | None => ret VNull
               | Some found =>
                   now <- Date_now ;;
                   if isExpired now (createdAt found) (ttl found)
                   then cache_delete key ;;; ret VNull
                   else
                     now' <- Date_now ;;
                     on_fields (fun f => set_cache (LRUCache.poke key (set_lastAccessed now')
                                                      (cache f)) f) ;;;
                     ret (value found)
               end) t A3 = (Ok v, t, A4)).
  { unfold bind at 1. unfold validateKey. rewrite Hk. cbn [ret].
    unfold bind at 1. unfold cache_get. rewrite Hfound.
    unfold bind, Date_now, on_fields, modify, ret. cbn. eexists. reflexivity. }
  destruct Hread as (A4 & Hread).
  pose proof (frames_get_body (VStr k) t A3) as Hframe. rewrite Hread in Hframe.
  destruct Hframe as (_ & Hcb & Hcfg).
  destruct (execute_ready_ok _ t A3 v t A4 Hready3 Hread Hcb Hcfg) as (A5 & Hget & _).
  unfold get. rewrite Hget. reflexivity.
Qed.

End Promotion.

Section ReadThrough.
Import BaseStore BreakerSteps.

Lemma layered_get_promotes {St : Type} `{IStore St} (A B : St) key v t t1 A1 t2 B2 :
  store_get key t A = (Ok VNull, t1, A1) ->
  store_get key t1 B = (Ok v, t2, B2) -> v <> VNull ->
  exists written t3 A3,
    store_set key v None t2 A1 = (written, t3, A3)
    /\ LayeredStrategy.get key t [A; B] = (Ok v, t3, [A3; B2]).
Proof.
  intros HA HB Hv.
  destruct (store_set key v None t2 A1) as [[written t3] A3] eqn:Hset.
  exists written, t3, A3. split; [reflexivity |].
  unfold LayeredStrategy.get, bind at 1, get_state. cbn [length LayeredStrategy.get_from].
  unfold bind at 1. unfold try_catch at 1. unfold bind at 1.
  unfold on_store at 1. cbn [lookup list_lookup]. rewrite HA.
  cbn -[LayeredStrategy.promoteValue].
  unfold bind at 1. unfold try_catch at 1. unfold bind at 1.
  unfold on_store at 1. cbn -[LayeredStrategy.promoteValue]. rewrite HB.
  cbn -[LayeredStrategy.promoteValue].
  assert (Hpromote : LayeredStrategy.promoteValue key v 1 t2 [A1; B2] = (Ok tt, t3, [A3; B2])).
  { unfold LayeredStrategy.promoteValue. cbn [seq for_of]. unfold bind, try_catch, on_store.
    cbn. rewrite Hset. destruct written as [[] | e]; reflexivity. }
  destruct v; try contradiction; unfold bind; rewrite Hpromote; reflexivity.
Qed.

(** C5. With the chain [A; B], a key that [A] misses and [B] holds with a value
    [v] is read as [v] from the layered strategy, which also writes [v] to
    [A]; whether or not that write succeeds, the read returns [v].  When [A]
    is a MemoryStore, in any state that its constructor and operations can
    produce, the write succeeds, and a direct read of [A] afterwards returns
    [v] as well. *)
Theorem read_through_promotion :
  (forall (St : Type) (I : IStore St) (A B : St) key v t t1 A1 t2 B2,
      store_get key t A = (Ok VNull, t1, A1) ->
      store_get key t1 B = (Ok v, t2, B2) -> v <> VNull ->
      exists written t3 A3,
        store_set key v None t2 A1 = (written, t3, A3)
        /\ LayeredStrategy.get key t [A; B] = (Ok v, t3, [A3; B2]))
  /\ (forall (X : Type) (I : IStore X) (A : MemoryStore.MemoryStore) (B : X)
             key v t t1 A1 t2 B2,
      Invariant.reachable A ->
      MemoryStore.get key t A = (Ok VNull, t1, A1) ->
      store_get key t1 B = (Ok v, t2, B2) -> v <> VNull -> v <> VUndefined ->
      exists A3,
        LayeredStrategy.get key t [inl A; inr B] = (Ok v, t2, [inl A3; inr B2])
        /\ MemoryStore.set key v None t2 A1 = (Ok tt, t2, A3)
        /\ outcome (MemoryStore.get key t2 A3) = Ok v).
Proof.
  split.
  - intros St I A B key v t t1 A1 t2 B2. apply layered_get_promotes.
  - intros X I A B key v t t1 A1 t2 B2 Hnew HA HB Hv Hdef.
    pose proof (reachable_default_ttl A Hnew) as Httl.
    destruct (get_returned _ _ _ _ _ _ HA) as (-> & (k & -> & Hk) & Hready & Hsame).
    rewrite <- Hsame in Httl.
    destruct (set_then_get k v t2 A1 Hready Hk Hdef Httl) as (A3 & Hset & Hget).
    exists A3. split; [| split; assumption].
    destruct (layered_get_promotes (inl A) (inr B) (VStr k) v t t (inl A1) t2 (inr B2))
      as (written & t3 & A3' & Hwrite & Hlayered).
    + change (store_get (VStr k) t (inl A))
        with (let '(r, t', a') := MemoryStore.get (VStr k) t A in
              (r, t', @inl MemoryStore.MemoryStore X a')).
      rewrite HA. reflexivity.
    + change (store_get (VStr k) t (inr B))
        with (let '(r, t', b') := store_get (VStr k) t B in
              (r, t', @inr MemoryStore.MemoryStore X b')).
      rewrite HB. reflexivity.
    + exact Hv.
    + change (store_set (VStr k) v None t2 (inl A1))
        with (let '(r, t', a') := MemoryStore.set (VStr k) v None t2 A1 in
              (r, t', @inl MemoryStore.MemoryStore X a')) in Hwrite.
      rewrite Hset in Hwrite. injection Hwrite as <- <- <-. exact Hlayered.
Qed.

End ReadThrough.

(** ** Invalid keys and undefined values *)

Section Rejection.
Import BaseStore BreakerSteps FanOut.
Context {St : Type} `{IStore St}.

Lemma get_from_all_throw key :
  always_throws (store_get key) ->
  forall rest pre t,
  exists t' rest',
    LayeredStrategy.get_from (length rest) (length pre) key t (pre ++ rest)
    = (Ok VNull, t', pre ++ rest').
Proof.
  intros Hthrows. induction rest as [| s rest IH]; intros pre t.
  { exists t, []. reflexivity. }
  cbn [length LayeredStrategy.get_from].
  unfold bind at 1. unfold try_catch. unfold bind at 1. rewrite on_store_middle.
  destruct (Hthrows t s) as (e & t1 & s' & ->).
  destruct (IH (pre ++ [s']) t1) as (t' & rest' & Hrest).
  exists t', (s' :: rest'). cbn.
  rewrite snoc_middle, <- length_snoc with (s := s'), Hrest, <- snoc_middle. reflexivity.
Qed.

Lemma del_from_all_throw key :
  always_throws (store_del key) ->
  forall rest pre deleted t,
  exists t' rest',
    LayeredStrategy.del_from (length rest) (length pre) key deleted t (pre ++ rest)
    = (Ok deleted, t', pre ++ rest').
Proof.
  intros Hthrows. induction rest as [| s rest IH]; intros pre deleted t.
  { exists t, []. reflexivity. }
  cbn [length LayeredStrategy.del_from].
  unfold bind at 1. unfold try_catch. unfold bind at 1. rewrite on_store_middle.
  destruct (Hthrows t s) as (e & t1 & s' & ->).
  destruct (IH (pre ++ [s']) deleted t1) as (t' & rest' & Hrest).
  exists t', (s' :: rest'). cbn.
  rewrite snoc_middle, <- length_snoc with (s := s'), Hrest, <- snoc_middle. reflexivity.
Qed.

Lemma polls_all_throw key :
  always_throws (store_exists key) ->
  forall t stores b t' stores', polls key t stores b t' stores' -> b = false.
Proof.
  intros Hthrows t stores b t' stores' Hpolls.
  induction Hpolls as [| t s rest t' s' Hfound | ]; [reflexivity | | assumption].
  destruct (Hthrows t s) as (e & t1 & s1 & Heq). congruence.
Qed.

Lemma each_store_all_fail {A} (call : M St A) :
  always_throws call ->
  forall stores t, forallb failed (each_store call t stores).1.1 = true.
Proof.
  intros Hthrows. induction stores as [| s rest IH]; intros t; [reflexivity |].
  cbn [each_store]. destruct (Hthrows t s) as (e & t1 & s' & ->).
  specialize (IH t1). destruct (each_store call t1 rest) as [[rs t2] rest'].
  cbn in *. exact IH.
Qed.

Lemma withMetrics_outcome {A} (operation : M (@CacheManager.t St) A) t manager :
  outcome (CacheManager.withMetrics operation t manager) = outcome (operation t manager).
Proof.
  unfold CacheManager.withMetrics, bind, try_catch, Date_now, CacheManager.on_metrics,
    modify, ret, throw, outcome.
  destruct (operation t manager) as [[[a | e] t'] m']; reflexivity.
Qed.

Lemma on_stores_outcome {A} (m : M (list St) A) t manager :
  outcome (CacheManager.on_stores m t manager) = outcome (m t (CacheManager.stores manager)).
Proof.
  unfold CacheManager.on_stores, focus, outcome.
  destruct (m t (CacheManager.stores manager)) as [[r t'] l]. reflexivity.
Qed.

Lemma layered_get_all_throw key t stores :
  always_throws (store_get key) ->
  exists t' stores', LayeredStrategy.get key t stores = (Ok VNull, t', stores').
Proof.
  intros Hthrows.
  destruct (get_from_all_throw key Hthrows stores [] t) as (t' & rest' & Hloop).
  cbn [length app] in Hloop. exists t', rest'.
  unfold LayeredStrategy.get, bind at 1, get_state. exact Hloop.
Qed.

Lemma manager_get_all_throw key t manager :
  always_throws (store_get key) ->
  outcome (CacheManager.get key t manager) = Ok VNull.
Proof.
  intros Hthrows. unfold CacheManager.get. rewrite withMetrics_outcome.
  destruct (layered_get_all_throw key t (CacheManager.stores manager) Hthrows)
    as (t' & stores' & Hget).
  unfold bind at 1, CacheManager.on_stores, focus. rewrite Hget. reflexivity.
Qed.

Lemma manager_del_all_throw key t manager :
  always_throws (store_del key) ->
  outcome (CacheManager.del key t manager) = Ok false.
Proof.
  intros Hthrows. unfold CacheManager.del. rewrite withMetrics_outcome, on_stores_outcome.
  unfold LayeredStrategy.del, bind at 1, get_state.
  destruct (del_from_all_throw key Hthrows (CacheManager.stores manager) [] false t)
    as (t' & rest' & Hloop).
  cbn [length app] in Hloop. rewrite Hloop. reflexivity.
Qed.

Lemma manager_set_all_throw key value options t manager :
  always_throws (store_set key value options) ->
  exists reasons,
    outcome (CacheManager.set key value options t manager)
    = Throw (Error ("Failed to set key " ++ js_String key ++ " in all stores: " ++ reasons)).
Proof.
  intros Hthrows. unfold CacheManager.set. rewrite withMetrics_outcome, on_stores_outcome.
  pose proof (fan_out_write (store_set key value options)
                (fun joined => Error ("Failed to set key " ++ js_String key
                                      ++ " in all stores: " ++ joined))
                t (CacheManager.stores manager)) as Hset.
  pose proof (each_store_all_fail _ Hthrows (CacheManager.stores manager) t) as Hall.
  destruct (each_store (store_set key value options) t (CacheManager.stores manager))
    as [[rs t'] stores'].
  cbn [fst] in Hall. unfold LayeredStrategy.set. rewrite Hset, Hall. eexists. reflexivity.
Qed.

End Rejection.

Section MemoryRejection.
Import BaseStore BreakerSteps MemoryStore FanOut.
Local Open Scope Z_scope.

Lemma validateKey_invalid {S} key t (s : S) :
  is_valid_key key = false -> validateKey name key t s = (Throw key_error, t, s).
Proof.
  intros Hkey. destruct key; try reflexivity. cbn in *.
  destruct (String.eqb s0 ""); [reflexivity | discriminate].
Qed.

Lemma validateKey_valid {S} key t (s : S) :
  is_valid_key key = true -> exists k, validateKey name key t s = (Ok k, t, s).
Proof.
  intros Hkey. destruct key; try discriminate. cbn in *.
  destruct (String.eqb s0 ""); [discriminate | eauto].
Qed.

Lemma memory_get_rejects key t (s : MemoryStore) :
  is_valid_key key = false ->
  exists e s', get key t s = (Throw e, t, s') /\ self s' = self s /\ (ready s -> e = key_error).
Proof.
  intros Hkey. apply execute_throws. intros s0.
  unfold bind. rewrite validateKey_invalid by exact Hkey. reflexivity.
Qed.

Lemma memory_del_rejects key t (s : MemoryStore) :
  is_valid_key key = false ->
  exists e s', del key t s = (Throw e, t, s') /\ self s' = self s /\ (ready s -> e = key_error).
Proof.
  intros Hkey. apply execute_throws. intros s0.
  unfold bind. rewrite validateKey_invalid by exact Hkey. reflexivity.
Qed.

Lemma memory_exists_rejects key t (s : MemoryStore) :
  is_valid_key key = false ->
  exists e s',
    exists_ key t s = (Throw e, t, s') /\ self s' = self s /\ (ready s -> e = key_error).
Proof.
  intros Hkey. apply execute_throws. intros s0.
  unfold bind. rewrite validateKey_invalid by exact Hkey. reflexivity.
Qed.

Lemma memory_set_rejects key value options t (s : MemoryStore) :
  is_valid_key key = false \/ value = VUndefined ->
  exists e s',
    set key value options t s = (Throw e, t, s') /\ self s' = self s
    /\ (ready s ->
        e = if is_valid_key key then value_error else key_error).
Proof.
  intros Hbad. apply execute_throws. intros s0.
  destruct (is_valid_key key) eqn:Hkey.
  - destruct Hbad as [? | ->]; [discriminate |].
    destruct (validateKey_valid key t s0 Hkey) as (k & Hk).
    unfold bind. rewrite Hk. reflexivity.
  - unfold bind. rewrite validateKey_invalid by exact Hkey. reflexivity.
Qed.

Lemma manager_exists_all_throw key t (manager : @CacheManager.t MemoryStore) :
  is_valid_key key = false ->
  outcome (CacheManager.exists_ key t manager) = Ok false.
Proof.
  intros Hkey. unfold CacheManager.exists_. rewrite withMetrics_outcome, on_stores_outcome.
  destruct (exists_from_polls key (CacheManager.stores manager) [] t)
    as (b & t' & stores' & Hrun & Hpolls).
  cbn [length app] in Hrun. unfold bind at 1, get_state. rewrite Hrun.
  apply polls_all_throw in Hpolls as ->; [reflexivity |].
  intros t0 s. destruct (memory_exists_rejects key t0 s Hkey) as (e & s' & Heq & _).
  exists e, t0, s'. exact Heq.
Qed.

End MemoryRejection.

(** ** Cascading dependency invalidation *)

Section Cascade.
Import BaseStore BreakerSteps DependencyInvalidator Cyclic.
Local Open Scope Z_scope.

Lemma out_of_fuel_propagates {S} (m : M S (option Z)) (k : Z -> M S (option Z)) t s :
  outcome (m t s) = Ok None ->
  outcome ((count <- m ;;
            match count with
            | Some count => k count
            | None => ret None
            end) t s) = Ok None.
Proof.
  unfold outcome, bind. destruct (m t s) as [[[[c |] | e] t'] s']; cbn; congruence.
Qed.

Lemma cyclic_native dep s :
  (dep = VStr "A" \/ dep = VStr "B") -> (s = store \/ s = store_read) ->
  map_stores (per_store dep) 1 0 2000 [s] = (Ok [0], 2000, [s]).
Proof. intros [-> | ->] [-> | ->]; vm_compute; reflexivity. Qed.

Lemma cyclic_children dep s :
  (dep = VStr "A" \/ dep = VStr "B") -> (s = store \/ s = store_read) ->
  findChildDependencies dep 2000 [s]
  = (Ok [if js_eqb dep (VStr "A") then VStr "B" else VStr "A"], 2000, [store_read]).
Proof. intros [-> | ->] [-> | ->]; vm_compute; reflexivity. Qed.

Lemma cyclic_out_of_fuel fuel :
  forall dep s,
    (dep = VStr "A" \/ dep = VStr "B") -> (s = store \/ s = store_read) ->
    outcome (invalidateByDependency fuel dep cascading 2000 [s]) = Ok None.
Proof.
  induction fuel as [| fuel IH]; intros dep s Hdep Hs; [reflexivity |].
  cbn [invalidateByDependency].
  unfold bind at 1, get_state. cbn [length].
  unfold bind at 1. rewrite (cyclic_native dep s Hdep Hs).
  cbn [wants_async wants_cascade cascading mbind option_bind async cascade].
  unfold bind at 1. unfold cascadeInvalidation. unfold bind at 1.
  rewrite (cyclic_children dep s Hdep Hs).
  cbn [sum_children with_cascade].
  assert (Hchild : outcome (invalidateByDependency fuel
                              (if js_eqb dep (VStr "A") then VStr "B" else VStr "A")
                              cascading 2000 [store_read]) = Ok None).
  { apply IH; [| right; reflexivity].
    destruct Hdep as [-> | ->]; [right | left]; reflexivity. }
  unfold outcome in *. unfold bind at 1.
  change (with_cascade true cascading) with cascading.
  destruct (invalidateByDependency fuel _ cascading 2000 [store_read])
    as [[r t'] s'] eqn:Hrun.
  cbn [fst] in Hchild. subst r. reflexivity.
Qed.

(** The revised copy of the class returns on the same store: the second visit
    of [A] is skipped with a warning and counts for nothing. *)
Lemma visited_set_breaks_cycle fuel :
  outcome (VisitedDependencyInvalidator.invalidateByDependency (3 + fuel) (VStr "A")
             cascading 2000 [store])
  = Ok (Some 0,
        ["Circular dependency detected: A. Skipping to prevent infinite recursion."%string]).
Proof. vm_compute. reflexivity. Qed.

(** C1 (failing input). [invalidateByDependency] as written keeps no visited
    set.  On the store whose only entry has the value
    [{ dependencies: ['A', 'B'] }], invalidating [A] with [cascade] finds the
    child [B], whose invalidation finds the child [A], and so on: whatever
    number of nested calls is allowed, the call does not return. *)
Theorem cascade_without_visited_set_diverges :
  forall fuel,
    outcome (invalidateByDependency fuel (VStr "A") cascading 2000 [store]) = Ok None.
Proof.
  intros fuel. apply cyclic_out_of_fuel; left; reflexivity.
Qed.

End Cascade.

(** ** The properties on concrete stores *)

Section Witnesses.
Import BaseStore BreakerSteps MemoryStore Invariant Example.
Local Open Scope Z_scope.

(** C3 (counterexample). Reading the empty key, or a key that is not a string,
    through the cache manager raises nothing: the call returns null. *)
Lemma get_with_invalid_key_returns_null :
  outcome (CacheManager.get (VStr "") 2000 example_manager) = Ok VNull
  /\ outcome (CacheManager.get (VNum 7) 2000 example_manager) = Ok VNull
  /\ ~ exists e, outcome (CacheManager.get (VStr "") 2000 example_manager) = Throw e.
Proof.
  split; [vm_compute; reflexivity |]. split; [vm_compute; reflexivity |].
  intros [e He]. vm_compute in He. discriminate.
Qed.

Lemma read_through_promotion_witness :
  exists A3,
    LayeredStrategy.get (VStr "user:1") 2000 [inl empty_store; inr user_store]
    = (Ok (VStr "user1"), 2000,
       [inl A3; inr (snd (MemoryStore.get (VStr "user:1") 2000 user_store))])
    /\ MemoryStore.set (VStr "user:1") (VStr "user1") None 2000
         (snd (MemoryStore.get (VStr "user:1") 2000 empty_store))
       = (Ok tt, 2000, A3)
    /\ outcome (MemoryStore.get (VStr "user:1") 2000 A3) = Ok (VStr "user1").
Proof.
  apply (proj2 read_through_promotion MemoryStore _ empty_store user_store
           (VStr "user:1") (VStr "user1") 2000 2000
           (snd (MemoryStore.get (VStr "user:1") 2000 empty_store)) 2000
           (snd (MemoryStore.get (VStr "user:1") 2000 user_store))).
  - exact (Invariant.reachable_new Example.config).
  - vm_compute. reflexivity.
  - vm_compute. reflexivity.
  - discriminate.
  - discriminate.
Defined.

(** C8 (counterexample). The store that holds [user:1] with the tags [user]
    and [active], written at clock 1000 under the default ttl of 300 s, is
    reachable.  At clock 400000 the entry has expired: [exists] returns
    false for the key and [keys] lists nothing.  The bucket of [user] lists
    the key all the same, before and after that [exists], and
    [invalidateByTag] counts it. *)
Lemma expired_key_stays_listed :
  reachable user_store
  /\ tagIndex (self user_store) !! "user"%string = Some ["user:1"%string]
  /\ outcome (exists_ (VStr "user:1") 400000 user_store) = Ok false
  /\ outcome (keys None 400000 user_store) = Ok []
  /\ tagIndex (self (final (exists_ (VStr "user:1") 400000 user_store))) !! "user"%string
     = Some ["user:1"%string]
  /\ outcome (invalidateByTag "user" 400000 user_store) = Ok 1
  /\ ~ (forall s, reachable s ->
          forall label listed k,
            tagIndex (self s) !! label = Some listed -> In k listed ->
            outcome (exists_ (VStr k) 400000 s) = Ok true).
Proof.
  assert (Hreach : reachable user_store).
  { exact (reachable_step empty_store (CallSet (VStr "user:1") (VStr "user1") tagged) 1000
             (reachable_new config)). }
  split; [exact Hreach |].
  split; [vm_compute; reflexivity |].
  split; [vm_compute; reflexivity |].
  split; [vm_compute; reflexivity |].
  split; [vm_compute; reflexivity |].
  split; [vm_compute; reflexivity |].
  intros Hall.
  specialize (Hall user_store Hreach "user"%string ["user:1"%string] "user:1"%string).
  assert (Hno : outcome (exists_ (VStr "user:1") 400000 user_store) = Ok false)
    by (vm_compute; reflexivity).
  rewrite Hno in Hall.
  assert (Hyes : Ok false = Ok true :> Result bool);
    [apply Hall; [vm_compute; reflexivity | left; reflexivity] | discriminate].
Qed.

Lemma index_invariant_witness :
  reachable user_store
  /\ listed_keys_exist (tagIndex (self user_store)) (self user_store)
  /\ listed_keys_exist (dependencyIndex (self user_store)) (self user_store).
Proof.
  assert (Hreach : reachable user_store).
  { exact (reachable_step empty_store (CallSet (VStr "user:1") (VStr "user1") tagged) 1000
             (reachable_new config)). }
  split; [exact Hreach |].
  destruct (proj1 index_invariant user_store Hreach) as (Htags & Hdeps & _).
  split; assumption.
Defined.

Lemma manager_exists_polls_by_priority_witness :
  StronglySorted LayeredStrategy.by_priority (CacheManager.stores example_manager)
  /\ Permutation [user_store] (CacheManager.stores example_manager).
Proof.
  apply (proj2 (manager_exists_polls_by_priority (VStr "user:1") 2000 example_manager)
           1000 [user_store] example_manager).
  reflexivity.
Defined.

End Witnesses.
(** * Further properties of the code *)

(** ** Calls on a store whose breaker lets them through *)

Section ReadyCalls.
Import BaseStore BreakerSteps.
Context {X T : Type}.

(** On a ready store a wrapped call is its operation: same outcome, same
    clock, same fields; and the store stays ready when the call returns. *)
Lemma execute_ready_frames (operation : M (Store X) T) t s :
  ready s -> frames operation ->
  exists s1,
    executeWithCircuitBreaker operation t s
    = (outcome (operation t s), t, s1)
    /\ self s1 = self (final (operation t s))
    /\ (FanOut.failed (outcome (operation t s)) = false -> ready s1).
Proof.
  intros Hready Hframes. specialize (Hframes t s).
  destruct (operation t s) as [[r t'] s'] eqn:Hop.
  destruct Hframes as (-> & Hcb & Hcfg). cbn [outcome final fst snd].
  destruct (circuitBreaker s) as [cb |] eqn:Hb.
  2:{ exists s'. rewrite execute_no_breaker by (left; exact Hb).
      rewrite Hop. split; [reflexivity |]. split; [reflexivity |].
      intros _. unfold ready. rewrite Hcb. exact I. }
  destruct (circuitBreakerConfig s) as [cfg |] eqn:Hc.
  2:{ exists s'. rewrite execute_no_breaker by (right; exact Hc).
      rewrite Hop. split; [reflexivity |]. split; [reflexivity |].
      intros _. unfold ready. rewrite Hcb, Hcfg. exact I. }
  assert (Hclosed : isOpen cb = false).
  { unfold ready in Hready. rewrite Hb, Hc in Hready. exact Hready. }
  destruct r as [r | e].
  - rewrite (execute_closed_success operation t s cb cfg r t s' cb Hb Hc Hclosed Hop Hcb).
    eexists. split; [reflexivity |]. split; [reflexivity |].
    intros _. unfold ready. cbn. rewrite Hcfg. exact Hclosed.
  - rewrite (execute_closed_failure operation t s cb cfg e t s' cb cfg Hb Hc Hclosed Hop Hcb Hcfg).
    eexists. split; [reflexivity |]. split; [reflexivity |].
    cbn. discriminate.
Qed.

End ReadyCalls.

(** ** The methods of MemoryStore on a ready store *)

Section StoreCalls.
Import BaseStore BreakerSteps MemoryStore Invariant Holding Effects.
Local Open Scope Z_scope.


Lemma frames_cache_keys : frames cache_keys.
Proof. intros t s. cbn. auto. Qed.


Lemma frames_get_state {X} : frames (get_state : M (Store X) (Store X)).
Proof. intros t s. cbn. auto. Qed.


Lemma frames_delete_each keys : forall count, frames (delete_each keys count).
Proof.
  induction keys as [| key rest IH]; intros count; [apply frames_ret |].
  cbn [delete_each]. apply frames_bind; [apply frames_cache_delete |].
  intros deleted. apply IH.
Qed.

(** [set] with a valid key and a defined value. *)
Lemma set_ready k v options t (s : MemoryStore) :
  ready s -> String.eqb k "" = false -> v <> VUndefined ->
  exists s',
    set (VStr k) v options t s = (Ok tt, t, s')
    /\ ready s' /\ self s' = written k v options t (self s).
Proof.
  intros Hready Hk Hv. unfold set.
  destruct (execute_ready_frames _ t s Hready (frames_set_body (VStr k) v options))
    as (s1 & Hrun & Hself & Hstays).
  assert (Hbody :
            (key <- validateKey name (VStr k) ;;
             validateValue name v ;;;
             created <- Date_now ;;
             accessed <- Date_now ;;
             let entry :=
               mkEntry v (options ≫= opt_ttl) created accessed
                 (options ≫= opt_tags) (options ≫= opt_dependencies)
                 (options ≫= opt_compress) (options ≫= opt_serialize) in
             cache_set key entry (to_millis (options ≫= opt_ttl)) ;;;
             on_fields (updateIndexes key entry)) t s
            = (Ok tt, t, set_self (written k v options t (self s)) s)).
  { unfold bind at 1. unfold validateKey. rewrite Hk. cbn [ret].
    unfold bind at 1.
    replace (validateValue name v t s) with (Ok tt, t, s)
      by (destruct v; try reflexivity; contradiction).
    unfold bind, Date_now, cache_set, on_fields, modify, written, entry_of.
    destruct (LRUCache.set t k _ _ (cache (self s))) as [disposed c]. reflexivity. }
  rewrite Hbody in Hrun, Hself, Hstays. cbn [outcome final fst snd] in *.
  exists s1. split; [exact Hrun |]. split; [apply Hstays; reflexivity | exact Hself].
Qed.

(** [get] with a valid key. *)
Lemma get_ready k t (s : MemoryStore) :
  ready s -> String.eqb k "" = false ->
  exists s',
    get (VStr k) t s = (Ok (read t k (self s)).1, t, s')
    /\ ready s' /\ self s' = (read t k (self s)).2.
Proof.
  intros Hready Hk. unfold get.
  destruct (execute_ready_frames _ t s Hready (frames_get_body (VStr k)))
    as (s1 & Hrun & Hself & Hstays).
  assert (Hbody :
            (key <- validateKey name (VStr k) ;;
             entry <- cache_get key ;;
             match entry with
             | None => ret VNull
             | Some entry =>
                 now <- Date_now ;;
                 if isExpired now (createdAt entry) (ttl entry)
                 then cache_delete key ;;; ret VNull
                 else
                   now' <- Date_now ;;
                   on_fields (fun f => set_cache (LRUCache.poke key (set_lastAccessed now')
                                                    (cache f)) f) ;;;
                   ret (value entry)
             end) t s
            = (Ok (read t k (self s)).1, t, set_self (read t k (self s)).2 s)).
  { unfold bind at 1. unfold validateKey. rewrite Hk. cbn [ret].
    unfold bind at 1. unfold cache_get, read, removed.
    destruct (LRUCache.get t k (cache (self s))) as [[found disposed] c].
    destruct found as [entry |]; [| reflexivity].
    unfold bind at 1. unfold Date_now at 1.
    destruct (isExpired t (createdAt entry) (ttl entry)).
    - unfold bind, cache_delete, ret. cbn [self set_self].
      destruct (LRUCache.delete k _) as [[deleted disposed'] c']. reflexivity.
    - unfold bind, Date_now, on_fields, modify, ret. reflexivity. }
  rewrite Hbody in Hrun, Hself, Hstays. cbn [outcome final fst snd] in *.
  exists s1. split; [exact Hrun |]. split; [apply Hstays; reflexivity | exact Hself].
Qed.




End StoreCalls.

(** ** Writing, reading back, expiry and removal *)

Section RoundTrips.
Import BaseStore BreakerSteps MemoryStore Invariant Holding Effects.
Local Open Scope Z_scope.

Lemma cache_written k v options t f :
  cache (written k v options t f)
  = (LRUCache.set t k (entry_of v options t) (to_millis (options ≫= opt_ttl)) (cache f)).2.
Proof.
  unfold written.
  destruct (LRUCache.set t k _ _ (cache f)) as [disposed c].
  unfold updateIndexes. cbn [cache snd]. rewrite cache_dispose. reflexivity.
Qed.

(** After [cache.set] the key is found with the item just made. *)
Lemma set_finds {V} now k (v : V) ttl (c : LRUCache.t V) :
  LRUCache.find k (LRUCache.items (LRUCache.set now k v ttl c).2)
  = Some (LRUCache.mkItem k v
            (LRUCache.fresh_start now (default (LRUCache.default_ttl c) ttl))
            (default (LRUCache.default_ttl c) ttl)).
Proof.
  unfold LRUCache.set.
  destruct (LRUCache.find k (LRUCache.items c)) as [old |] eqn:Hfind.
  - cbn [snd LRUCache.items LRUCache.with_items].
    rewrite find_app, find_remove, String.eqb_refl, find_one. cbn.
    rewrite String.eqb_refl. reflexivity.
  - destruct (Nat.eqb (LRUCache.size c) (LRUCache.max c)).
    + destruct (LRUCache.items c) as [| lru rest] eqn:Hitems.
      * cbn. rewrite String.eqb_refl. reflexivity.
      * cbn [snd LRUCache.items LRUCache.with_items].
        rewrite find_app, find_remove, Hfind, find_one. cbn.
        rewrite String.eqb_refl. destruct (String.eqb k (LRUCache.key lru)); reflexivity.
    + cbn [snd LRUCache.items LRUCache.with_items].
      rewrite find_app, Hfind, find_one. cbn. rewrite String.eqb_refl. reflexivity.
Qed.

(** A [get] after a [set] of the key, within the lifetime of the entry. *)
Lemma get_after_set k v options t t' (s : MemoryStore) :
  ready s -> String.eqb k "" = false -> v <> VUndefined ->
  lifetime options s = 0 \/ t' - t <= lifetime options s ->
  outcome (get (VStr k) t' (final (set (VStr k) v options t s))) = Ok v.
Proof.
  intros Hready Hk Hv Hlife.
  destruct (set_ready k v options t s Hready Hk Hv) as (s1 & Hset & Hready1 & Hself1).
  rewrite Hset. cbn [final snd].
  destruct (get_ready k t' s1 Hready1 Hk) as (s2 & Hget & _ & _).
  rewrite Hget. cbn [outcome fst]. f_equal.
  rewrite Hself1. unfold read. rewrite cache_written.
  pose proof (set_finds t k (entry_of v options t) (to_millis (options ≫= opt_ttl))
                (cache (self s))) as Hfind.
  fold (lifetime options s) in Hfind.
  destruct (LRUCache.set t k _ _ (cache (self s))) as [disposed c]. cbn [snd] in *.
  unfold LRUCache.get. rewrite Hfind.
  assert (Hfresh : LRUCache.is_stale t'
                     (LRUCache.mkItem k (entry_of v options t)
                        (LRUCache.fresh_start t (lifetime options s)) (lifetime options s))
                   = false).
  { unfold LRUCache.is_stale, LRUCache.fresh_start. cbn.
    destruct (lifetime options s =? 0) eqn:Hzero; [reflexivity |]. cbn.
    destruct (t =? 0) eqn:Ht; [reflexivity |]. cbn.
    apply Z.ltb_ge. apply Z.eqb_neq in Hzero. lia. }
  rewrite Hfresh. cbn [LRUCache.value].
  assert (Hlive : isExpired t' (createdAt (entry_of v options t)) (ttl (entry_of v options t))
                  = false).
  { unfold isExpired, entry_of. cbn [createdAt ttl].
    unfold lifetime, to_millis in Hlife.
    destruct (options ≫= opt_ttl) as [secs |]; [| reflexivity].
    destruct (secs =? 0) eqn:Hsecs; [reflexivity |].
    cbn [default] in Hlife. unfold id in Hlife.
    apply Z.ltb_ge. apply Z.eqb_neq in Hsecs. lia. }
  rewrite Hlive. reflexivity.
Qed.

(** X1. Round trip: a value written with [set] is what [get] returns for the
    key, at any later clock reading that is within the lifetime of the entry
    (the ttl of the options in milliseconds, or else the default ttl of the
    store; a lifetime of 0 is unlimited). *)
Theorem set_then_get_within_lifetime k v options t t' (s : MemoryStore) :
  ready s -> String.eqb k "" = false -> v <> VUndefined ->
  lifetime options s = 0 \/ t' - t <= lifetime options s ->
  outcome (get (VStr k) t' (final (set (VStr k) v options t s))) = Ok v.
Proof. exact (get_after_set k v options t t' s). Qed.


Lemma held_removed k f k' :
  held (removed k f).2 k' = if String.eqb k' k then None else held f k'.
Proof.
  unfold removed, held, LRUCache.delete.
  destruct (LRUCache.find k (LRUCache.items (cache f))) as [it |] eqn:Hfind;
    cbn [snd]; rewrite ?cache_dispose; cbn [cache set_cache].
  - rewrite lookup_removed. reflexivity.
  - destruct (String.eqb_spec k' k) as [-> | Hne]; [| reflexivity].
    apply lookup_missing. exact Hfind.
Qed.

Lemma removed_answer k f :
  (removed k f).1 = match held f k with Some _ => true | None => false end.
Proof.
  unfold removed, held, LRUCache.delete, LRUCache.lookup.
  destruct (LRUCache.find k (LRUCache.items (cache f))); reflexivity.
Qed.








End RoundTrips.

(** ** Completeness of the indexes *)

Section CompleteFacts.
Import MemoryStore Invariant Exactness.
Implicit Types (index : gmap string (list string)) (k label : string)
  (keys ls : list string) (holds : string -> option CacheEntry).

Lemma fold_remove_keeps k ls : forall index label keys x,
  index !! label = Some keys -> In x keys -> x <> k ->
  exists keys', fold_left (index_remove k) ls index !! label = Some keys' /\ In x keys'.
Proof.
  induction ls as [| l ls IH]; intros index label keys x Hlook Hin Hne; cbn [fold_left].
  - eauto.
  - assert (Hstep : exists keys1, index_remove k index l !! label = Some keys1 /\ In x keys1).
    { rewrite index_remove_lookup. destruct (decide (l = label)) as [-> | Hl]; [| eauto].
      rewrite Hlook.
      assert (Hx : In x (set_delete k keys)) by (apply in_set_delete; auto).
      destruct (set_delete k keys) as [| y rest]; [destruct Hx |]. eauto. }
    destruct Hstep as (keys1 & Hlook1 & Hin1). eapply IH; eauto.
Qed.

Lemma fold_add_keeps k ls : forall index label keys x,
  index !! label = Some keys -> In x keys ->
  exists keys', fold_left (index_add k) ls index !! label = Some keys' /\ In x keys'.
Proof.
  induction ls as [| l ls IH]; intros index label keys x Hlook Hin; cbn [fold_left].
  - eauto.
  - assert (Hstep : exists keys1, index_add k index l !! label = Some keys1 /\ In x keys1).
    { rewrite index_add_lookup. destruct (decide (l = label)) as [-> | Hl]; [| eauto].
      rewrite Hlook. cbn [default]. eexists. split; [reflexivity |].
      apply in_set_add. right. exact Hin. }
    destruct Hstep as (keys1 & Hlook1 & Hin1). eapply IH; eauto.
Qed.

Lemma fold_add_lists k ls : forall index label,
  In label ls ->
  exists keys', fold_left (index_add k) ls index !! label = Some keys' /\ In k keys'.
Proof.
  induction ls as [| l ls IH]; intros index label Hin; [destruct Hin |].
  cbn [fold_left]. destruct (String.eqb_spec l label) as [-> | Hne].
  - eapply fold_add_keeps.
    + rewrite index_add_lookup. destruct (decide (label = label)); [reflexivity | contradiction].
    + apply in_set_add. left. reflexivity.
  - destruct Hin as [Heq | Hin]; [contradiction |]. apply IH. exact Hin.
Qed.

Lemma complete_mono labels index holds holds' :
  complete labels index holds ->
  (forall k e', holds' k = Some e' -> exists e, holds k = Some e /\ labels e = labels e') ->
  complete labels index holds'.
Proof.
  intros Hc Hsub k entry ls label Hheld Hl Hin.
  destruct (Hsub k entry Hheld) as (e & Hheld0 & Hsame).
  eapply Hc; [exact Hheld0 | rewrite Hsame; exact Hl | exact Hin].
Qed.

Lemma complete_cleanup labels index holds holds' k removed :
  complete labels index holds ->
  (forall k', holds' k' = if String.eqb k' k then None else holds k') ->
  complete labels (over_labels (index_remove k) removed index) holds'.
Proof.
  intros Hc Hrest k' entry ls label Hheld Hl Hin.
  rewrite Hrest in Hheld. destruct (String.eqb_spec k' k) as [-> | Hne]; [discriminate |].
  destruct (Hc k' entry ls label Hheld Hl Hin) as (keys & Hlook & Hkeys).
  destruct removed as [ls0 |]; cbn [over_labels]; [| eauto].
  eapply fold_remove_keeps; eauto.
Qed.

Lemma complete_update labels index holds k e :
  complete labels index (fun k' => if String.eqb k' k then None else holds k') ->
  holds k = Some e ->
  complete labels (over_labels (index_add k) (labels e) index) holds.
Proof.
  intros Hc Hk k' entry ls label Hheld Hl Hin.
  destruct (String.eqb_spec k' k) as [-> | Hne].
  - rewrite Hk in Hheld. injection Hheld as <-. rewrite Hl. cbn [over_labels].
    apply fold_add_lists. exact Hin.
  - destruct (Hc k' entry ls label) as (keys & Hlook & Hkeys); [| exact Hl | exact Hin |].
    { destruct (String.eqb_spec k' k); [contradiction | exact Hheld]. }
    destruct (labels e) as [ls0 |]; cbn [over_labels]; [| eauto].
    eapply fold_add_keeps; eauto.
Qed.

Lemma complete_delete labels index holds label :
  complete labels index holds ->
  (forall k e ls, holds k = Some e -> labels e = Some ls -> ~ In label ls) ->
  complete labels (base.delete label index) holds.
Proof.
  intros Hc Hnone k entry ls l Hheld Hl Hin.
  destruct (Hc k entry ls l Hheld Hl Hin) as (keys & Hlook & Hkeys).
  exists keys. split; [| exact Hkeys].
  rewrite lookup_delete. destruct (decide (label = l)) as [-> | Hne]; [| exact Hlook].
  exfalso. exact (Hnone k entry ls Hheld Hl Hin).
Qed.

Lemma complete_nothing labels index holds :
  (forall k, holds k = None) -> complete labels index holds.
Proof. intros Hnone k entry ls label Hheld. rewrite Hnone in Hheld. discriminate. Qed.

(** The buckets stay free of duplicates. *)
Lemma set_add_nodup k keys : List.NoDup keys -> List.NoDup (set_add k keys).
Proof.
  intros Hnd. unfold set_add. destruct (existsb (String.eqb k) keys) eqn:Hex; [exact Hnd |].
  apply NoDup_ListNoDup. apply NoDup_ListNoDup in Hnd.
  apply NoDup_app. split; [exact Hnd |]. split.
  - intros x Hx Hin. apply list_elem_of_In in Hx.
    assert (x = k) by (apply list_elem_of_In in Hin; destruct Hin as [-> | []]; reflexivity).
    subst x. assert (Htrue : existsb (String.eqb k) keys = true).
    { apply existsb_exists. exists k. split; [exact Hx | apply String.eqb_refl]. }
    congruence.
  - apply NoDup_singleton.
Qed.

Lemma set_delete_nodup k keys : List.NoDup keys -> List.NoDup (set_delete k keys).
Proof. intros Hnd. unfold set_delete. apply List.NoDup_filter. exact Hnd. Qed.

Lemma duplicate_free_add k ls : forall index,
  duplicate_free index -> duplicate_free (fold_left (index_add k) ls index).
Proof.
  induction ls as [| l ls IH]; intros index Hnd; [exact Hnd |].
  cbn [fold_left]. apply IH. intros label keys Hlook.
  rewrite index_add_lookup in Hlook. destruct (decide (l = label)) as [-> | Hne].
  - injection Hlook as <-. apply set_add_nodup.
    destruct (index !! label) as [keys0 |] eqn:Hold; cbn [default];
      [exact (Hnd _ _ Hold) | apply List.NoDup_nil].
  - exact (Hnd _ _ Hlook).
Qed.

Lemma duplicate_free_remove k ls : forall index,
  duplicate_free index -> duplicate_free (fold_left (index_remove k) ls index).
Proof.
  induction ls as [| l ls IH]; intros index Hnd; [exact Hnd |].
  cbn [fold_left]. apply IH. intros label keys Hlook.
  rewrite index_remove_lookup in Hlook. destruct (decide (l = label)) as [-> | Hne].
  - destruct (index !! label) as [keys0 |] eqn:Hold; [| discriminate].
    pose proof (set_delete_nodup k keys0 (Hnd _ _ Hold)) as Hnd'.
    destruct (set_delete k keys0) as [| y rest]; [discriminate |].
    injection Hlook as <-. exact Hnd'.
  - exact (Hnd _ _ Hlook).
Qed.

Lemma duplicate_free_over step labels index :
  (forall ls index', duplicate_free index' -> duplicate_free (fold_left step ls index')) ->
  duplicate_free index -> duplicate_free (over_labels step labels index).
Proof. intros Hstep Hnd. destruct labels as [ls |]; cbn [over_labels]; auto. Qed.

Lemma duplicate_free_delete label index :
  duplicate_free index -> duplicate_free (base.delete label index).
Proof.
  intros Hnd l keys Hlook. rewrite lookup_delete in Hlook.
  destruct (decide (label = l)); [discriminate | exact (Hnd _ _ Hlook)].
Qed.

Lemma duplicate_free_empty : duplicate_free ∅.
Proof. intros l keys Hlook. rewrite lookup_empty in Hlook. discriminate. Qed.

End CompleteFacts.

(** ** Every operation keeps the indexes exact *)

Section ExactIndexes.
Import BaseStore MemoryStore Invariant Exactness Holding Effects.
Implicit Types (f : Fields) (k : string) (e entry : CacheEntry).

Lemma all_listed_same f c' :
  all_listed f -> (forall k, LRUCache.lookup k c' = held f k) ->
  all_listed (set_cache c' f).
Proof.
  intros [Htags Hdeps] Hsame.
  split; cbn; (eapply complete_mono; [eassumption |]);
    intros k e Hk; exists e; (split; [| reflexivity]);
    unfold held in *; cbn in Hk; rewrite Hsame in Hk; exact Hk.
Qed.

Lemma all_listed_dispose f c' k e :
  all_listed f ->
  (forall k', LRUCache.lookup k' c' = if String.eqb k' k then None else held f k') ->
  all_listed (dispose [(k, e)] (set_cache c' f)).
Proof.
  intros [Htags Hdeps] Hrest.
  split; cbn; (eapply complete_cleanup; [eassumption |]);
    intros k'; unfold held; cbn; apply Hrest.
Qed.

Lemma all_listed_cache_get k : keeps all_listed (cache_get k).
Proof.
  intros t s Hall. unfold cache_get.
  pose proof (get_effect t k (cache (self s))) as Heffect.
  destruct (LRUCache.get t k (cache (self s))) as [[found disposed] c'].
  cbn [snd self set_self].
  destruct Heffect as [(_ & -> & -> & _) | [(v & _ & -> & Hheld & Hrest) | (v & _ & -> & _ & Hsame)]].
  - cbn. destruct (self s). exact Hall.
  - apply all_listed_dispose; assumption.
  - cbn [dispose fold_left]. apply all_listed_same; assumption.
Qed.

Lemma all_listed_cache_delete k : keeps all_listed (cache_delete k).
Proof.
  intros t s Hall. unfold cache_delete.
  pose proof (delete_effect k (cache (self s))) as Heffect.
  destruct (LRUCache.delete k (cache (self s))) as [[deleted disposed] c'].
  cbn [snd self set_self].
  destruct Heffect as [(_ & -> & ->) | (v & _ & -> & Hheld & Hrest)].
  - cbn. destruct (self s). exact Hall.
  - apply all_listed_dispose; assumption.
Qed.

Lemma all_listed_cache_has k : keeps all_listed (cache_has k).
Proof.
  intros t s Hall. unfold cache_has.
  pose proof (has_effect t k (cache (self s))) as Heffect.
  destruct (LRUCache.has t k (cache (self s))) as [present c'].
  cbn [snd self set_self] in *. apply all_listed_same; assumption.
Qed.

Lemma all_listed_touch k now :
  keeps all_listed
    (on_fields (fun f => set_cache (LRUCache.poke k (set_lastAccessed now) (cache f)) f)).
Proof.
  intros t s [Htags Hdeps]. unfold on_fields, modify. cbn [snd self set_self].
  split; cbn; (eapply complete_mono; [eassumption |]);
    intros k' e' Hk'; unfold held in *; cbn in Hk'; rewrite poke_effect in Hk';
    (destruct (String.eqb k' k) eqn:Hk;
     [apply String.eqb_eq in Hk; subst k';
      destruct (LRUCache.lookup k (cache (self s))) as [e0 |]; [| discriminate];
      injection Hk' as <-; exists e0; split; reflexivity
     | exists e'; split; [exact Hk' | reflexivity]]).
Qed.

Lemma all_listed_write k entry ttl :
  keeps all_listed (cache_set k entry ttl ;;; on_fields (updateIndexes k entry)).
Proof.
  intros t s [Htags Hdeps]. unfold bind, cache_set, on_fields, modify.
  pose proof (set_effect t k entry ttl (cache (self s))) as Heffect.
  destruct (LRUCache.set t k entry ttl (cache (self s))) as [disposed c'].
  cbn [snd self set_self].
  assert (Hk : LRUCache.lookup k c' = Some entry).
  { destruct Heffect as [(_ & _ & Hall) | (k0 & v0 & _ & _ & _ & Hall)];
      rewrite Hall, String.eqb_refl; reflexivity. }
  assert (Hmid : forall labels index,
             complete labels index (held (self s)) ->
             complete labels
               (fold_left (fun index '(k0, v0) => over_labels (index_remove k0) (labels v0) index)
                  disposed index)
               (fun k' => if String.eqb k' k then None else LRUCache.lookup k' c')).
  { intros labels index Hc.
    destruct Heffect as [(-> & Hmiss & Hall) | (k0 & v0 & -> & Hheld0 & Hcase & Hall)].
    - cbn [fold_left]. eapply complete_mono; [exact Hc |].
      intros k' e' Hk'. destruct (String.eqb_spec k' k) as [-> | Hne]; [discriminate |].
      rewrite Hall in Hk'. destruct (String.eqb_spec k' k); [contradiction |].
      exists e'. split; [exact Hk' | reflexivity].
    - cbn [fold_left]. eapply complete_mono.
      + eapply (complete_cleanup labels index (held (self s))
                  (fun k' => if String.eqb k' k0 then None else held (self s) k'));
          [exact Hc | reflexivity].
      + intros k' e' Hk'. cbn beta in Hk'.
        destruct (String.eqb_spec k' k) as [-> | Hne]; [discriminate |].
        rewrite Hall in Hk'. destruct (String.eqb_spec k' k); [contradiction |].
        exists e'. split; [exact Hk' | reflexivity]. }
  assert (Hdisposed :
            dispose disposed (set_cache c' (self s))
            = mkFields c'
                (fold_left (fun index '(k0, v0) => over_labels (index_remove k0) (tags v0) index)
                   disposed (tagIndex (self s)))
                (fold_left (fun index '(k0, v0) =>
                              over_labels (index_remove k0) (dependencies v0) index)
                   disposed (dependencyIndex (self s)))).
  { unfold set_cache. generalize (tagIndex (self s)), (dependencyIndex (self s)).
    clear. induction disposed as [| [k0 v0] disposed IH]; intros ti di; [reflexivity |].
    cbn [dispose fold_left]. unfold cleanupIndexes at 1. cbn [cache tagIndex dependencyIndex].
    apply IH. }
  rewrite Hdisposed. unfold updateIndexes. cbn [cache tagIndex dependencyIndex].
  split; cbn [tagIndex dependencyIndex]; unfold held; cbn [cache];
    apply complete_update; auto.
Qed.

Lemma all_listed_clear_all : keeps all_listed clear_all.
Proof.
  intros t s _. unfold clear_all, bind, cache_clear, on_fields, modify, LRUCache.clear.
  cbn [snd self set_self].
  split; apply complete_nothing; intros k; unfold held; cbn [cache];
    rewrite cache_dispose; reflexivity.
Qed.

(** The buckets stay sets. *)
Lemma no_duplicates_cleanup k e f : no_duplicates f -> no_duplicates (cleanupIndexes k e f).
Proof.
  intros [Htags Hdeps]. split; cbn;
    (apply duplicate_free_over; [apply duplicate_free_remove | assumption]).
Qed.

Lemma no_duplicates_update k e f : no_duplicates f -> no_duplicates (updateIndexes k e f).
Proof.
  intros [Htags Hdeps]. split; cbn;
    (apply duplicate_free_over; [apply duplicate_free_add | assumption]).
Qed.

Lemma no_duplicates_dispose disposed : forall f,
  no_duplicates f -> no_duplicates (dispose disposed f).
Proof.
  induction disposed as [| [k e] disposed IH]; intros f Hnd; [exact Hnd |].
  cbn [dispose fold_left]. fold (dispose disposed (cleanupIndexes k e f)).
  apply IH, no_duplicates_cleanup, Hnd.
Qed.

Lemma no_duplicates_set_cache c f : no_duplicates f -> no_duplicates (set_cache c f).
Proof. intros Hnd. exact Hnd. Qed.

Lemma no_duplicates_cache_get k : keeps no_duplicates (cache_get k).
Proof.
  intros t s Hnd. unfold cache_get.
  destruct (LRUCache.get t k (cache (self s))) as [[found disposed] c].
  cbn [snd self set_self]. apply no_duplicates_dispose, Hnd.
Qed.

Lemma no_duplicates_cache_delete k : keeps no_duplicates (cache_delete k).
Proof.
  intros t s Hnd. unfold cache_delete.
  destruct (LRUCache.delete k (cache (self s))) as [[deleted disposed] c].
  cbn [snd self set_self]. apply no_duplicates_dispose, Hnd.
Qed.

Lemma no_duplicates_cache_has k : keeps no_duplicates (cache_has k).
Proof.
  intros t s Hnd. unfold cache_has.
  destruct (LRUCache.has t k (cache (self s))) as [present c].
  cbn [snd self set_self]. exact Hnd.
Qed.

Lemma no_duplicates_write k entry ttl :
  keeps no_duplicates (cache_set k entry ttl ;;; on_fields (updateIndexes k entry)).
Proof.
  intros t s Hnd. unfold bind, cache_set, on_fields, modify.
  destruct (LRUCache.set t k entry ttl (cache (self s))) as [disposed c].
  cbn [snd self set_self]. apply no_duplicates_update, no_duplicates_dispose, Hnd.
Qed.

Lemma no_duplicates_clear_all : keeps no_duplicates clear_all.
Proof.
  intros t s _. unfold clear_all, bind, cache_clear, on_fields, modify, LRUCache.clear.
  cbn [snd self set_self]. split; apply duplicate_free_empty.
Qed.

(** The three parts of exactness together. *)
Lemma exact_both {A} (m : M MemoryStore A) :
  keeps invariant m -> keeps all_listed m -> keeps no_duplicates m -> keeps exact m.
Proof.
  intros Hi Ha Hn t s (Hinv & Hall & Hnd).
  split; [apply Hi, Hinv |]. split; [apply Ha, Hall | apply Hn, Hnd].
Qed.

Lemma exact_cache_get k : keeps exact (cache_get k).
Proof.
  apply exact_both;
    [apply invariant_cache_get | apply all_listed_cache_get | apply no_duplicates_cache_get].
Qed.

Lemma exact_cache_delete k : keeps exact (cache_delete k).
Proof.
  apply exact_both;
    [apply invariant_cache_delete | apply all_listed_cache_delete
    | apply no_duplicates_cache_delete].
Qed.

Lemma exact_cache_has k : keeps exact (cache_has k).
Proof.
  apply exact_both;
    [apply invariant_cache_has | apply all_listed_cache_has | apply no_duplicates_cache_has].
Qed.

Lemma exact_touch k now :
  keeps exact
    (on_fields (fun f => set_cache (LRUCache.poke k (set_lastAccessed now) (cache f)) f)).
Proof.
  apply exact_both; [apply invariant_touch | apply all_listed_touch |].
  intros t s Hnd. exact Hnd.
Qed.

Lemma exact_write k entry ttl :
  keeps exact (cache_set k entry ttl ;;; on_fields (updateIndexes k entry)).
Proof.
  apply exact_both;
    [apply invariant_write | apply all_listed_write | apply no_duplicates_write].
Qed.

Lemma exact_clear_all : keeps exact clear_all.
Proof.
  apply exact_both;
    [apply invariant_clear_all | apply all_listed_clear_all | apply no_duplicates_clear_all].
Qed.

(** [cache.delete] as a step on the fields. *)
Lemma cache_delete_run k t (s : MemoryStore) :
  cache_delete k t s = (Ok (removed k (self s)).1, t, set_self (removed k (self s)).2 s).
Proof.
  unfold cache_delete, removed.
  destruct (LRUCache.delete k (cache (self s))) as [[deleted disposed] c]. reflexivity.
Qed.

(** The loop that deletes the listed keys: it never throws, removes the keys
    and nothing else, and counts the keys that were held. *)
Lemma delete_each_run keys : forall count t (s : MemoryStore),
  exists n s',
    delete_each keys count t s = (Ok n, t, s')
    /\ circuitBreaker s' = circuitBreaker s
    /\ circuitBreakerConfig s' = circuitBreakerConfig s
    /\ (forall k', held (self s') k'
                   = if existsb (String.eqb k') keys then None else held (self s) k')
    /\ (List.NoDup keys -> (forall k, In k keys -> is_Some (held (self s) k)) ->
        n = (count + Z.of_nat (length keys))%Z).
Proof.
  induction keys as [| key rest IH]; intros count t s.
  - exists count, s. cbn. split; [reflexivity |]. split; [reflexivity |].
    split; [reflexivity |]. split; [reflexivity |]. intros _ _. lia.
  - cbn [delete_each]. unfold bind. rewrite cache_delete_run.
    set (s1 := set_self (removed key (self s)).2 s).
    destruct (IH (if (removed key (self s)).1 then (count + 1)%Z else count) t s1)
      as (n & s' & Hrun & Hcb & Hcfg & Hheld & Hcount).
    exists n, s'. split; [exact Hrun |]. split; [exact Hcb |]. split; [exact Hcfg |].
    split.
    + intros k'. rewrite Hheld. unfold s1. cbn [self set_self existsb].
      rewrite held_removed.
      destruct (String.eqb k' key); cbn [orb];
        [destruct (existsb (String.eqb k') rest); reflexivity | reflexivity].
    + intros Hnd Hall. apply List.NoDup_cons_iff in Hnd as [Hfresh Hnd].
      rewrite Hcount; [| exact Hnd |].
      * rewrite removed_answer.
        destruct (Hall key (or_introl eq_refl)) as [e He]. rewrite He.
        cbn [length]. lia.
      * intros k Hk. unfold s1. cbn [self set_self]. rewrite held_removed.
        destruct (String.eqb_spec k key) as [-> | Hne]; [contradiction |].
        apply Hall. right. exact Hk.
Qed.

Lemma existsb_In k keys : existsb (String.eqb k) keys = true <-> In k keys.
Proof.
  rewrite existsb_exists. split.
  - intros (x & Hx & Heq). apply String.eqb_eq in Heq. subst x. exact Hx.
  - intros Hin. exists k. split; [exact Hin | apply String.eqb_refl].
Qed.

(** Dropping the bucket of a label that no held entry carries. *)
Lemma exact_invalidateByTag tag : keeps exact (invalidateByTag tag).
Proof.
  apply keeps_execute. intros t s Hex. unfold bind at 1, get_state.
  destruct (tagIndex (self s) !! tag) as [keys |] eqn:Hbucket; [| exact Hex].
  destruct (delete_each_run keys 0 t s) as (n & s' & Hrun & _ & _ & Hheld & _).
  pose proof (keeps_delete_each exact exact_cache_delete keys 0%Z t s Hex) as Hex'.
  unfold bind. rewrite Hrun in *. cbn [snd] in Hex'.
  unfold on_fields, modify, ret. cbn [snd self set_self].
  destruct Hex as (_ & (Hctags & _) & _).
  destruct Hex' as (Hinv' & (Hctags' & Hcdeps') & (Hntags' & Hndeps')).
  split; [| split].
  - pose proof (invariant_drop_tag tag t s' Hinv') as Hdrop.
    unfold on_fields, modify in Hdrop. cbn [snd self set_self] in Hdrop. exact Hdrop.
  - split; [| exact Hcdeps'].
    cbn [tagIndex]. apply (complete_delete tags (tagIndex (self s')) (held (self s')) tag Hctags').
    intros k e ls Hk Hl Hin. rewrite Hheld in Hk.
    destruct (existsb (String.eqb k) keys) eqn:Hlisted; [discriminate |].
    destruct (Hctags k e ls tag Hk Hl Hin) as (keys0 & Hlook & Hkeys0).
    rewrite Hbucket in Hlook. injection Hlook as <-.
    apply existsb_In in Hkeys0. congruence.
  - split; [| exact Hndeps']. cbn [tagIndex]. apply duplicate_free_delete, Hntags'.
Qed.

Lemma exact_invalidateByDependency dependency : keeps exact (invalidateByDependency dependency).
Proof.
  apply keeps_execute. intros t s Hex. unfold bind at 1, get_state.
  destruct (dependencyIndex (self s) !! dependency) as [keys |] eqn:Hbucket; [| exact Hex].
  destruct (delete_each_run keys 0 t s) as (n & s' & Hrun & _ & _ & Hheld & _).
  pose proof (keeps_delete_each exact exact_cache_delete keys 0%Z t s Hex) as Hex'.
  unfold bind. rewrite Hrun in *. cbn [snd] in Hex'.
  unfold on_fields, modify, ret. cbn [snd self set_self].
  destruct Hex as (_ & (_ & Hcdeps) & _).
  destruct Hex' as (Hinv' & (Hctags' & Hcdeps') & (Hntags' & Hndeps')).
  split; [| split].
  - pose proof (invariant_drop_dependency dependency t s' Hinv') as Hdrop.
    unfold on_fields, modify in Hdrop. cbn [snd self set_self] in Hdrop. exact Hdrop.
  - split; [exact Hctags' |].
    cbn [dependencyIndex].
    apply (complete_delete dependencies (dependencyIndex (self s')) (held (self s'))
             dependency Hcdeps').
    intros k e ls Hk Hl Hin. rewrite Hheld in Hk.
    destruct (existsb (String.eqb k) keys) eqn:Hlisted; [discriminate |].
    destruct (Hcdeps k e ls dependency Hk Hl Hin) as (keys0 & Hlook & Hkeys0).
    rewrite Hbucket in Hlook. injection Hlook as <-.
    apply existsb_In in Hkeys0. congruence.
  - split; [exact Hntags' |]. cbn [dependencyIndex]. apply duplicate_free_delete, Hndeps'.
Qed.

Lemma exact_step op t s : exact (self s) -> exact (self (step op t s)).
Proof.
  intros Hex. destruct op; cbn [step].
  - apply (keeps_get exact exact_cache_get exact_cache_delete exact_touch), Hex.
  - apply (keeps_set exact exact_write), Hex.
  - apply (keeps_del exact exact_cache_delete), Hex.
  - apply (keeps_mget exact exact_cache_get exact_cache_delete exact_touch), Hex.
  - apply (keeps_mset exact exact_write), Hex.
  - apply (keeps_clear exact exact_clear_all), Hex.
  - apply (keeps_exists exact exact_cache_has), Hex.
  - apply (keeps_keys exact), Hex.
  - apply exact_clear_all, Hex.
  - apply exact_invalidateByTag, Hex.
  - apply (keeps_invalidateByPattern exact exact_cache_delete), Hex.
  - apply exact_invalidateByDependency, Hex.
Qed.

Lemma exact_constructor config : exact (self (constructor config)).
Proof.
  assert (Hself : self (constructor config)
                  = mkFields
                      (LRUCache.create (or_default (cfg_max config) 1000)
                         (default 0%Z (to_millis (Z.of_N <$> cfg_ttl config)))) ∅ ∅).
  { unfold constructor, BaseStore.constructor.
    destruct (cfg_circuitBreaker config) as [cfg |]; [destruct (enabled cfg) |]; reflexivity. }
  split; [apply invariant_constructor |]. rewrite Hself. split.
  - split; apply complete_nothing; reflexivity.
  - split; apply duplicate_free_empty.
Qed.

Lemma reachable_exact s : reachable s -> exact (self s).
Proof.
  induction 1 as [config | s op t Hs IH]; [apply exact_constructor | apply exact_step, IH].
Qed.

Lemma carries_In labels label e :
  carries labels label (Some e) = true <-> exists ls, labels e = Some ls /\ In label ls.
Proof.
  unfold carries. cbn. destruct (labels e) as [ls |].
  - rewrite existsb_In. split; [eauto |]. intros (ls' & [= <-] & Hin). exact Hin.
  - split; [discriminate | intros (ls & Hl & _); discriminate].
Qed.

End ExactIndexes.

(** ** Invalidation by tag and by dependency in a MemoryStore *)

Section ExactInvalidation.
Import BaseStore BreakerSteps MemoryStore Invariant Exactness Holding Effects.
Local Open Scope Z_scope.

Lemma listed_iff_carries labels index holds label k :
  sound labels index holds -> complete labels index holds ->
  carries labels label (holds k) = true
  <-> exists keys, index !! label = Some keys /\ In k keys.
Proof.
  intros Hsound Hcomplete. split.
  - destruct (holds k) as [e |] eqn:Hk; [| discriminate].
    intros Hc. apply carries_In in Hc as (ls & Hl & Hin).
    exact (Hcomplete k e ls label Hk Hl Hin).
  - intros (keys & Hlook & Hin).
    destruct (Hsound label keys Hlook) as (_ & Hall).
    destruct (Hall k Hin) as (e & ls & Hk & Hl & Hls).
    rewrite Hk. apply carries_In. eauto.
Qed.

(** X6. In every state that a MemoryStore can reach, the two indexes list
    exactly the labelled keys: a key is listed under a tag (a dependency)
    if and only if the store holds an entry under that key whose tags
    (dependencies) include it, and no bucket lists a key twice. *)
Theorem indexes_list_exactly_the_labelled_keys s :
  reachable s ->
  (forall tag k,
      carries tags tag (held (self s) k) = true
      <-> exists keys, tagIndex (self s) !! tag = Some keys /\ In k keys)
  /\ (forall dependency k,
        carries dependencies dependency (held (self s) k) = true
        <-> exists keys, dependencyIndex (self s) !! dependency = Some keys /\ In k keys)
  /\ (forall label keys,
        tagIndex (self s) !! label = Some keys
        \/ dependencyIndex (self s) !! label = Some keys ->
        List.NoDup keys).
Proof.
  intros Hreach.
  destruct (reachable_exact s Hreach) as ((Hstags & Hsdeps) & (Hctags & Hcdeps) & (Hntags & Hndeps)).
  split; [| split].
  - intros tag k. apply listed_iff_carries; assumption.
  - intros dependency k. apply listed_iff_carries; assumption.
  - intros label keys [Hlook | Hlook]; [exact (Hntags _ _ Hlook) | exact (Hndeps _ _ Hlook)].
Qed.

(** The effect of deleting the keys of one bucket of an exact index. *)
Lemma bucket_deleted labels index holds label keys k :
  sound labels index holds -> complete labels index holds ->
  index !! label = Some keys ->
  existsb (String.eqb k) keys = carries labels label (holds k).
Proof.
  intros Hsound Hcomplete Hlook. apply Bool.eq_iff_eq_true.
  rewrite existsb_In, (listed_iff_carries labels index holds label k Hsound Hcomplete).
  split; [eauto |]. intros (keys0 & Hlook0 & Hin). congruence.
Qed.

Lemma no_bucket labels index holds label k :
  complete labels index holds -> index !! label = None ->
  carries labels label (holds k) = false.
Proof.
  intros Hcomplete Hlook. destruct (carries labels label (holds k)) eqn:Hc; [| reflexivity].
  destruct (holds k) as [e |] eqn:Hk; [| discriminate].
  apply carries_In in Hc as (ls & Hl & Hin).
  destruct (Hcomplete k e ls label Hk Hl Hin) as (keys & Hlook' & _). congruence.
Qed.

Lemma bucket_held labels index holds label keys :
  sound labels index holds -> index !! label = Some keys ->
  forall k, In k keys -> is_Some (holds k).
Proof.
  intros Hsound Hlook k Hin. destruct (Hsound label keys Hlook) as (_ & Hall).
  destruct (Hall k Hin) as (e & ls & Hk & _). eauto.
Qed.

(** X7. [invalidateByTag] removes exactly the entries that carry the tag and
    answers their number: afterwards a key is held if and only if it was
    held with an entry that does not carry the tag, the entries that stay
    are unchanged, and the tag has no bucket left. *)
Theorem invalidateByTag_removes_exactly_the_tagged tag t s :
  reachable s -> ready s ->
  let run := invalidateByTag tag t s in
  exists n keys,
    outcome run = Ok n
    /\ List.NoDup keys
    /\ (forall k, In k keys <-> carries tags tag (held (self s) k) = true)
    /\ n = Z.of_nat (length keys)
    /\ (forall k, held (self (final run)) k
                  = if carries tags tag (held (self s) k) then None else held (self s) k)
    /\ tagIndex (self (final run)) !! tag = None.
Proof.
  intros Hreach Hready.
  destruct (reachable_exact s Hreach) as ((Hstags & _) & (Hctags & _) & (Hntags & _)).
  assert (Hframes :
            frames (this <- get_state ;;
                    match tagIndex (self this) !! tag with
                    | None => ret 0
                    | Some keys =>
                        count <- delete_each keys 0 ;;
                        on_fields (fun f => mkFields (cache f) (base.delete tag (tagIndex f))
                                              (dependencyIndex f)) ;;;
                        ret count
                    end)).
  { apply frames_bind; [apply frames_get_state |]. intros this.
    destruct (tagIndex (self this) !! tag); [| apply frames_ret].
    apply frames_bind; [apply frames_delete_each |]. intros count.
    apply frames_bind; [apply frames_on_fields | intros _; apply frames_ret]. }
  assert (Hbody :
            exists n keys sf,
              (this <- get_state ;;
     match tagIndex (self this) !! tag with
     | None => ret 0
     | Some keys =>
         count <- delete_each keys 0 ;;
         on_fields (fun f => mkFields (cache f) (base.delete tag (tagIndex f)) (dependencyIndex f)) ;;;
         ret count
     end) t s = (Ok n, t, sf)
              /\ List.NoDup keys
              /\ (forall k, In k keys <-> carries tags tag (held (self s) k) = true)
              /\ n = Z.of_nat (length keys)
              /\ (forall k, held (self sf) k
                            = if carries tags tag (held (self s) k)
                              then None else held (self s) k)
              /\ tagIndex (self sf) !! tag = None).
  { unfold bind at 1, get_state.
    destruct (tagIndex (self s) !! tag) as [keys |] eqn:Hbucket.
    - destruct (delete_each_run keys 0 t s) as (n & s' & Hrun & _ & _ & Hheld & Hcount).
      unfold bind. rewrite Hrun. unfold on_fields, modify, ret.
      eexists n, keys, _. split; [reflexivity |]. cbn [self set_self].
      split; [exact (Hntags _ _ Hbucket) |]. split; [| split; [| split]].
      + intros k. rewrite <- existsb_In.
        rewrite (bucket_deleted tags _ _ tag keys k Hstags Hctags Hbucket). reflexivity.
      + rewrite Hcount; [lia | exact (Hntags _ _ Hbucket) |].
        exact (bucket_held tags _ _ tag keys Hstags Hbucket).
      + intros k.
        rewrite <- (bucket_deleted tags _ _ tag keys k Hstags Hctags Hbucket).
        rewrite <- Hheld. reflexivity.
      + cbn [tagIndex dependencyIndex]. apply lookup_delete_eq.
    - exists 0, [], s. split; [reflexivity |]. split; [apply List.NoDup_nil |].
      split; [| split; [| split]].
      + intros k. rewrite (no_bucket tags _ _ tag k Hctags Hbucket).
        split; [intros [] | discriminate].
      + reflexivity.
      + intros k. rewrite (no_bucket tags _ _ tag k Hctags Hbucket). reflexivity.
      + exact Hbucket. }
  destruct Hbody as (n & keys & sf & Hbody & Hnodup & Hkeys & Hcount & Hheld & Hgone).
  unfold invalidateByTag. cbn zeta.
  destruct (execute_ready_frames _ t s Hready Hframes) as (s1 & Hrun & Hself & _).
  rewrite Hbody in Hrun, Hself. cbn [outcome final fst snd] in Hrun, Hself.
  rewrite Hrun. cbn [outcome final fst snd]. rewrite Hself.
  exists n, keys. auto 10.
Qed.

(** X8. [invalidateByDependency] removes exactly the entries that list the
    dependency and answers their number. *)
Theorem invalidateByDependency_removes_exactly_the_dependents dependency t s :
  reachable s -> ready s ->
  let run := invalidateByDependency dependency t s in
  exists n keys,
    outcome run = Ok n
    /\ List.NoDup keys
    /\ (forall k, In k keys <-> carries dependencies dependency (held (self s) k) = true)
    /\ n = Z.of_nat (length keys)
    /\ (forall k, held (self (final run)) k
                  = if carries dependencies dependency (held (self s) k)
                    then None else held (self s) k)
    /\ dependencyIndex (self (final run)) !! dependency = None.
Proof.
  intros Hreach Hready.
  destruct (reachable_exact s Hreach) as ((_ & Hsdeps) & (_ & Hcdeps) & (_ & Hndeps)).
  assert (Hframes :
            frames (this <- get_state ;;
                    match dependencyIndex (self this) !! dependency with
                    | None => ret 0
                    | Some keys =>
                        count <- delete_each keys 0 ;;
                        on_fields (fun f => mkFields (cache f) (tagIndex f)
                                              (base.delete dependency (dependencyIndex f))) ;;;
                        ret count
                    end)).
  { apply frames_bind; [apply frames_get_state |]. intros this.
    destruct (dependencyIndex (self this) !! dependency); [| apply frames_ret].
    apply frames_bind; [apply frames_delete_each |]. intros count.
    apply frames_bind; [apply frames_on_fields | intros _; apply frames_ret]. }
  assert (Hbody :
            exists n keys sf,
              (this <- get_state ;;
     match dependencyIndex (self this) !! dependency with
     | None => ret 0
     | Some keys =>
         count <- delete_each keys 0 ;;
         on_fields (fun f => mkFields (cache f) (tagIndex f) (base.delete dependency (dependencyIndex f))) ;;;
         ret count
     end) t s = (Ok n, t, sf)
              /\ List.NoDup keys
              /\ (forall k, In k keys <-> carries dependencies dependency (held (self s) k) = true)
              /\ n = Z.of_nat (length keys)
              /\ (forall k, held (self sf) k
                            = if carries dependencies dependency (held (self s) k)
                              then None else held (self s) k)
              /\ dependencyIndex (self sf) !! dependency = None).
  { unfold bind at 1, get_state.
    destruct (dependencyIndex (self s) !! dependency) as [keys |] eqn:Hbucket.
    - destruct (delete_each_run keys 0 t s) as (n & s' & Hrun & _ & _ & Hheld & Hcount).
      unfold bind. rewrite Hrun. unfold on_fields, modify, ret.
      eexists n, keys, _. split; [reflexivity |]. cbn [self set_self].
      split; [exact (Hndeps _ _ Hbucket) |]. split; [| split; [| split]].
      + intros k. rewrite <- existsb_In.
        rewrite (bucket_deleted dependencies _ _ dependency keys k Hsdeps Hcdeps Hbucket). reflexivity.
      + rewrite Hcount; [lia | exact (Hndeps _ _ Hbucket) |].
        exact (bucket_held dependencies _ _ dependency keys Hsdeps Hbucket).
      + intros k.
        rewrite <- (bucket_deleted dependencies _ _ dependency keys k Hsdeps Hcdeps Hbucket).
        rewrite <- Hheld. reflexivity.
      + cbn [tagIndex dependencyIndex]. apply lookup_delete_eq.
    - exists 0, [], s. split; [reflexivity |]. split; [apply List.NoDup_nil |].
      split; [| split; [| split]].
      + intros k. rewrite (no_bucket dependencies _ _ dependency k Hcdeps Hbucket).
        split; [intros [] | discriminate].
      + reflexivity.
      + intros k. rewrite (no_bucket dependencies _ _ dependency k Hcdeps Hbucket). reflexivity.
      + exact Hbucket. }
  destruct Hbody as (n & keys & sf & Hbody & Hnodup & Hkeys & Hcount & Hheld & Hgone).
  unfold invalidateByDependency. cbn zeta.
  destruct (execute_ready_frames _ t s Hready Hframes) as (s1 & Hrun & Hself & _).
  rewrite Hbody in Hrun, Hself. cbn [outcome final fst snd] in Hrun, Hself.
  rewrite Hrun. cbn [outcome final fst snd]. rewrite Hself.
  exists n, keys. auto 10.
Qed.

End ExactInvalidation.

(** ** Consecutive failures and the circuit breaker *)

Section ConsecutiveFailures.
Import BaseStore BreakerSteps Calls.
Local Open Scope Z_scope.
Context {X T : Type}.
Implicit Types (operation : M (Store X) T) (s : Store X).

Lemma failing_call operation t s cb cfg :
  failing operation ->
  circuitBreaker s = Some cb -> circuitBreakerConfig s = Some cfg -> isOpen cb = false ->
  exists s',
    final (executeWithCircuitBreaker operation t s)
    = set_breaker (Some (after_failure cfg t cb)) s'
    /\ circuitBreakerConfig s' = Some cfg.
Proof.
  intros [Hframes Hfails] Hcb Hcfg Hclosed.
  specialize (Hframes t s). specialize (Hfails t s).
  destruct (operation t s) as [[r t'] s'] eqn:Hop.
  destruct Hframes as (-> & Hcb' & Hcfg'). cbn in Hfails.
  destruct r as [r | e]; [discriminate |].
  rewrite Hcb in Hcb'. rewrite Hcfg in Hcfg'.
  rewrite (execute_closed_failure operation t s cb cfg e t s' cb cfg Hcb Hcfg Hclosed Hop
             Hcb' Hcfg').
  exists s'. split; [reflexivity | exact Hcfg'].
Qed.

Lemma failures_in_a_row operation cfg clocks : forall s cb,
  failing operation ->
  circuitBreaker s = Some cb -> circuitBreakerConfig s = Some cfg -> isOpen cb = false ->
  failures cb + Z.of_nat (length clocks) <= errorThreshold cfg ->
  exists cb',
    circuitBreaker (after_calls operation clocks s) = Some cb'
    /\ circuitBreakerConfig (after_calls operation clocks s) = Some cfg
    /\ failures cb' = failures cb + Z.of_nat (length clocks)
    /\ isOpen cb'
       = (0 <? Z.of_nat (length clocks)) && (failures cb' =? errorThreshold cfg)
    /\ (isOpen cb' = true ->
        nextAttemptTime cb' = Some (List.last clocks 0 + timeout cfg)).
Proof.
  induction clocks as [| t rest IH]; intros s cb Hfailing Hcb Hcfg Hclosed Hroom.
  - exists cb. cbn. rewrite Z.add_0_r. split; [exact Hcb |]. split; [exact Hcfg |].
    split; [reflexivity |]. split; [exact Hclosed |]. congruence.
  - cbn [after_calls].
    destruct (failing_call operation t s cb cfg Hfailing Hcb Hcfg Hclosed) as (s' & -> & Hcfg').
    cbn [length] in Hroom. rewrite Nat2Z.inj_succ in Hroom.
    unfold after_failure. cbn [failures set_failures set_lastFailTime].
    destruct rest as [| t2 rest'].
    + cbn [after_calls length List.last].
      destruct (errorThreshold cfg <=? failures cb + 1) eqn:Hreached.
      * eexists. split; [reflexivity |]. split; [exact Hcfg' |]. cbn.
        split; [lia |]. split; [| reflexivity].
        symmetry. apply Z.eqb_eq. apply Z.leb_le in Hreached. lia.
      * eexists. split; [reflexivity |]. split; [exact Hcfg' |]. cbn.
        split; [lia |]. split; [| rewrite Hclosed; discriminate].
        rewrite Hclosed. symmetry. apply Z.eqb_neq. apply Z.leb_gt in Hreached. lia.
    + assert (Hbelow : (errorThreshold cfg <=? failures cb + 1) = false).
      { apply Z.leb_gt. cbn [length] in Hroom. lia. }
      rewrite Hbelow.
      edestruct (IH (set_breaker
                       (Some (mkBreaker (isOpen cb) (failures cb + 1) (Some t)
                                (nextAttemptTime cb))) s'))
        as (cb' & Hcb1 & Hcfg1 & Hcount & Hopen & Hnext);
        [exact Hfailing | reflexivity | exact Hcfg' | exact Hclosed | |].
      { cbn [failures]. cbn [length] in *. lia. }
      exists cb'. split; [exact Hcb1 |]. split; [exact Hcfg1 |].
      cbn [failures] in Hcount, Hopen. split; [cbn [length] in *; lia |].
      split; [| exact Hnext].
      rewrite Hopen. cbn [length]. reflexivity.
Qed.

(** The breaker of a fresh store after failures in a row. *)
Lemma threshold_opens operation cfg (x : X) clocks :
  failing operation -> enabled cfg = true ->
  Z.of_nat (length clocks) <= errorThreshold cfg ->
  let s := after_calls operation clocks (BaseStore.constructor (Some cfg) x) in
  exists cb,
    circuitBreaker s = Some cb
    /\ failures cb = Z.of_nat (length clocks)
    /\ isOpen cb = (0 <? Z.of_nat (length clocks))
                   && (Z.of_nat (length clocks) =? errorThreshold cfg)
    /\ (isOpen cb = true ->
        forall (following : M (Store X) T) now,
          0 <= now < List.last clocks 0 + timeout cfg ->
          executeWithCircuitBreaker following now s
          = (Throw (CircuitBreakerError "Circuit breaker is open"), now, s)).
Proof.
  intros Hfailing Henabled Hroom. cbn zeta.
  unfold BaseStore.constructor. rewrite Henabled.
  destruct (failures_in_a_row operation cfg clocks
              (mkStore (Some (mkBreaker false 0 None None)) (Some cfg) x)
              (mkBreaker false 0 None None) Hfailing eq_refl eq_refl eq_refl)
    as (cb & Hcb & Hcfg & Hcount & Hopen & Hnext).
  { cbn [failures]. lia. }
  cbn [failures] in Hcount. rewrite Z.add_0_l in Hcount.
  exists cb. split; [exact Hcb |]. split; [exact Hcount |].
  split; [rewrite Hopen, Hcount; reflexivity |].
  intros Hisopen following now Hnow.
  apply (execute_open_blocked following now _ cb cfg _ Hcb Hcfg Hisopen (Hnext Hisopen) Hnow).
Qed.


End ConsecutiveFailures.

(** ** The layered strategy at any depth *)

Section LayeredFanOut.
Import FanOut BreakerSteps Answers.
Context {St : Type} `{IStore St}.

Lemma promote_each_store key v mid : forall pre rest t,
  for_of (seq (length pre) (length mid))
    (fun i => try_catch (on_store i (store_set key v None)) (fun _ => ret tt))
    t (pre ++ mid ++ rest)
  = let '(ws, t', mid') := each_store (store_set key v None) t mid in
    (Ok tt, t', pre ++ mid' ++ rest).
Proof.
  induction mid as [| s mid IH]; intros pre rest t; [reflexivity |].
  cbn [length seq for_of each_store app].
  unfold bind at 1. unfold try_catch at 1. rewrite on_store_middle.
  destruct (store_set key v None t s) as [[w t1] s'].
  assert (Hnext :
            for_of (seq (S (length pre)) (length mid))
              (fun i => try_catch (on_store i (store_set key v None)) (fun _ => ret tt))
              t1 (pre ++ s' :: mid ++ rest)
            = let '(ws, t', mid') := each_store (store_set key v None) t1 mid in
              (Ok tt, t', pre ++ s' :: mid' ++ rest)).
  { rewrite snoc_middle, <- length_snoc with (s := s'), IH.
    destruct (each_store (store_set key v None) t1 mid) as [[ws t2] mid'].
    rewrite <- snoc_middle. reflexivity. }
  destruct w as [[] | e]; cbn [ret]; rewrite Hnext;
    destruct (each_store (store_set key v None) t1 mid) as [[ws t2] mid']; reflexivity.
Qed.

Lemma promoteValue_each_store key v above rest t :
  LayeredStrategy.promoteValue key v (length above) t (above ++ rest)
  = let '(ws, t', above') := each_store (store_set key v None) t above in
    (Ok tt, t', above' ++ rest).
Proof. exact (promote_each_store key v above [] rest t). Qed.

Lemma get_from_miss key rest : forall pre t,
  forallb missed (each_store (store_get key) t rest).1.1 = true ->
  LayeredStrategy.get_from (length rest) (length pre) key t (pre ++ rest)
  = (Ok VNull, (each_store (store_get key) t rest).1.2,
     pre ++ (each_store (store_get key) t rest).2).
Proof.
  induction rest as [| s rest IH]; intros pre t Hmiss; [reflexivity |].
  cbn [length LayeredStrategy.get_from each_store] in *.
  unfold bind at 1. unfold try_catch at 1. unfold bind at 1. rewrite on_store_middle.
  destruct (store_get key t s) as [[r t1] s'].
  specialize (IH (pre ++ [s']) t1).
  destruct (each_store (store_get key) t1 rest) as [[rs t2] rest'].
  cbn [fst snd forallb] in *. apply andb_prop in Hmiss as [Hr Hrest].
  rewrite length_snoc, <- !snoc_middle in IH.
  destruct r as [v | e]; [destruct v; try discriminate |]; cbn [ret]; apply IH, Hrest.
Qed.

Lemma get_from_hit key s below v : forall above pre t t2 s2,
  forallb missed (each_store (store_get key) t above).1.1 = true ->
  store_get key (each_store (store_get key) t above).1.2 s = (Ok v, t2, s2) ->
  v <> VNull ->
  LayeredStrategy.get_from (length (above ++ s :: below)) (length pre) key t
    (pre ++ above ++ s :: below)
  = (Ok v,
     (each_store (store_set key v None) t2
        (pre ++ (each_store (store_get key) t above).2)).1.2,
     (each_store (store_set key v None) t2
        (pre ++ (each_store (store_get key) t above).2)).2 ++ s2 :: below).
Proof.
  induction above as [| a above IH]; intros pre t t2 s2 Hmiss Hhit Hv.
  - cbn [each_store fst snd app length LayeredStrategy.get_from] in *.
    unfold bind at 1. unfold try_catch at 1. unfold bind at 1. rewrite on_store_middle.
    rewrite Hhit. rewrite app_nil_r.
    pose proof (promoteValue_each_store key v pre (s2 :: below) t2) as Hpromote.
    destruct (each_store (store_set key v None) t2 pre) as [[ws t3] promoted].
    cbn [fst snd].
    destruct v; try contradiction; unfold bind; rewrite Hpromote; reflexivity.
  - cbn [each_store app length LayeredStrategy.get_from] in *.
    unfold bind at 1. unfold try_catch at 1. unfold bind at 1. rewrite on_store_middle.
    destruct (store_get key t a) as [[r t1] a'].
    specialize (IH (pre ++ [a']) t1 t2 s2).
    destruct (each_store (store_get key) t1 above) as [[rs t1'] above1].
    cbn [fst snd forallb] in *. apply andb_prop in Hmiss as [Hr Hrest].
    rewrite length_snoc, <- !app_assoc in IH. cbn [app] in IH.
    destruct r as [w | e]; [destruct w; try discriminate |]; cbn [ret];
      apply IH; assumption.
Qed.

(** X10. The layered [get] reads through the chain at any depth.  When every
    store misses (answers null or throws), each store has been asked once,
    in order, and the answer is null.  When the stores above some store all
    miss and that store answers a value, the answer is that value, the value
    is then written to each of the stores above, in order, whatever those
    writes do, and the stores below are not touched. *)
Theorem layered_get_reads_through key t :
  (forall stores,
      forallb missed (each_store (store_get key) t stores).1.1 = true ->
      LayeredStrategy.get key t stores
      = (Ok VNull, (each_store (store_get key) t stores).1.2,
         (each_store (store_get key) t stores).2))
  /\ (forall above s below v t2 s2,
        forallb missed (each_store (store_get key) t above).1.1 = true ->
        store_get key (each_store (store_get key) t above).1.2 s = (Ok v, t2, s2) ->
        v <> VNull ->
        LayeredStrategy.get key t (above ++ s :: below)
        = (Ok v,
           (each_store (store_set key v None) t2 (each_store (store_get key) t above).2).1.2,
           (each_store (store_set key v None) t2 (each_store (store_get key) t above).2).2
           ++ s2 :: below)).
Proof.
  split.
  - intros stores Hmiss. unfold LayeredStrategy.get, bind, get_state.
    exact (get_from_miss key stores [] t Hmiss).
  - intros above s below v t2 s2 Hmiss Hhit Hv.
    unfold LayeredStrategy.get, bind, get_state.
    exact (get_from_hit key s below v above [] t t2 s2 Hmiss Hhit Hv).
Qed.

Lemma del_from_each_store key rest : forall pre found t,
  LayeredStrategy.del_from (length rest) (length pre) key found t (pre ++ rest)
  = let '(rs, t', rest') := each_store (store_del key) t rest in
    (Ok (found || existsb deleted rs), t', pre ++ rest').
Proof.
  induction rest as [| s rest IH]; intros pre found t.
  { cbn. rewrite orb_false_r. reflexivity. }
  cbn [length LayeredStrategy.del_from each_store].
  unfold bind at 1. unfold try_catch at 1. unfold bind at 1. rewrite on_store_middle.
  destruct (store_del key t s) as [[r t1] s'].
  destruct r as [[|] | e]; cbn [ret];
    rewrite snoc_middle, <- length_snoc with (s := s'), IH;
    destruct (each_store (store_del key) t1 rest) as [[rs t2] rest'];
    rewrite <- snoc_middle; cbn [existsb deleted];
    [rewrite orb_true_r; reflexivity | reflexivity | reflexivity].
Qed.

(** X11. The layered [del] asks every store, in order, each exactly once and
    without stopping at a store that deleted the key or that threw; it never
    throws, and it answers [true] exactly when some store answered [true]. *)
Theorem layered_del_asks_every_store key t stores :
  LayeredStrategy.del key t stores
  = let '(rs, t', stores') := each_store (store_del key) t stores in
    (Ok (existsb deleted rs), t', stores').
Proof.
  unfold LayeredStrategy.del, bind, get_state.
  exact (del_from_each_store key stores [] false t).
Qed.

Lemma clear_each_store mid : forall pre t,
  for_of (seq (length pre) (length mid))
    (fun i => try_catch (on_store i store_clear) (fun _ => ret tt)) t (pre ++ mid)
  = let '(rs, t', mid') := each_store store_clear t mid in
    (Ok tt, t', pre ++ mid').
Proof.
  induction mid as [| s mid IH]; intros pre t; [reflexivity |].
  cbn [length seq for_of each_store].
  unfold bind at 1. unfold try_catch at 1. rewrite on_store_middle.
  destruct (store_clear t s) as [[w t1] s'].
  assert (Hnext :
            for_of (seq (S (length pre)) (length mid))
              (fun i => try_catch (on_store i store_clear) (fun _ => ret tt))
              t1 (pre ++ s' :: mid)
            = let '(rs, t', mid') := each_store store_clear t1 mid in
              (Ok tt, t', pre ++ s' :: mid')).
  { rewrite snoc_middle, <- length_snoc with (s := s'), IH.
    destruct (each_store store_clear t1 mid) as [[rs t2] mid'].
    rewrite <- snoc_middle. reflexivity. }
  destruct w as [[] | e]; cbn [ret]; rewrite Hnext;
    destruct (each_store store_clear t1 mid) as [[rs t2] mid']; reflexivity.
Qed.

(** X12. The layered [clear] clears every store, in order, each exactly
    once; a store that throws does not stop the others, and the call itself
    never throws. *)
Theorem layered_clear_reaches_every_store t stores :
  LayeredStrategy.clear t stores
  = let '(rs, t', stores') := each_store store_clear t stores in
    (Ok tt, t', stores').
Proof.
  unfold LayeredStrategy.clear, bind, get_state.
  exact (clear_each_store stores [] t).
Qed.

End LayeredFanOut.

(** ** The order of the chain and bulk reads *)

Section LayeredOrder.
Import FanOut BreakerSteps Answers.
Context {St : Type} `{IStore St}.
Local Open Scope Z_scope.



Lemma on_store_length {A} (m : M St A) i t (stores : list St) :
  length (on_store i m t stores).2 = length stores.
Proof.
  unfold on_store. destruct (stores !! i) as [s |]; [| reflexivity].
  destruct (m t s) as [[r t'] s']. cbn. apply length_insert.
Qed.

Lemma promoteValue_returns key v n t (stores : list St) :
  exists t' stores',
    LayeredStrategy.promoteValue key v n t stores = (Ok tt, t', stores')
    /\ length stores' = length stores.
Proof.
  unfold LayeredStrategy.promoteValue. generalize (seq 0 n) as indexes.
  intros indexes. revert t stores.
  induction indexes as [| i indexes IH]; intros t stores; [cbn; eauto |].
  cbn [for_of]. unfold bind at 1. unfold try_catch at 1.
  pose proof (on_store_length (store_set key v None) i t stores) as Hlen.
  destruct (on_store i (store_set key v None) t stores) as [[w t1] stores1].
  cbn [snd] in Hlen.
  destruct (IH t1 stores1) as (t' & stores' & Hrun & Hlen').
  exists t', stores'. split; [| congruence].
  destruct w as [[] | e]; cbn [ret]; exact Hrun.
Qed.

Lemma absorb_returns storeIndex storeResults entries :
  forall fetchIndex results missingKeys t (stores : list St),
  exists results' missingKeys' t' stores',
    LayeredBulk.absorb storeIndex entries storeResults fetchIndex results missingKeys t stores
    = (Ok (results', missingKeys'), t', stores')
    /\ length results' = length results /\ length stores' = length stores.
Proof.
  induction entries as [| [index key] entries IH];
    intros fetchIndex results missingKeys t stores.
  { cbn. eauto 10. }
  cbn [LayeredBulk.absorb].
  assert (Hpromoted :
            forall value,
            exists results' missingKeys' t' stores',
              (LayeredStrategy.promoteValue key value storeIndex ;;;
               LayeredBulk.absorb storeIndex entries storeResults (S fetchIndex)
                 (<[index := value]> results)
                 (List.filter (fun '(i, _) => negb (Nat.eqb i index)) missingKeys)) t stores
              = (Ok (results', missingKeys'), t', stores')
              /\ length results' = length results /\ length stores' = length stores).
  { intros value. unfold bind.
    destruct (promoteValue_returns key value storeIndex t stores) as (t1 & stores1 & -> & Hlen1).
    destruct (IH (S fetchIndex) (<[index := value]> results)
                (List.filter (fun '(i, _) => negb (Nat.eqb i index)) missingKeys) t1 stores1)
      as (results' & missingKeys' & t' & stores' & Hrun & Hres & Hst).
    exists results', missingKeys', t', stores'. split; [exact Hrun |].
    rewrite length_insert in Hres. split; congruence. }
  destruct (nth fetchIndex storeResults VUndefined); try apply Hpromoted.
  apply IH.
Qed.

Lemma mget_from_returns n : forall i results missingKeys t (stores : list St),
  exists results' t' stores',
    LayeredBulk.mget_from n i results missingKeys t stores = (Ok results', t', stores')
    /\ length results' = length results /\ length stores' = length stores.
Proof.
  induction n as [| n IH]; intros i results missingKeys t stores; [cbn; eauto 10 |].
  cbn [LayeredBulk.mget_from].
  destruct (List.map snd missingKeys) as [| key keys] eqn:Hkeys; [cbn; eauto 10 |].
  unfold bind at 1. unfold try_catch at 1. unfold bind at 1.
  pose proof (on_store_length (store_mget (key :: keys)) i t stores) as Hlen.
  destruct (on_store i (store_mget (key :: keys)) t stores) as [[answer t1] stores1].
  cbn [snd] in Hlen.
  destruct answer as [storeResults | e].
  - destruct (absorb_returns i storeResults missingKeys 0%nat results missingKeys t1 stores1)
      as (results1 & missing1 & t2 & stores2 & -> & Hres & Hst).
    cbn [fst snd].
    destruct (IH (S i) results1 missing1 t2 stores2)
      as (results' & t' & stores' & Hrun & Hres' & Hst').
    exists results', t', stores'. split; [exact Hrun |]. split; congruence.
  - cbn [ret fst snd].
    destruct (IH (S i) results missingKeys t1 stores1)
      as (results' & t' & stores' & Hrun & Hres' & Hst').
    exists results', t', stores'. split; [exact Hrun |]. split; congruence.
Qed.

Lemma layered_mget_returns keys t (stores : list St) :
  exists results t' stores',
    LayeredBulk.mget keys t stores = (Ok results, t', stores')
    /\ length results = length keys /\ length stores' = length stores.
Proof.
  unfold LayeredBulk.mget, bind, get_state.
  destruct (mget_from_returns (length stores) 0%nat (List.repeat VNull (length keys))
              (List.combine (seq 0 (length keys)) keys) t stores)
    as (results & t' & stores' & Hrun & Hres & Hst).
  exists results, t', stores'. split; [exact Hrun |].
  rewrite List.repeat_length in Hres. split; assumption.
Qed.

(** X14. The layered [mget] never throws and answers with exactly one slot
    per requested key, whatever the stores do (throw, or answer with fewer
    slots than they were asked for); with no key to fetch it answers the
    empty list without calling any store. *)
Theorem layered_mget_one_slot_per_key keys t (stores : list St) :
  (exists results t' stores',
      LayeredBulk.mget keys t stores = (Ok results, t', stores')
      /\ length results = length keys /\ length stores' = length stores)
  /\ LayeredBulk.mget [] t stores = (Ok [], t, stores).
Proof.
  split.
  - apply layered_mget_returns.
  - unfold LayeredBulk.mget, bind, get_state. cbn [length List.repeat seq List.combine].
    destruct (length stores); reflexivity.
Qed.

End LayeredOrder.

(** ** The invalidators reach every store and never throw *)

Section Invalidators.
Import FanOut BreakerSteps Answers PerStore.
Context {St : Type} `{IStore St}.
Local Open Scope Z_scope.

(** A closure that runs one call on store [i] and counts a failure as 0. *)
Lemma map_stores_each_store (body : nat -> M (list St) Z) (call : M St Z) :
  (forall pre s rest t,
      body (length pre) t (pre ++ s :: rest)
      = let '(r, t', s') := call t s in (Ok (counted r), t', pre ++ s' :: rest)) ->
  forall rest pre t,
    map_stores body (length rest) (length pre) t (pre ++ rest)
    = let '(rs, t', rest') := each_store call t rest in
      (Ok (List.map counted rs), t', pre ++ rest').
Proof.
  intros Hbody. induction rest as [| s rest IH]; intros pre t; [reflexivity |].
  cbn [length map_stores each_store]. unfold bind at 1. rewrite Hbody.
  destruct (call t s) as [[r t1] s'].
  unfold bind at 1. rewrite snoc_middle, <- length_snoc with (s := s'), IH.
  destruct (each_store call t1 rest) as [[rs t2] rest'].
  rewrite <- snoc_middle. reflexivity.
Qed.

Lemma per_store_by_tag tag pre s rest t :
  TagInvalidator.per_store tag (length pre) t (pre ++ s :: rest)
  = let '(r, t', s') := by_tag tag t s in (Ok (counted r), t', pre ++ s' :: rest).
Proof.
  unfold TagInvalidator.per_store, try_catch, bind at 1, get_state.
  rewrite list_lookup_middle by reflexivity. cbn [mbind option_bind].
  unfold by_tag, native_or.
  destruct (store_invalidateByTag s) as [native |]; cbn [fmap option_fmap option_map].
  - rewrite on_store_middle. destruct (native tag t s) as [[[n | e] t1] s']; reflexivity.
  - reflexivity.
Qed.

(** X15. [TagInvalidator.invalidateByTag] never throws.  Each store is asked
    once, in order: its own [invalidateByTag] when it has one, nothing
    otherwise.  The answer is the sum of the counts of the stores, a store
    that threw counting for 0; with the [async] option the answer is 0 and
    the stores are invalidated all the same. *)
Theorem tag_invalidation_sums_the_stores tag options t (stores : list St) :
  TagInvalidator.invalidateByTag tag options t stores
  = let '(rs, t', stores') := each_store (by_tag tag) t stores in
    (Ok (if wants_async options then 0 else sum (List.map counted rs)), t', stores').
Proof.
  unfold TagInvalidator.invalidateByTag, bind at 1, get_state. unfold bind at 1.
  pose proof (map_stores_each_store _ (by_tag tag) (per_store_by_tag tag) stores [] t) as Hmap.
  cbn [length app] in Hmap. rewrite Hmap.
  destruct (each_store (by_tag tag) t stores) as [[rs t'] stores'].
  cbn [app]. destruct (wants_async options); reflexivity.
Qed.

Lemma del_each_del_keys keys pre s rest : forall count t,
  PatternInvalidator.del_each (length pre) keys count t (pre ++ s :: rest)
  = let '(r, t', s') := del_keys keys count t s in (r, t', pre ++ s' :: rest).
Proof.
  revert s. induction keys as [| key keys IH]; intros s count t; [reflexivity |].
  cbn [PatternInvalidator.del_each del_keys]. unfold bind. rewrite on_store_middle.
  destruct (store_del (VStr key) t s) as [[[deleted | e] t1] s1]; [| reflexivity].
  apply IH.
Qed.

Lemma per_store_by_pattern pattern pre s rest t :
  PatternInvalidator.per_store pattern (length pre) t (pre ++ s :: rest)
  = let '(r, t', s') := by_pattern pattern t s in (Ok (counted r), t', pre ++ s' :: rest).
Proof.
  unfold PatternInvalidator.per_store, try_catch, bind at 1, get_state.
  rewrite list_lookup_middle by reflexivity. cbn [mbind option_bind].
  unfold by_pattern, native_or.
  destruct (store_invalidateByPattern s) as [native |]; cbn [fmap option_fmap option_map].
  - rewrite on_store_middle. destruct (native pattern t s) as [[[n | e] t1] s']; reflexivity.
  - unfold bind at 1 2. rewrite on_store_middle.
    destruct (store_keys (Some pattern) t s) as [[[keys | e] t1] s1]; [| reflexivity].
    rewrite del_each_del_keys.
    destruct (del_keys keys 0 t1 s1) as [[[n | e] t2] s2]; reflexivity.
Qed.

(** X16. [PatternInvalidator.invalidateByPattern] never throws.  Each store is
    asked once, in order: its own [invalidateByPattern] when it has one, and
    otherwise its keys matching the pattern are listed and deleted one by
    one, counting the deletions that succeeded.  The answer is the sum of
    the counts, a store that threw (while listing or deleting) counting for
    0; with the [async] option the answer is 0 and the stores are
    invalidated all the same. *)
Theorem pattern_invalidation_sums_the_stores pattern options t (stores : list St) :
  PatternInvalidator.invalidateByPattern pattern options t stores
  = let '(rs, t', stores') := each_store (by_pattern pattern) t stores in
    (Ok (if wants_async options then 0 else sum (List.map counted rs)), t', stores').
Proof.
  unfold PatternInvalidator.invalidateByPattern, bind at 1, get_state. unfold bind at 1.
  pose proof (map_stores_each_store _ (by_pattern pattern) (per_store_by_pattern pattern)
                stores [] t) as Hmap.
  cbn [length app] in Hmap. rewrite Hmap.
  destruct (each_store (by_pattern pattern) t stores) as [[rs t'] stores'].
  cbn [app]. destruct (wants_async options); reflexivity.
Qed.

Lemma per_store_by_dependency dependency pre s rest t :
  DependencyInvalidator.per_store dependency (length pre) t (pre ++ s :: rest)
  = let '(r, t', s') := by_dependency dependency t s in
    (Ok (counted r), t', pre ++ s' :: rest).
Proof.
  unfold DependencyInvalidator.per_store, try_catch, bind at 1, get_state.
  rewrite list_lookup_middle by reflexivity. cbn [mbind option_bind].
  unfold by_dependency, native_or.
  destruct (store_invalidateByDependency s) as [native |]; cbn [fmap option_fmap option_map].
  - rewrite on_store_middle. destruct (native dependency t s) as [[[n | e] t1] s']; reflexivity.
  - reflexivity.
Qed.

(** X17. Without the [cascade] option, or with the [async] option,
    [DependencyInvalidator.invalidateByDependency] returns without any
    nested call and never throws: each store is asked once, in order, for
    its own [invalidateByDependency]; the answer is the sum of the counts,
    a store that threw or has no such method counting for 0, and 0 under
    [async]. *)
Theorem dependency_invalidation_without_cascade fuel dependency options t (stores : list St) :
  wants_async options = true \/ wants_cascade options = false ->
  DependencyInvalidator.invalidateByDependency (S fuel) dependency options t stores
  = let '(rs, t', stores') := each_store (by_dependency dependency) t stores in
    (Ok (Some (if wants_async options then 0 else sum (List.map counted rs))), t', stores').
Proof.
  intros Hflat.
  cbn [DependencyInvalidator.invalidateByDependency].
  unfold bind at 1, get_state. unfold bind at 1.
  pose proof (map_stores_each_store _ (by_dependency dependency)
                (per_store_by_dependency dependency) stores [] t) as Hmap.
  cbn [length app] in Hmap. rewrite Hmap.
  destruct (each_store (by_dependency dependency) t stores) as [[rs t'] stores'].
  cbn [app]. destruct (wants_async options); [reflexivity |].
  destruct Hflat as [Hasync | ->]; [discriminate | reflexivity].
Qed.

End Invalidators.

(** ** What the cache manager records *)

Section ManagerAccounting.
Import FanOut BreakerSteps Answers.
Context {St : Type} `{IStore St}.
Local Open Scope Z_scope.

(** A call through [withMetrics] has the outcome of the operation; it is
    recorded as one operation with the time it took, and as one error when
    it throws. *)
Lemma withMetrics_run {A} (operation : M (@CacheManager.t St) A) t manager :
  CacheManager.withMetrics operation t manager
  = let '(r, t', manager') := operation t manager in
    (r, t',
     CacheManager.set_metrics
       ((if failed r then MetricsCollector.recordError else fun m => m)
          (MetricsCollector.recordOperation (t' - t)
             (CacheManager.metricsCollector manager')))
       manager').
Proof.
  unfold CacheManager.withMetrics, bind at 1, Date_now. unfold try_catch.
  unfold bind at 1. destruct (operation t manager) as [[[a | e] t'] manager'].
  - unfold bind, Date_now, CacheManager.on_metrics, modify, ret. reflexivity.
  - unfold bind, Date_now, CacheManager.on_metrics, modify, throw.
    cbn. destruct manager'. reflexivity.
Qed.

Lemma layered_get_returns key : forall t (stores : list St),
  exists v t' stores',
    LayeredStrategy.get key t stores = (Ok v, t', stores')
    /\ length stores' = length stores.
Proof.
  intros t stores. unfold LayeredStrategy.get, bind, get_state.
  generalize (length stores) at 1 as n. generalize 0%nat as i. intros i n. revert i t stores.
  induction n as [| n IH]; intros i t stores; [cbn; eauto 10 |].
  cbn [LayeredStrategy.get_from]. unfold bind at 1. unfold try_catch at 1. unfold bind at 1.
  pose proof (on_store_length (store_get key) i t stores) as Hlen.
  destruct (on_store i (store_get key) t stores) as [[[v | e] t1] stores1]; cbn [snd] in Hlen.
  - assert (Hhit : v <> VNull ->
                   exists t' stores',
                     (LayeredStrategy.promoteValue key v i ;;; ret (Some v)) t1 stores1
                     = (Ok (Some v), t', stores') /\ length stores' = length stores).
    { intros _. unfold bind.
      destruct (promoteValue_returns key v i t1 stores1) as (t' & stores' & -> & Hlen').
      exists t', stores'. split; [reflexivity | congruence]. }
    destruct v;
      try (destruct Hhit as (t' & stores' & -> & Hlen'); [discriminate |];
           cbn [ret]; eauto 10).
    cbn [ret]. destruct (IH (S i) t1 stores1) as (v & t' & stores' & Hrun & Hlen').
    exists v, t', stores'. split; [exact Hrun | congruence].
  - cbn [ret]. destruct (IH (S i) t1 stores1) as (v & t' & stores' & Hrun & Hlen').
    exists v, t', stores'. split; [exact Hrun | congruence].
Qed.

(** X18. [CacheManager.get] never throws, and each call is recorded exactly
    once: as one operation with the time it took, and as one miss when the
    answer is null, one hit otherwise; no error is recorded. *)
Theorem manager_get_counts_a_hit_or_a_miss key t (manager : @CacheManager.t St) :
  exists v t' stores',
    LayeredStrategy.get key t (CacheManager.stores manager) = (Ok v, t', stores')
    /\ CacheManager.get key t manager
       = (Ok v, t',
          CacheManager.mkManager stores'
            (MetricsCollector.recordOperation (t' - t)
               ((if ManagerBulk.is_null v
                 then MetricsCollector.recordMiss else MetricsCollector.recordHit)
                  (CacheManager.metricsCollector manager)))).
Proof.
  destruct (layered_get_returns key t (CacheManager.stores manager))
    as (v & t' & stores' & Hget & _).
  exists v, t', stores'. split; [exact Hget |].
  unfold CacheManager.get. rewrite withMetrics_run.
  unfold bind at 1. unfold CacheManager.on_stores, focus. rewrite Hget.
  destruct v; reflexivity.
Qed.

Lemma record_each_run n record t (manager : @CacheManager.t St) :
  ManagerBulk.record_each n record t manager
  = (Ok tt, t,
     CacheManager.set_metrics (Nat.iter n record (CacheManager.metricsCollector manager))
       manager).
Proof.
  unfold ManagerBulk.record_each. generalize 0%nat as start. revert manager.
  induction n as [| n IH]; intros manager start.
  - cbn. destruct manager. reflexivity.
  - cbn [seq for_of]. unfold bind, CacheManager.on_metrics, modify. rewrite IH.
    cbn [CacheManager.metricsCollector CacheManager.set_metrics CacheManager.stores].
    rewrite Nat.iter_succ_r. reflexivity.
Qed.

Lemma hits_recorded n m :
  MetricsCollector.hits (Nat.iter n MetricsCollector.recordHit m)
  = MetricsCollector.hits m + Z.of_nat n
  /\ MetricsCollector.misses (Nat.iter n MetricsCollector.recordHit m)
     = MetricsCollector.misses m
  /\ MetricsCollector.operations (Nat.iter n MetricsCollector.recordHit m)
     = MetricsCollector.operations m
  /\ MetricsCollector.errors (Nat.iter n MetricsCollector.recordHit m)
     = MetricsCollector.errors m.
Proof.
  induction n as [| n (Hh & Hm & Ho & He)]; [cbn; repeat split; lia |].
  rewrite Nat2Z.inj_succ, !Nat.iter_succ.
  remember (Nat.iter n MetricsCollector.recordHit m) as m' eqn:Hm'. clear Hm'.
  destruct m'. cbn in *. repeat split; lia.
Qed.

Lemma misses_recorded n m :
  MetricsCollector.hits (Nat.iter n MetricsCollector.recordMiss m)
  = MetricsCollector.hits m
  /\ MetricsCollector.misses (Nat.iter n MetricsCollector.recordMiss m)
     = MetricsCollector.misses m + Z.of_nat n
  /\ MetricsCollector.operations (Nat.iter n MetricsCollector.recordMiss m)
     = MetricsCollector.operations m
  /\ MetricsCollector.errors (Nat.iter n MetricsCollector.recordMiss m)
     = MetricsCollector.errors m.
Proof.
  induction n as [| n (Hh & Hm & Ho & He)]; [cbn; repeat split; lia |].
  rewrite Nat2Z.inj_succ, !Nat.iter_succ.
  remember (Nat.iter n MetricsCollector.recordMiss m) as m' eqn:Hm'. clear Hm'.
  destruct m'. cbn in *. repeat split; lia.
Qed.

Lemma filter_split {A} (p : A -> bool) (l : list A) :
  (length (List.filter (fun x => negb (p x)) l) + length (List.filter p l) = length l)%nat.
Proof.
  induction l as [| x l IH]; [reflexivity |]. cbn. destruct (p x); cbn; lia.
Qed.

(** X19. [CacheManager.mget] never throws, answers with one slot per key,
    and records every key exactly once: one hit for each slot that is not
    null and one miss for each null slot, so that hits and misses together
    grow by the number of keys; the call is recorded as one operation and
    as no error. *)
Theorem manager_mget_counts_every_key keys t (manager : @CacheManager.t St) :
  exists results t' manager',
    ManagerBulk.mget keys t manager = (Ok results, t', manager')
    /\ length results = length keys
    /\ let before := CacheManager.metricsCollector manager in
       let after := CacheManager.metricsCollector manager' in
       MetricsCollector.hits after
       = MetricsCollector.hits before
         + Z.of_nat (length (List.filter (fun r => negb (ManagerBulk.is_null r)) results))
       /\ MetricsCollector.misses after
          = MetricsCollector.misses before
            + Z.of_nat (length (List.filter ManagerBulk.is_null results))
       /\ MetricsCollector.hits after + MetricsCollector.misses after
          = MetricsCollector.hits before + MetricsCollector.misses before
            + Z.of_nat (length keys)
       /\ MetricsCollector.operations after = MetricsCollector.operations before + 1
       /\ MetricsCollector.errors after = MetricsCollector.errors before.
Proof.
  destruct (layered_mget_returns keys t (CacheManager.stores manager))
    as (results & t' & stores' & Hmget & Hlen & _).
  unfold ManagerBulk.mget. rewrite withMetrics_run.
  unfold bind at 1. unfold CacheManager.on_stores, focus. rewrite Hmget.
  unfold bind. rewrite !record_each_run. cbn [failed ret].
  eexists results, t', _. split; [reflexivity |]. split; [exact Hlen |].
  cbn [CacheManager.metricsCollector CacheManager.set_metrics CacheManager.stores
         CacheManager.set_stores].
  set (hit := List.filter (fun r => negb (ManagerBulk.is_null r)) results).
  set (miss := List.filter ManagerBulk.is_null results).
  destruct (hits_recorded (length hit) (CacheManager.metricsCollector manager))
    as (Hh1 & Hm1 & Ho1 & He1).
  destruct (misses_recorded (length miss)
              (Nat.iter (length hit) MetricsCollector.recordHit
                 (CacheManager.metricsCollector manager)))
    as (Hh2 & Hm2 & Ho2 & He2).
  pose proof (filter_split ManagerBulk.is_null results) as Hsplit.
  fold hit miss in Hsplit.
  unfold MetricsCollector.recordOperation. cbn.
  rewrite Hh2, Hm2, Ho2, He2, Hh1, Hm1, Ho1, He1. repeat split; lia.
Qed.

Lemma keys_from_each_store pattern rest : forall pre allKeys t,
  ManagerBulk.keys_from (length rest) (length pre) pattern allKeys t (pre ++ rest)
  = let '(rs, t', rest') := each_store (store_keys pattern) t rest in
    (Ok (fold_left (fun all r =>
                      match r with
                      | Ok keys => fold_left (fun all key => MemoryStore.set_add key all) keys all
                      | Throw _ => all
                      end) rs allKeys),
     t', pre ++ rest').
Proof.
  induction rest as [| s rest IH]; intros pre allKeys t; [reflexivity |].
  cbn [length ManagerBulk.keys_from each_store].
  unfold bind at 1. unfold try_catch at 1. unfold bind at 1. rewrite on_store_middle.
  destruct (store_keys pattern t s) as [[r t1] s'].
  destruct r as [keys | e]; cbn [ret];
    rewrite snoc_middle, <- length_snoc with (s := s'), IH;
    destruct (each_store (store_keys pattern) t1 rest) as [[rs t2] rest'];
    rewrite <- snoc_middle; reflexivity.
Qed.

Lemma fold_set_add keys : forall all,
  List.NoDup all ->
  List.NoDup (fold_left (fun all key => MemoryStore.set_add key all) keys all)
  /\ forall k, In k (fold_left (fun all key => MemoryStore.set_add key all) keys all)
               <-> In k all \/ In k keys.
Proof.
  induction keys as [| key keys IH]; intros all Hnd; cbn [fold_left].
  - split; [exact Hnd |]. intros k. cbn. tauto.
  - destruct (IH (MemoryStore.set_add key all) (set_add_nodup key all Hnd)) as (Hnd' & Hin).
    split; [exact Hnd' |]. intros k. rewrite Hin, in_set_add. cbn. intuition.
Qed.

Lemma fold_keys rs : forall all,
  List.NoDup all ->
  let union :=
    fold_left (fun all (r : Result (list string)) =>
                 match r with
                 | Ok keys => fold_left (fun all key => MemoryStore.set_add key all) keys all
                 | Throw _ => all
                 end) rs all in
  List.NoDup union
  /\ forall k, In k union <-> In k all \/ exists keys, In (Ok keys) rs /\ In k keys.
Proof.
  induction rs as [| r rs IH]; intros all Hnd; cbn [fold_left].
  - split; [exact Hnd |]. intros k. split; [auto |]. intros [Hk | (keys & [] & _)]. exact Hk.
  - destruct r as [keys | e].
    + destruct (fold_set_add keys all Hnd) as (Hnd1 & Hin1).
      destruct (IH _ Hnd1) as (Hnd' & Hin). split; [exact Hnd' |].
      intros k. rewrite Hin, Hin1. split.
      * intros [[Hk | Hk] | (keys' & Hr & Hk)]; [auto | right | right].
        -- exists keys. split; [left; reflexivity | exact Hk].
        -- exists keys'. split; [right; exact Hr | exact Hk].
      * intros [Hk | (keys' & [Hr | Hr] & Hk)]; [auto | |].
        -- injection Hr as <-. auto.
        -- right. eauto.
    + destruct (IH all Hnd) as (Hnd' & Hin). split; [exact Hnd' |].
      intros k. rewrite Hin. split.
      * intros [Hk | (keys' & Hr & Hk)]; [auto |]. right. exists keys'. split; [right |]; auto.
      * intros [Hk | (keys' & [Hr | Hr] & Hk)]; [auto | discriminate |]. right. eauto.
Qed.

(** X20. [CacheManager.keys] never throws.  It answers with the union of the
    keys that the stores list for the pattern, without duplicates: a key is
    in the answer exactly when some store that answered listed it; a store
    that throws contributes nothing. *)
Theorem manager_keys_is_the_union pattern t (manager : @CacheManager.t St) :
  exists result,
    outcome (ManagerBulk.keys pattern t manager) = Ok result
    /\ List.NoDup result
    /\ forall k,
         In k result
         <-> exists keys,
               In (Ok keys)
                 (each_store (store_keys pattern) t (CacheManager.stores manager)).1.1
               /\ In k keys.
Proof.
  unfold ManagerBulk.keys. rewrite withMetrics_outcome, on_stores_outcome.
  unfold bind, get_state.
  pose proof (keys_from_each_store pattern (CacheManager.stores manager) [] [] t) as Hrun.
  cbn [length app] in Hrun. rewrite Hrun.
  destruct (each_store (store_keys pattern) t (CacheManager.stores manager)) as [[rs t'] stores'].
  cbn [outcome fst].
  destruct (fold_keys rs [] (List.NoDup_nil _)) as (Hnd & Hin).
  eexists. split; [reflexivity |]. split; [exact Hnd |].
  intros k. rewrite Hin. split; [intros [[] | Hk]; exact Hk | auto].
Qed.

End ManagerAccounting.

(** ** Patterns, stored nulls and rejected keys in a MemoryStore *)

Section StoreEdges.
Import BaseStore BreakerSteps MemoryStore Invariant Holding Effects Calls Reads.
Local Open Scope Z_scope.

(** [keys(pattern)] with a pattern that is not empty. *)
Lemma keys_pattern_ready pattern t (s : MemoryStore) :
  ready s -> String.eqb pattern "" = false ->
  outcome (keys (Some pattern) t s)
  = Ok (List.filter (RegExp.test (GlobTerms.terms_of pattern))
          (LRUCache.keys t (cache (self s)))).
Proof.
  intros Hready Hpattern. unfold keys.
  assert (Hframes :
            frames (allKeys <- cache_keys ;;
                    (if String.eqb pattern "" then ret allKeys
                     else match RegExp.compile (Pattern.patternToRegex pattern) with
                          | Some regex => ret (List.filter (RegExp.test regex) allKeys)
                          | None => throw (Error "Invalid regular expression")
                          end : M MemoryStore _))).
  { apply frames_bind; [apply frames_cache_keys |]. intros allKeys.
    destruct (String.eqb pattern ""); [apply frames_ret |].
    destruct (RegExp.compile (Pattern.patternToRegex pattern));
      [apply frames_ret | apply frames_throw]. }
  destruct (execute_ready_frames _ t s Hready Hframes) as (s1 & Hrun & _).
  rewrite Hrun. cbn [outcome fst].
  unfold bind, cache_keys. rewrite Hpattern, compile_patternToRegex. reflexivity.
Qed.

(** What the expression of a pattern accepts matches the pattern as a glob:
    the dot of the expression accepts no more than the wildcards do. *)
Lemma matches_glob pattern : forall key,
  RegExp.matches (GlobTerms.terms_of pattern) key = true ->
  Glob.glob_match pattern key = true.
Proof.
  induction pattern as [| p pattern IH]; intros key Hkey.
  { destruct key; [reflexivity | discriminate]. }
  cbn [GlobTerms.terms_of Glob.glob_match] in *. unfold GlobTerms.term_of in Hkey.
  destruct (Ascii.eqb p "*") eqn:Hstar.
  - cbn [RegExp.matches] in Hkey.
    induction key as [| c key IHkey].
    + apply orb_true_iff in Hkey as [Hkey | Hkey]; [| discriminate].
      rewrite (IH _ Hkey). reflexivity.
    + apply orb_true_iff in Hkey as [Hkey | Hkey].
      * rewrite (IH _ Hkey). reflexivity.
      * apply andb_true_iff in Hkey as [_ Hkey].
        rewrite (IHkey Hkey). apply orb_true_r.
  - destruct (Ascii.eqb p "?") eqn:Hquest; cbn [RegExp.matches] in Hkey;
      destruct key as [| c key]; try discriminate;
      apply andb_true_iff in Hkey as [Hc Hkey]; rewrite (IH _ Hkey).
    + reflexivity.
    + cbn [RegExp.atom_matches] in Hc. rewrite Ascii.eqb_sym, Hc. reflexivity.
Qed.

(** X21. [MemoryStore.keys(pattern)] never fails on the pattern, whatever
    characters it contains: the expression built by [patternToRegex] is
    always accepted.  Every key it lists is a live key of the cache that
    matches the pattern as a glob ([*] any run of characters, [?] any one
    character); and every live key that matches the pattern as a glob and
    holds no line terminator is listed.  An empty pattern lists every key,
    like no pattern.  (Keys and patterns are strings of the embedding:
    their characters are code units below 256, among which line feed and
    carriage return are the line terminators.) *)
Theorem keys_lists_the_glob_matches pattern t (s : MemoryStore) :
  ready s ->
  (String.eqb pattern "" = false ->
   exists listed,
     outcome (keys (Some pattern) t s) = Ok listed
     /\ (forall k,
           In k listed ->
           In k (LRUCache.keys t (cache (self s))) /\ Glob.glob_match pattern k = true)
     /\ (forall k,
           GlobTerms.has_line_terminator k = false ->
           In k (LRUCache.keys t (cache (self s))) -> Glob.glob_match pattern k = true ->
           In k listed))
  /\ outcome (keys (Some ""%string) t s) = outcome (keys None t s).
Proof.
  intros Hready. split.
  - intros Hpattern. rewrite (keys_pattern_ready pattern t s Hready Hpattern).
    eexists. split; [reflexivity |]. split.
    + intros k Hk. apply List.filter_In in Hk as [Hlive Hmatch].
      split; [exact Hlive | exact (matches_glob pattern k Hmatch)].
    + intros k Hk Hlive Hglob. apply List.filter_In. split; [exact Hlive |].
      unfold RegExp.test. rewrite (matches_terms_of pattern k Hk). exact Hglob.
  - unfold keys.
    assert (Hframes : frames (allKeys <- cache_keys ;; (ret allKeys : M MemoryStore _))).
    { apply frames_bind; [apply frames_cache_keys | intros allKeys; apply frames_ret]. }
    destruct (execute_ready_frames _ t s Hready Hframes) as (s1 & Hrun & _).
    cbn [String.eqb]. rewrite Hrun. reflexivity.
Qed.


Lemma after_gets_calls key clocks : forall s,
  after_gets key clocks s
  = after_calls
      (k <- validateKey name key ;;
       entry <- cache_get k ;;
       match entry with
       | None => ret VNull
       | Some entry =>
           now <- Date_now ;;
           if isExpired now (createdAt entry) (ttl entry)
           then cache_delete k ;;; ret VNull
           else
             now' <- Date_now ;;
             on_fields (fun f => set_cache (LRUCache.poke k (set_lastAccessed now') (cache f)) f) ;;;
             ret (value entry)
       end) clocks s.
Proof.
  induction clocks as [| t rest IH]; intros s; [reflexivity |].
  cbn [after_gets after_calls]. rewrite IH. reflexivity.
Qed.

(** X23. Rejected keys count as failures of the store.  In a MemoryStore
    built with an enabled breaker, [errorThreshold] reads in a row with an
    invalid key open the breaker, and until the retry time every call,
    also a read of a valid key that the store holds, is
    rejected with the circuit-open error. *)
Theorem invalid_keys_trip_the_breaker key capacity seconds cfg clocks k now :
  is_valid_key key = false -> enabled cfg = true ->
  clocks <> [] -> Z.of_nat (length clocks) = errorThreshold cfg ->
  0 <= now < List.last clocks 0 + timeout cfg ->
  let s := after_gets key clocks (constructor (mkStoreConfig capacity seconds (Some cfg))) in
  get (VStr k) now s = (Throw (CircuitBreakerError "Circuit breaker is open"), now, s).
Proof.
  intros Hkey Henabled Hsome Hlength Hnow. cbn zeta.
  rewrite after_gets_calls.
  pose proof (threshold_opens
                (k <- validateKey name key ;;
                 entry <- cache_get k ;;
                 match entry with
                 | None => ret VNull
                 | Some entry =>
                     now <- Date_now ;;
                     if isExpired now (createdAt entry) (ttl entry)
                     then cache_delete k ;;; ret VNull
                     else
                       now' <- Date_now ;;
                       on_fields (fun f => set_cache (LRUCache.poke k (set_lastAccessed now')
                                                        (cache f)) f) ;;;
                       ret (value entry)
                 end) cfg) as Hopens.
  unfold constructor.
  edestruct Hopens as (cb & Hcb & Hcount & Hopen & Hblocked).
  - split; [apply frames_get_body |]. intros t s.
    unfold bind at 1. rewrite (validateKey_invalid key t s Hkey). reflexivity.
  - exact Henabled.
  - rewrite Hlength. apply Z.le_refl.
  - unfold get. apply Hblocked; [| exact Hnow].
    rewrite Hopen, Hlength, Z.eqb_refl, andb_true_r. apply Z.ltb_lt.
    destruct clocks; [contradiction | cbn [length] in *; lia].
Qed.

End StoreEdges.

(** ** The two translations of a glob pattern *)

Section TwoTranslations.
Import Pattern GlobTerms InvalidatorPattern.
Local Open Scope string_scope.

Ltac settle_char c :=
  repeat match goal with
         | |- context [Ascii.eqb c ?x] =>
             let E := fresh "E" in
             destruct (Ascii.eqb c x) eqn:E;
             [apply Ascii.eqb_eq in E; subst c; cbn;
              first [left; reflexivity
                    | right; left; reflexivity
                    | right; right; left; repeat split; reflexivity] |]
         end.

(** A character is a wildcard, or a character that both translations
    escape, or a character that both keep. *)
Lemma special_cases c :
  c = "*"%char \/ c = "?"%char
  \/ (is_special c = true /\ is_escaped_char c = true
      /\ Ascii.eqb c "*" = false /\ Ascii.eqb c "?" = false)
  \/ (is_special c = false /\ is_escaped_char c = false
      /\ Ascii.eqb c "*" = false /\ Ascii.eqb c "?" = false /\ Ascii.eqb c "\" = false).
Proof.
  unfold is_special, is_escaped_char. cbn [existsb].
  settle_char c. right. right. right. repeat split; reflexivity.
Qed.

Lemma replace_escaped_other c x a rest :
  Ascii.eqb a "\" = false ->
  replace_escaped c x (String a rest) = String a (replace_escaped c x rest).
Proof.
  intros Ha. cbn [replace_escaped]. rewrite Ha. cbn [andb].
  destruct rest; reflexivity.
Qed.

Lemma replace_escaped_kept c x b rest :
  Ascii.eqb b c = false ->
  (forall h r, rest = String h r -> Ascii.eqb b "\" && Ascii.eqb h c = false) ->
  replace_escaped c x (String "\" (String b rest))
  = String "\" (String b (replace_escaped c x rest)).
Proof.
  intros Hb Hhead. cbn [replace_escaped]. rewrite Hb, andb_false_r.
  destruct rest as [| h r]; [reflexivity |].
  rewrite (Hhead h r eq_refl). reflexivity.
Qed.

Lemma replace_escaped_hit c x rest :
  replace_escaped c x (String "\" (String c rest)) = x ++ replace_escaped c x rest.
Proof.
  cbn [replace_escaped]. rewrite !Ascii.eqb_refl. reflexivity.
Qed.

(** What the escaping pass emits never begins with a wildcard. *)
Lemma escaped_head pattern h r :
  escaped pattern = String h r -> Ascii.eqb h "*" = false /\ Ascii.eqb h "?" = false.
Proof.
  destruct pattern as [| c pattern]; [discriminate |].
  unfold escaped. cbn [replace_each]. fold (escaped pattern).
  destruct (special_cases c) as [-> | [-> | [(Hs & _) | (Hs & _ & Hstar & Hquest & _)]]].
  - cbn. intros [= <- _]. split; reflexivity.
  - cbn. intros [= <- _]. split; reflexivity.
  - rewrite Hs, append_cons. intros [= <- _]. split; reflexivity.
  - rewrite Hs. unfold keep. rewrite append_cons. intros [= <- _]. split; assumption.
Qed.

(** The first replacement, one pattern character at a time. *)
Lemma first_pass_cons c pattern :
  replace_escaped "*" ".*" (escaped (String c pattern))
  = (if Ascii.eqb c "*" then ".*"
     else if is_special c then String "\" (keep c) else keep c)
    ++ replace_escaped "*" ".*" (escaped pattern).
Proof.
  unfold escaped. cbn [replace_each]. fold (escaped pattern).
  assert (Hhead : forall b h r, escaped pattern = String h r ->
                                Ascii.eqb b "\" && Ascii.eqb h "*" = false).
  { intros b h r Heq. destruct (escaped_head pattern h r Heq) as [-> _].
    apply andb_false_r. }
  destruct (special_cases c) as [-> | [-> | [(Hs & _ & Hstar & _) | (Hs & _ & Hstar & _ & Hback)]]].
  - cbn [is_special existsb Ascii.eqb Bool.eqb orb keep]. rewrite !append_cons, append_nil.
    apply replace_escaped_hit.
  - change (is_special "?") with true. change (Ascii.eqb "?" "*") with false.
    cbv iota. unfold keep. rewrite !append_cons, !append_nil.
    apply replace_escaped_kept; [reflexivity | apply Hhead].
  - rewrite Hs, Hstar. cbv iota. unfold keep. rewrite !append_cons, !append_nil.
    apply replace_escaped_kept; [exact Hstar | apply Hhead].
  - rewrite Hs, Hstar. cbv iota. unfold keep. rewrite !append_cons, !append_nil.
    apply replace_escaped_other. exact Hback.
Qed.

(** What the first replacement emits never begins with a question mark. *)
Lemma first_pass_head pattern h r :
  replace_escaped "*" ".*" (escaped pattern) = String h r -> Ascii.eqb h "?" = false.
Proof.
  destruct pattern as [| c pattern]; [discriminate |].
  rewrite first_pass_cons.
  destruct (special_cases c) as [-> | [-> | [(Hs & _ & Hstar & _) | (Hs & _ & Hstar & Hquest & _)]]].
  - cbn [Ascii.eqb Bool.eqb]. rewrite append_cons. intros [= <- _]. reflexivity.
  - change (is_special "?") with true. change (Ascii.eqb "?" "*") with false.
    cbv iota. rewrite append_cons. intros [= <- _]. reflexivity.
  - rewrite Hs, Hstar. cbv iota. rewrite append_cons. intros [= <- _]. reflexivity.
  - rewrite Hs, Hstar. cbv iota. unfold keep. rewrite append_cons. intros [= <- _]. exact Hquest.
Qed.

Lemma regexPattern_step c pattern :
  InvalidatorPattern.regexPattern (String c pattern)
  = source_of c ++ InvalidatorPattern.regexPattern pattern.
Proof.
  unfold InvalidatorPattern.regexPattern. rewrite first_pass_cons.
  assert (Hhead : forall b h r,
             replace_escaped "*" ".*" (escaped pattern) = String h r ->
             Ascii.eqb b "\" && Ascii.eqb h "?" = false).
  { intros b h r Heq. rewrite (first_pass_head pattern h r Heq). apply andb_false_r. }
  unfold source_of.
  destruct (special_cases c) as [-> | [-> | [(Hs & He & Hstar & Hquest) | (Hs & He & Hstar & Hquest & Hback)]]].
  - cbn [Ascii.eqb Bool.eqb]. rewrite !append_cons, append_nil.
    rewrite replace_escaped_other by reflexivity.
    rewrite replace_escaped_other by reflexivity. reflexivity.
  - change (is_special "?") with true. change (Ascii.eqb "?" "*") with false.
    change (Ascii.eqb "?" "?") with true. cbv iota. unfold keep.
    rewrite !append_cons, !append_nil.
    apply replace_escaped_hit.
  - rewrite Hs, He, Hstar, Hquest. cbv iota. unfold keep. rewrite !append_cons, !append_nil.
    apply replace_escaped_kept; [exact Hquest | apply Hhead].
  - rewrite Hs, He, Hstar, Hquest. cbv iota. unfold keep. rewrite !append_cons, !append_nil.
    apply replace_escaped_other. exact Hback.
Qed.

(** X24. The private [patternToRegex] of PatternInvalidator and the one of
    MemoryStore build the same regular expression for every pattern, although
    they go about it differently (the first escapes the wildcards and then
    rewrites the escaped wildcards, the second never escapes them). *)
Theorem both_translations_agree pattern :
  InvalidatorPattern.patternToRegex pattern = Pattern.patternToRegex pattern.
Proof.
  unfold InvalidatorPattern.patternToRegex, Pattern.patternToRegex. do 2 f_equal.
  induction pattern as [| c pattern IH]; [reflexivity |].
  rewrite regexPattern_step, regexPattern_cons, IH. reflexivity.
Qed.

End TwoTranslations.

(** ** The children of a dependency *)

Section ChildDependencies.
Import FanOut BreakerSteps DependencyInvalidator Children.
Context {St : Type} `{IStore St}.

Lemma listed_once_snoc children dep :
  listed_once children = true ->
  existsb (js_eqb dep) children = false ->
  listed_once (children ++ [dep]) = true.
Proof.
  induction children as [| x rest IH]; intros Honce Hnew; [reflexivity |].
  cbn [listed_once app existsb] in *.
  apply andb_prop in Honce as [Hx Hrest]. apply orb_false_elim in Hnew as [Hdx Hdrest].
  rewrite forallb_app, Hx, (IH Hrest Hdrest). cbn. rewrite Hdx. reflexivity.
Qed.

Lemma add_child_keeps parent dep children :
  js_eqb dep parent = false ->
  existsb (fun child => js_eqb child parent) children = false /\ listed_once children = true ->
  existsb (fun child => js_eqb child parent) (add_child dep children) = false
  /\ listed_once (add_child dep children) = true.
Proof.
  intros Hdep [Hnot Honce]. unfold add_child.
  destruct (existsb (js_eqb dep) children) eqn:Hseen; [split; assumption |].
  split.
  - rewrite existsb_app, Hnot. cbn. rewrite Hdep. reflexivity.
  - apply listed_once_snoc; assumption.
Qed.

Lemma children_of_keeps parent value children :
  existsb (fun child => js_eqb child parent) children = false /\ listed_once children = true ->
  existsb (fun child => js_eqb child parent) (children_of parent value children) = false
  /\ listed_once (children_of parent value children) = true.
Proof.
  intros Hinv. unfold children_of.
  destruct (js_truthy value && js_is_object value
            && js_truthy (js_property "dependencies" value)); [| exact Hinv].
  set (dependencies := match js_property "dependencies" value with
                       | VArr items => items
                       | other => [other]
                       end).
  destruct (existsb (js_eqb parent) dependencies); [| exact Hinv].
  clearbody dependencies. revert children Hinv.
  induction dependencies as [| dep rest IH]; intros children Hinv; [exact Hinv |].
  cbn [fold_left]. apply IH.
  destruct (js_eqb dep parent) eqn:Hdep; [exact Hinv |].
  apply add_child_keeps; assumption.
Qed.

Lemma scan_keys_returns parent i keys : forall children t (stores : list St),
  existsb (fun child => js_eqb child parent) children = false /\ listed_once children = true ->
  exists children' t' stores',
    scan_keys parent i keys children t stores = (Ok children', t', stores')
    /\ length stores' = length stores
    /\ existsb (fun child => js_eqb child parent) children' = false
    /\ listed_once children' = true.
Proof.
  induction keys as [| key rest IH]; intros children t stores Hinv.
  { exists children, t, stores. cbn. destruct Hinv. auto. }
  cbn [scan_keys]. unfold bind at 1. unfold try_catch at 1. unfold bind at 1.
  pose proof (on_store_length (store_get (VStr key)) i t stores) as Hlen.
  destruct (on_store i (store_get (VStr key)) t stores) as [[[value | e] t1] stores1];
    cbn [snd] in Hlen; cbn [ret].
  - destruct (IH (children_of parent value children) t1 stores1
                (children_of_keeps parent value children Hinv))
      as (children' & t' & stores' & Hrun & Hlen' & Hkept).
    exists children', t', stores'. split; [exact Hrun |]. split; [congruence | exact Hkept].
  - exists children, t1, stores1. destruct Hinv. auto.
Qed.

Lemma scan_stores_returns parent n : forall i children t (stores : list St),
  existsb (fun child => js_eqb child parent) children = false /\ listed_once children = true ->
  exists children' t' stores',
    scan_stores parent n i children t stores = (Ok children', t', stores')
    /\ length stores' = length stores
    /\ existsb (fun child => js_eqb child parent) children' = false
    /\ listed_once children' = true.
Proof.
  induction n as [| n IH]; intros i children t stores Hinv.
  { exists children, t, stores. cbn. destruct Hinv. auto. }
  cbn [scan_stores]. unfold bind at 1. unfold try_catch at 1. unfold bind at 1.
  pose proof (on_store_length (store_keys (Some "*"%string)) i t stores) as Hlen.
  destruct (on_store i (store_keys (Some "*"%string)) t stores) as [[[keys | e] t1] stores1];
    cbn [snd] in Hlen; cbn [ret]; unfold bind at 1.
  - destruct (scan_keys_returns parent i keys children t1 stores1 Hinv)
      as (children1 & t2 & stores2 & -> & Hlen2 & Hkept).
    destruct (IH (S i) children1 t2 stores2 Hkept)
      as (children' & t' & stores' & Hrun & Hlen' & Hkept').
    exists children', t', stores'. split; [exact Hrun |]. split; [congruence | exact Hkept'].
  - cbn [ret].
    destruct (IH (S i) children t1 stores1 Hinv)
      as (children' & t' & stores' & Hrun & Hlen' & Hkept').
    exists children', t', stores'. split; [exact Hrun |]. split; [congruence | exact Hkept'].
Qed.

End ChildDependencies.

(** ** The cascade with a visited set returns *)

Section VisitedSet.
Import FanOut BreakerSteps DependencyInvalidator Reach.

Lemma js_eqb_refl : forall v, js_eqb v v = true.
Proof.
  fix IH 1. intros [| | b | n | s | items | fields]; cbn [js_eqb].
  - reflexivity.
  - reflexivity.
  - apply Bool.eqb_reflx.
  - apply Z.eqb_refl.
  - apply String.eqb_refl.
  - induction items as [| x items IHitems]; [reflexivity |].
    rewrite (IH x). exact IHitems.
  - induction fields as [| [name x] fields IHfields]; [reflexivity |].
    rewrite String.eqb_refl, (IH x). exact IHfields.
Qed.

(** The measure of a cascade: the dependencies of [all] not yet visited. *)
Lemma filter_length_le {A} (p q : A -> bool) (l : list A) :
  (forall x, q x = true -> p x = true) ->
  length (List.filter q l) <= length (List.filter p l).
Proof.
  intros Himp. induction l as [| x l IH]; [reflexivity |]. cbn [List.filter].
  destruct (q x) eqn:Hq.
  - rewrite (Himp x Hq). cbn. lia.
  - destruct (p x); cbn; lia.
Qed.

Lemma filter_length_lt {A} (p q : A -> bool) (l : list A) x :
  (forall y, q y = true -> p y = true) ->
  In x l -> p x = true -> q x = false ->
  length (List.filter q l) < length (List.filter p l).
Proof.
  intros Himp Hin Hp Hq. induction l as [| y l IH]; [destruct Hin |].
  cbn [List.filter]. destruct Hin as [-> | Hin].
  - rewrite Hp, Hq. cbn. pose proof (filter_length_le p q l Himp). lia.
  - specialize (IH Hin). destruct (q y) eqn:Hqy.
    + rewrite (Himp y Hqy). cbn. lia.
    + destruct (p y); cbn; lia.
Qed.

Lemma unvisited_le all visited visited' :
  (forall u, existsb (js_eqb u) visited = true -> existsb (js_eqb u) visited' = true) ->
  unvisited all visited' <= unvisited all visited.
Proof.
  intros Hext. unfold unvisited. apply filter_length_le.
  intros u Hu. apply negb_true_iff in Hu. apply negb_true_iff.
  destruct (existsb (js_eqb u) visited) eqn:Hv; [| reflexivity].
  rewrite (Hext u Hv) in Hu. discriminate.
Qed.

Lemma unvisited_nothing all : unvisited all [] = length all.
Proof.
  unfold unvisited. induction all as [| u all IH]; [reflexivity |].
  cbn [List.filter existsb negb length]. f_equal. exact IH.
Qed.

Lemma unvisited_lt all visited dep :
  In dep all -> existsb (js_eqb dep) visited = false ->
  unvisited all (add_child dep visited) < unvisited all visited.
Proof.
  intros Hin Hnew. unfold unvisited, add_child. rewrite Hnew.
  apply (filter_length_lt _ _ all dep).
  - intros u Hu. apply negb_true_iff in Hu. apply negb_true_iff.
    rewrite existsb_app in Hu. apply orb_false_elim in Hu as [Hu _]. exact Hu.
  - exact Hin.
  - rewrite Hnew. reflexivity.
  - rewrite existsb_app. cbn. rewrite js_eqb_refl, orb_true_r. reflexivity.
Qed.

Lemma add_child_extends dep visited u :
  existsb (js_eqb u) visited = true -> existsb (js_eqb u) (add_child dep visited) = true.
Proof.
  intros Hu. unfold add_child. destruct (existsb (js_eqb dep) visited); [exact Hu |].
  rewrite existsb_app, Hu. reflexivity.
Qed.

Lemma add_child_incl dep children all :
  incl children all -> In dep all -> incl (add_child dep children) all.
Proof.
  intros Hc Hd. unfold add_child. destruct (existsb (js_eqb dep) children); [exact Hc |].
  apply incl_app; [exact Hc |]. intros x [<- | []]. exact Hd.
Qed.

Lemma children_of_incl parent value children all :
  incl children all -> incl (dependencies_of value) all ->
  incl (children_of parent value children) all.
Proof.
  intros Hc Hd. unfold children_of. unfold dependencies_of in Hd.
  destruct (js_truthy value && js_is_object value
            && js_truthy (js_property "dependencies" value)); [| exact Hc].
  set (dependencies := match js_property "dependencies" value with
                       | VArr items => items
                       | other => [other]
                       end) in *.
  destruct (existsb (js_eqb parent) dependencies); [| exact Hc].
  clearbody dependencies. revert children Hc.
  induction dependencies as [| dep rest IH]; intros children Hc; [exact Hc |].
  cbn [fold_left]. apply IH.
  - intros x Hx. apply Hd. right. exact Hx.
  - destruct (js_eqb dep parent); [exact Hc |].
    apply add_child_incl; [exact Hc |]. apply Hd. left. reflexivity.
Qed.

End VisitedSet.

Section CascadeReturns.
Import FanOut BreakerSteps DependencyInvalidator Reach.
Context {St : Type} `{IStore St}.
Variable all : list JsValue.
Variable within : St -> Prop.
Hypothesis within_keys : forall pattern t s, within s -> within (store_keys pattern t s).2.
Hypothesis within_get : forall key t s,
  within s ->
  within (store_get key t s).2
  /\ forall value, (store_get key t s).1.1 = Ok value -> incl (dependencies_of value) all.
Hypothesis within_native : forall s native dependency t,
  store_invalidateByDependency s = Some native ->
  within s -> within (native dependency t s).2.

Lemma on_store_within {A} (m : M St A) i t (stores : list St) :
  Forall within stores -> (forall s, within s -> within (m t s).2) ->
  Forall within (on_store i m t stores).2.
Proof.
  intros Hall Hm. unfold on_store. destruct (stores !! i) as [s |] eqn:Hs; [| exact Hall].
  pose proof (Hm s (proj1 (Forall_lookup within stores) Hall i s Hs)) as Hs'.
  destruct (m t s) as [[r t'] s']. cbn [snd] in *. apply Forall_insert; assumption.
Qed.

Lemma per_store_within dependency i t (stores : list St) :
  Forall within stores ->
  exists n t' stores',
    per_store dependency i t stores = (Ok n, t', stores') /\ Forall within stores'.
Proof.
  intros Hall. unfold per_store, try_catch, bind at 1, get_state.
  destruct (stores !! i) as [s |] eqn:Hs; cbn [mbind option_bind]; [| cbn; eauto].
  destruct (store_invalidateByDependency s) as [native |] eqn:Hnative; [| cbn; eauto].
  assert (Hkept : Forall within (on_store i (native dependency) t stores).2).
  { unfold on_store. rewrite Hs.
    pose proof (within_native s native dependency t Hnative
                  (proj1 (Forall_lookup within stores) Hall i s Hs)) as Hs'.
    destruct (native dependency t s) as [[r t'] s']. cbn [snd] in *.
    apply Forall_insert; assumption. }
  destruct (on_store i (native dependency) t stores) as [[[n | e] t'] stores'];
    cbn [snd] in Hkept; cbn; eauto.
Qed.

Lemma map_stores_within dependency n : forall i t (stores : list St),
  Forall within stores ->
  exists results t' stores',
    map_stores (per_store dependency) n i t stores = (Ok results, t', stores')
    /\ Forall within stores'.
Proof.
  induction n as [| n IH]; intros i t stores Hall; [cbn; eauto |].
  cbn [map_stores]. unfold bind at 1.
  destruct (per_store_within dependency i t stores Hall) as (r & t1 & stores1 & -> & Hall1).
  unfold bind at 1.
  destruct (IH (S i) t1 stores1 Hall1) as (results & t' & stores' & -> & Hall').
  cbn. eauto.
Qed.

Lemma scan_keys_within parent i keys : forall children t (stores : list St),
  Forall within stores -> incl children all ->
  exists children' t' stores',
    scan_keys parent i keys children t stores = (Ok children', t', stores')
    /\ Forall within stores' /\ incl children' all.
Proof.
  induction keys as [| key rest IH]; intros children t stores Hall Hc; [cbn; eauto 10 |].
  cbn [scan_keys]. unfold bind at 1. unfold try_catch at 1. unfold bind at 1.
  assert (Hkept : Forall within (on_store i (store_get (VStr key)) t stores).2).
  { apply on_store_within; [exact Hall |]. intros s Hs. apply within_get, Hs. }
  assert (Hvalue : forall value,
             (on_store i (store_get (VStr key)) t stores).1.1 = Ok value ->
             incl (dependencies_of value) all).
  { unfold on_store. destruct (stores !! i) as [s |] eqn:Hs; [| discriminate].
    pose proof (within_get (VStr key) t s
                  (proj1 (Forall_lookup within stores) Hall i s Hs)) as [_ Hnames].
    destruct (store_get (VStr key) t s) as [[r t'] s']. cbn [fst snd] in *. exact Hnames. }
  destruct (on_store i (store_get (VStr key)) t stores) as [[[value | e] t1] stores1];
    cbn [fst snd] in Hkept, Hvalue; cbn [ret].
  - apply IH; [exact Hkept |].
    apply children_of_incl; [exact Hc | apply Hvalue; reflexivity].
  - eauto 10.
Qed.

Lemma scan_stores_within parent n : forall i children t (stores : list St),
  Forall within stores -> incl children all ->
  exists children' t' stores',
    scan_stores parent n i children t stores = (Ok children', t', stores')
    /\ Forall within stores' /\ incl children' all.
Proof.
  induction n as [| n IH]; intros i children t stores Hall Hc; [cbn; eauto 10 |].
  cbn [scan_stores]. unfold bind at 1. unfold try_catch at 1. unfold bind at 1.
  assert (Hkept : Forall within (on_store i (store_keys (Some "*"%string)) t stores).2).
  { apply on_store_within; [exact Hall |]. intros s Hs. apply within_keys, Hs. }
  destruct (on_store i (store_keys (Some "*"%string)) t stores) as [[[keys | e] t1] stores1];
    cbn [snd] in Hkept; cbn [ret]; unfold bind at 1.
  - destruct (scan_keys_within parent i keys children t1 stores1 Hkept Hc)
      as (children1 & t2 & stores2 & -> & Hall2 & Hc2).
    apply IH; assumption.
  - cbn [ret]. apply IH; assumption.
Qed.

Lemma findChildDependencies_within parent t (stores : list St) :
  Forall within stores ->
  exists children t' stores',
    findChildDependencies parent t stores = (Ok children, t', stores')
    /\ Forall within stores' /\ incl children all.
Proof.
  intros Hall. unfold findChildDependencies, bind, get_state.
  apply scan_stores_within; [exact Hall |]. intros x [].
Qed.

Lemma sum_children_returns (invalidate : JsValue -> M VisitedDependencyInvalidator.Run (option Z))
    (bound : nat) :
  (forall child t r,
     In child all -> Forall within (VisitedDependencyInvalidator.stores r) ->
     unvisited all (VisitedDependencyInvalidator.visited r) < bound ->
     exists n t' r',
       invalidate child t r = (Ok (Some n), t', r')
       /\ Forall within (VisitedDependencyInvalidator.stores r')
       /\ forall u, existsb (js_eqb u) (VisitedDependencyInvalidator.visited r) = true ->
                    existsb (js_eqb u) (VisitedDependencyInvalidator.visited r') = true) ->
  forall children total t r,
    incl children all -> Forall within (VisitedDependencyInvalidator.stores r) ->
    unvisited all (VisitedDependencyInvalidator.visited r) < bound ->
    exists n t' r',
      sum_children invalidate children total t r = (Ok (Some n), t', r')
      /\ Forall within (VisitedDependencyInvalidator.stores r')
      /\ forall u, existsb (js_eqb u) (VisitedDependencyInvalidator.visited r) = true ->
                   existsb (js_eqb u) (VisitedDependencyInvalidator.visited r') = true.
Proof.
  intros Hcall. induction children as [| child rest IH]; intros total t r Hc Hall Hfuel.
  - cbn. eauto 10.
  - cbn [sum_children]. unfold bind at 1.
    destruct (Hcall child t r (Hc child (or_introl eq_refl)) Hall Hfuel)
      as (n & t1 & r1 & -> & Hall1 & Hext1).
    destruct (IH (total + n)%Z t1 r1) as (m & t2 & r2 & Hrun & Hall2 & Hext2).
    + intros x Hx. apply Hc. right. exact Hx.
    + exact Hall1.
    + pose proof (unvisited_le all _ _ Hext1). lia.
    + exists m, t2, r2. repeat split; [exact Hrun | exact Hall2 |].
      intros u Hu. apply Hext2, Hext1, Hu.
Qed.

Lemma invalidateByDependencyInternal_returns : forall fuel dependency options t r,
  In dependency all -> Forall within (VisitedDependencyInvalidator.stores r) ->
  unvisited all (VisitedDependencyInvalidator.visited r) < fuel ->
  exists n t' r',
    VisitedDependencyInvalidator.invalidateByDependencyInternal fuel dependency options t r
    = (Ok (Some n), t', r')
    /\ Forall within (VisitedDependencyInvalidator.stores r')
    /\ forall u, existsb (js_eqb u) (VisitedDependencyInvalidator.visited r) = true ->
                 existsb (js_eqb u) (VisitedDependencyInvalidator.visited r') = true.
Proof.
  induction fuel as [| fuel IH]; intros dependency options t r Hin Hall Hfuel; [lia |].
  cbn [VisitedDependencyInvalidator.invalidateByDependencyInternal].
  unfold bind at 1, get_state.
  destruct (existsb (js_eqb dependency) (VisitedDependencyInvalidator.visited r)) eqn:Hseen.
  { unfold VisitedDependencyInvalidator.console_warn, bind, modify, ret.
    eexists _, _, _. split; [reflexivity |]. cbn. split; [exact Hall | auto]. }
  unfold VisitedDependencyInvalidator.visited_add, bind at 1, modify.
  unfold bind at 1, VisitedDependencyInvalidator.on_stores, focus.
  cbn [VisitedDependencyInvalidator.stores VisitedDependencyInvalidator.visited
       VisitedDependencyInvalidator.warnings].
  destruct (map_stores_within dependency (length (VisitedDependencyInvalidator.stores r)) 0 t
              (VisitedDependencyInvalidator.stores r) Hall)
    as (results & t1 & stores1 & -> & Hall1).
  set (r1 := VisitedDependencyInvalidator.mkRun _ _ stores1).
  assert (Hext1 : forall u,
             existsb (js_eqb u) (VisitedDependencyInvalidator.visited r) = true ->
             existsb (js_eqb u) (VisitedDependencyInvalidator.visited r1) = true).
  { intros u Hu. apply add_child_extends, Hu. }
  assert (Hfuel1 : unvisited all (VisitedDependencyInvalidator.visited r1) < fuel).
  { pose proof (unvisited_lt all _ dependency Hin Hseen). subst r1. cbn. lia. }
  assert (Hkept1 : Forall within (VisitedDependencyInvalidator.stores r1)) by exact Hall1.
  destruct (wants_async options); [cbn; eauto 10 |].
  destruct (wants_cascade options); [| cbn; eauto 10].
  unfold bind at 1, VisitedDependencyInvalidator.cascadeInvalidation.
  unfold bind at 1, VisitedDependencyInvalidator.on_stores, focus.
  destruct (findChildDependencies_within dependency t1
              (VisitedDependencyInvalidator.stores r1) Hkept1)
    as (children & t2 & stores2 & -> & Hall2 & Hc).
  set (r2 := VisitedDependencyInvalidator.mkRun _ _ stores2).
  destruct children as [| child rest] eqn:Hchildren.
  { cbn [ret option_map]. eexists _, _, _. split; [reflexivity |].
    split; [exact Hall2 | exact Hext1]. }
  rewrite <- Hchildren in *. clear Hchildren.
  destruct (sum_children_returns
              (fun child => VisitedDependencyInvalidator.invalidateByDependencyInternal fuel
                              child (with_cascade true options))
              fuel
              (fun child t r => IH child (with_cascade true options) t r)
              children 0%Z t2 r2 Hc Hall2 Hfuel1)
    as (n & t3 & r3 & -> & Hall3 & Hext3).
  cbn [ret option_map]. eexists _, _, _. split; [reflexivity |].
  split; [exact Hall3 |]. intros u Hu. apply Hext3, Hext1, Hu.
Qed.

End CascadeReturns.

(** ** The cascade over MemoryStores *)

Section CascadeOverMemoryStores.
Import BaseStore MemoryStore Invariant Effects Reach.
Variable all : list JsValue.

Lemma names_within_shrink (f f' : Fields) :
  names_within all f ->
  (forall k e', held f' k = Some e' -> exists e, held f k = Some e /\ value e' = value e) ->
  names_within all f'.
Proof.
  intros Hf Hshrink k e' Hk. destruct (Hshrink k e' Hk) as (e & He & ->). exact (Hf k e He).
Qed.

Lemma names_within_rest (f : Fields) c' disposed k :
  names_within all f ->
  (forall k', LRUCache.lookup k' c' = if String.eqb k' k then None else held f k') ->
  names_within all (dispose disposed (set_cache c' f)).
Proof.
  intros Hf Hrest. apply (names_within_shrink f); [exact Hf |].
  intros k' e' Hk'. unfold held in Hk'. rewrite cache_dispose in Hk'. cbn [cache set_cache] in Hk'.
  rewrite Hrest in Hk'. destruct (String.eqb k' k); [discriminate |]. eauto.
Qed.

Lemma names_within_same (f : Fields) c' disposed :
  names_within all f ->
  (forall k', LRUCache.lookup k' c' = held f k') ->
  names_within all (dispose disposed (set_cache c' f)).
Proof.
  intros Hf Hsame. apply (names_within_shrink f); [exact Hf |].
  intros k' e' Hk'. unfold held in Hk'. rewrite cache_dispose in Hk'. cbn [cache set_cache] in Hk'.
  rewrite Hsame in Hk'. eauto.
Qed.

Lemma names_within_cache_get k : keeps (names_within all) (cache_get k).
Proof.
  intros t s Hall. unfold cache_get.
  pose proof (get_effect t k (cache (self s))) as Heffect.
  destruct (LRUCache.get t k (cache (self s))) as [[found disposed] c'].
  cbn [snd self set_self].
  destruct Heffect as [(_ & _ & -> & _) | [(v & _ & _ & _ & Hrest) | (v & _ & _ & _ & Hsame)]].
  - apply names_within_same; [exact Hall | reflexivity].
  - eapply names_within_rest; eassumption.
  - apply names_within_same; assumption.
Qed.

Lemma names_within_cache_delete k : keeps (names_within all) (cache_delete k).
Proof.
  intros t s Hall. unfold cache_delete.
  pose proof (delete_effect k (cache (self s))) as Heffect.
  destruct (LRUCache.delete k (cache (self s))) as [[deleted disposed] c'].
  cbn [snd self set_self].
  destruct Heffect as [(_ & _ & ->) | (v & _ & _ & _ & Hrest)].
  - apply names_within_same; [exact Hall | reflexivity].
  - eapply names_within_rest; eassumption.
Qed.

Lemma names_within_touch k now :
  keeps (names_within all)
    (on_fields (fun f => set_cache (LRUCache.poke k (set_lastAccessed now) (cache f)) f)).
Proof.
  intros t s Hall. unfold on_fields, modify. cbn [snd self set_self].
  apply (names_within_shrink (self s)); [exact Hall |].
  intros k' e' Hk'. unfold held in *. cbn [cache set_cache] in Hk'. rewrite poke_effect in Hk'.
  destruct (String.eqb k' k) eqn:Hk; [| eauto].
  apply String.eqb_eq in Hk. subst k'.
  destruct (LRUCache.lookup k (cache (self s))) as [e0 |]; [| discriminate].
  injection Hk' as <-. exists e0. split; reflexivity.
Qed.

Lemma names_within_drop_dependency dependency :
  keeps (names_within all)
    (on_fields (fun f => mkFields (cache f) (tagIndex f)
                           (base.delete dependency (dependencyIndex f)))).
Proof. intros t s Hall. exact Hall. Qed.

(** What [get] returns is [null] or the value of an entry that was held. *)
Lemma get_names_within key t (s : MemoryStore) found :
  names_within all (self s) ->
  (get key t s).1.1 = Ok found -> incl (dependencies_of found) all.
Proof.
  intros Hall Hrun.
  destruct (get key t s) as [[r t1] s1] eqn:Hget. cbn [fst] in Hrun. subst r.
  unfold get in Hget. apply execute_ok_inv in Hget as (s0 & s' & Hself & Hbody & _).
  rewrite <- Hself in Hall. clear Hself s.
  unfold bind at 1 in Hbody. unfold validateKey in Hbody.
  assert (Hnull : incl (dependencies_of VNull) all) by (intros x []).
  destruct key as [| | b | n | k | items | fields]; try discriminate.
  destruct (String.eqb k "") eqn:Hk; [discriminate |]. cbn [ret] in Hbody.
  unfold bind at 1 in Hbody. unfold cache_get in Hbody.
  pose proof (get_effect t k (cache (self s0))) as Heffect.
  destruct (LRUCache.get t k (cache (self s0))) as [[hit disposed] c'].
  destruct hit as [entry |].
  - destruct Heffect as [(Hno & _) | [(v & Hno & _) | (v & Hv & _ & Hheld & _)]];
      try discriminate.
    injection Hv as <-.
    unfold bind at 1, Date_now at 1 in Hbody.
    destruct (isExpired t (createdAt entry) (ttl entry)).
    + unfold bind, cache_delete, ret in Hbody.
      destruct (LRUCache.delete k _) as [[deleted disposed'] c'']. injection Hbody as <- _ _.
      exact Hnull.
    + unfold bind, Date_now, on_fields, modify, ret in Hbody. injection Hbody as <- _ _.
      exact (Hall k entry Hheld).
  - cbn [ret] in Hbody. injection Hbody as <- _ _. exact Hnull.
Qed.

Lemma held_named (s : MemoryStore) k e :
  held (self s) k = Some e -> incl (dependencies_of (value e)) (named_by s).
Proof.
  unfold held, LRUCache.lookup, LRUCache.find, named_by. intros Hk x Hx.
  destruct (List.find _ _) as [it |] eqn:Hfind; [| discriminate].
  injection Hk as <-. apply find_some in Hfind as [Hin _].
  apply in_concat. exists (dependencies_of (value (LRUCache.value it))).
  split; [| exact Hx].
  apply in_map_iff. exists it. split; [reflexivity | exact Hin].
Qed.

Lemma universe_names_within dependency (stores : list MemoryStore) :
  Forall (fun s => names_within (dependency :: universe stores) (self s)) stores.
Proof.
  apply List.Forall_forall. intros s Hs k e Hk x Hx. right.
  unfold universe. apply in_concat. exists (named_by s).
  split; [apply in_map, Hs | exact (held_named s k e Hk x Hx)].
Qed.

Lemma memory_keys_within pattern t (s : MemoryStore) :
  names_within all (self s) -> names_within all (self (store_keys pattern t s).2).
Proof. intros Hs. exact (keeps_keys (names_within all) pattern t s Hs). Qed.

Lemma memory_get_within key t (s : MemoryStore) :
  names_within all (self s) ->
  names_within all (self (store_get key t s).2)
  /\ forall found, (store_get key t s).1.1 = Ok found -> incl (dependencies_of found) all.
Proof.
  intros Hs. split.
  - exact (keeps_get (names_within all) names_within_cache_get
             names_within_cache_delete names_within_touch key t s Hs).
  - intros found. exact (get_names_within key t s found Hs).
Qed.

Lemma memory_native_within (s : MemoryStore) native d t :
  store_invalidateByDependency s = Some native ->
  names_within all (self s) -> names_within all (self (native d t s).2).
Proof.
  intros Hnat Hs. injection Hnat as <-.
  destruct d as [| | b | n | d | items | fields];
    try (apply (keeps_execute (names_within all)); [apply keeps_ret | exact Hs]).
  exact (keeps_invalidateByDependency (names_within all) names_within_cache_delete
           names_within_drop_dependency d t s Hs).
Qed.

End CascadeOverMemoryStores.

Section VisitedCascade.
Import BaseStore MemoryStore Invariant Reach.

(** X26. The revised DependencyInvalidator always returns: with the [visited]
    set, a cascading invalidation over a chain of MemoryStores needs no more
    nested calls than the chain's values name dependencies (plus the one
    asked for and the call that finds it visited), whatever cycles the
    values form, and it returns a count. *)
Theorem cascade_with_visited_set_returns fuel dependency options t
    (stores : list MemoryStore) :
  length (universe stores) + 2 <= fuel ->
  exists count warnings t' stores',
    VisitedDependencyInvalidator.invalidateByDependency fuel dependency options t stores
    = (Ok (Some count, warnings), t', stores').
Proof.
  intros Hfuel. unfold VisitedDependencyInvalidator.invalidateByDependency.
  set (all := dependency :: universe stores).
  destruct (invalidateByDependencyInternal_returns all
              (fun s : MemoryStore => names_within all (self s))
              (memory_keys_within all) (memory_get_within all)
              (memory_native_within all)
              fuel dependency options t
              (VisitedDependencyInvalidator.mkRun [] [] stores))
    as (n & t' & r' & -> & _ & _).
  - left. reflexivity.
  - apply universe_names_within.
  - cbn [VisitedDependencyInvalidator.visited]. rewrite unvisited_nothing.
    subst all. cbn [length]. lia.
  - eauto.
Qed.

End VisitedCascade.

(** ** The children of a dependency in a chain of MemoryStores *)

Section StringChildren.
Import BaseStore MemoryStore Invariant Reach Children.

Lemma universe_names (stores : list MemoryStore) :
  Forall (fun s => names_within (universe stores) (self s)) stores.
Proof.
  apply List.Forall_forall. intros s Hs k e Hk x Hx.
  unfold universe. apply in_concat. exists (named_by s).
  split; [apply in_map, Hs | exact (held_named s k e Hk x Hx)].
Qed.

Lemma listed_once_NoDup children : listed_once children = true -> List.NoDup children.
Proof.
  induction children as [| x rest IH]; intros Honce; [constructor |].
  cbn [listed_once] in Honce. apply andb_prop in Honce as [Hx Hrest].
  constructor; [| exact (IH Hrest)].
  intros Hin. rewrite forallb_forall in Hx. specialize (Hx x Hin).
  rewrite js_eqb_refl in Hx. discriminate.
Qed.

Lemma not_a_child parent children :
  existsb (fun child => js_eqb child parent) children = false -> ~ In parent children.
Proof.
  intros Hnone Hin.
  assert (Hsome : existsb (fun child => js_eqb child parent) children = true).
  { apply existsb_exists. exists parent. split; [exact Hin | apply js_eqb_refl]. }
  congruence.
Qed.

(** X25. [findChildDependencies] on a chain of MemoryStores whose values name
    their dependencies by strings (the declared type): it never throws; every
    child it returns is a dependency named by a value held in the chain, and
    so a string; the parent itself is not among the children, and no child is
    listed twice. *)
Theorem child_dependencies_exclude_the_parent parent t (stores : list MemoryStore) :
  Forall (fun dep => is_string dep = true) (universe stores) ->
  exists children t' stores',
    DependencyInvalidator.findChildDependencies (VStr parent) t stores
    = (Ok children, t', stores')
    /\ length stores' = length stores
    /\ incl children (universe stores)
    /\ Forall (fun dep => is_string dep = true) children
    /\ ~ In (VStr parent) children
    /\ List.NoDup children.
Proof.
  intros Hstrings.
  destruct (findChildDependencies_within (universe stores)
              (fun s : MemoryStore => names_within (universe stores) (self s))
              (memory_keys_within (universe stores)) (memory_get_within (universe stores))
              (VStr parent) t stores (universe_names stores))
    as (children & t' & stores' & Hrun & _ & Hwithin).
  assert (Hscan : exists children1 t1 stores1,
             DependencyInvalidator.findChildDependencies (VStr parent) t stores
             = (Ok children1, t1, stores1)
             /\ length stores1 = length stores
             /\ existsb (fun child => js_eqb child (VStr parent)) children1 = false
             /\ listed_once children1 = true).
  { unfold DependencyInvalidator.findChildDependencies, bind, get_state.
    apply scan_stores_returns. split; reflexivity. }
  destruct Hscan as (children1 & t1 & stores1 & Hrun1 & Hlength & Hparent & Honce).
  rewrite Hrun in Hrun1. injection Hrun1 as <- <- <-.
  exists children, t', stores'. split; [exact Hrun |]. split; [exact Hlength |].
  split; [exact Hwithin |]. split.
  - apply List.Forall_forall. intros dep Hdep.
    exact (proj1 (List.Forall_forall _ _) Hstrings dep (Hwithin dep Hdep)).
  - split; [exact (not_a_child _ _ Hparent) | exact (listed_once_NoDup _ Honce)].
Qed.

End StringChildren.

(** ** Failures of the bulk operations of a MemoryStore *)

Section NestedWrappers.
Import BaseStore BreakerSteps MemoryStore Invariant Holding Effects.
Local Open Scope Z_scope.

(** A wrapped call on a closed breaker, when the operation leaves the breaker
    alone: the breaker records the success or the failure. *)
Lemma execute_closed_frames {A} (operation : M MemoryStore A) t (s : MemoryStore) cb cfg :
  circuitBreaker s = Some cb -> circuitBreakerConfig s = Some cfg -> isOpen cb = false ->
  frames operation ->
  exists s1,
    executeWithCircuitBreaker operation t s = (outcome (operation t s), t, s1)
    /\ circuitBreakerConfig s1 = Some cfg
    /\ circuitBreaker s1
       = Some (match outcome (operation t s) with
               | Ok _ => after_success cb
               | Throw _ => after_failure cfg t cb
               end).
Proof.
  intros Hcb Hcfg Hclosed Hframes. specialize (Hframes t s).
  destruct (operation t s) as [[[r | e] t1] s1] eqn:Hop;
    destruct Hframes as (-> & Hcb1 & Hcfg1); rewrite Hcb in Hcb1; rewrite Hcfg in Hcfg1.
  - rewrite (execute_closed_success operation t s cb cfg r t s1 cb Hcb Hcfg Hclosed Hop Hcb1).
    eexists. split; [reflexivity |]. cbn. split; [exact Hcfg1 | reflexivity].
  - rewrite (execute_closed_failure operation t s cb cfg e t s1 cb cfg
               Hcb Hcfg Hclosed Hop Hcb1 Hcfg1).
    eexists. split; [reflexivity |]. cbn. split; [exact Hcfg1 | reflexivity].
Qed.

(** A read of a valid key through a closed breaker succeeds and resets the
    count of failures. *)
Lemma get_closed_valid key t (s : MemoryStore) cb cfg :
  circuitBreaker s = Some cb -> circuitBreakerConfig s = Some cfg -> isOpen cb = false ->
  is_valid_key key = true ->
  exists found s1,
    get key t s = (Ok found, t, s1)
    /\ circuitBreakerConfig s1 = Some cfg /\ circuitBreaker s1 = Some (after_success cb).
Proof.
  intros Hcb Hcfg Hclosed Hkey.
  destruct key as [| | b | n | k | items | fields]; try discriminate.
  cbn in Hkey. apply negb_true_iff in Hkey.
  assert (Hready : ready s) by (unfold ready; rewrite Hcb, Hcfg; exact Hclosed).
  destruct (get_ready k t s Hready Hkey) as (s' & Hget & _).
  destruct (execute_closed_frames _ t s cb cfg Hcb Hcfg Hclosed (frames_get_body (VStr k)))
    as (s1 & Hrun & Hcfg1 & Hcb1).
  unfold get in Hget. rewrite Hget in Hrun.
  set (o := outcome _) in Hrun, Hcb1. clearbody o.
  injection Hrun as Hout Hs. subst s1 o. eauto.
Qed.

(** A read of a rejected key through a closed breaker counts one failure. *)
Lemma get_closed_invalid key t (s : MemoryStore) cb cfg :
  circuitBreaker s = Some cb -> circuitBreakerConfig s = Some cfg -> isOpen cb = false ->
  is_valid_key key = false ->
  exists s1,
    get key t s = (Throw key_error, t, s1)
    /\ circuitBreakerConfig s1 = Some cfg /\ circuitBreaker s1 = Some (after_failure cfg t cb).
Proof.
  intros Hcb Hcfg Hclosed Hkey.
  destruct (execute_closed_frames _ t s cb cfg Hcb Hcfg Hclosed (frames_get_body key))
    as (s1 & Hrun & Hcfg1 & Hcb1).
  assert (Hbody : forall A (rest : string -> M MemoryStore A),
             (k <- validateKey name key ;; rest k) t s = (Throw key_error, t, s)).
  { intros A rest. unfold bind at 1. rewrite (validateKey_invalid key t s Hkey). reflexivity. }
  rewrite Hbody in Hrun, Hcb1. cbn [outcome fst] in Hrun, Hcb1.
  exists s1. split; [exact Hrun |]. split; assumption.
Qed.

Lemma mget_loop_fails key rest t cfg : forall leading results (s : MemoryStore) cb,
  circuitBreaker s = Some cb -> circuitBreakerConfig s = Some cfg -> isOpen cb = false ->
  Forall (fun k => is_valid_key k = true) leading -> is_valid_key key = false ->
  exists s1,
    mget_loop (leading ++ key :: rest) results t s = (Throw key_error, t, s1)
    /\ circuitBreakerConfig s1 = Some cfg
    /\ circuitBreaker s1
       = Some (after_failure cfg t (match leading with [] => cb | _ => after_success cb end)).
Proof.
  induction leading as [| k leading IH]; intros results s cb Hcb Hcfg Hclosed Hvalid Hkey.
  - cbn [app mget_loop]. unfold bind.
    destruct (get_closed_invalid key t s cb cfg Hcb Hcfg Hclosed Hkey)
      as (s1 & -> & Hcfg1 & Hcb1).
    eauto.
  - cbn [app mget_loop]. unfold bind at 1.
    inversion Hvalid as [| k0 l0 Hk Hleading]; subst.
    destruct (get_closed_valid k t s cb cfg Hcb Hcfg Hclosed Hk)
      as (found & s1 & -> & Hcfg1 & Hcb1).
    destruct (IH (results ++ [found]) s1 (after_success cb) Hcb1 Hcfg1 Hclosed Hleading Hkey)
      as (s2 & Hrun & Hcfg2 & Hcb2).
    exists s2. split; [exact Hrun |]. split; [exact Hcfg2 |].
    rewrite Hcb2. destruct leading; reflexivity.
Qed.

(** X27. A bulk read that meets a rejected key counts twice against the
    breaker: [mget] wraps its loop in the breaker and each [get] of the loop
    is wrapped again, so the failure of the [get] is counted once there and
    once more by [mget].  With a closed breaker, [mget] of keys of which the
    first invalid one is preceded by valid keys only throws the key error
    and leaves the count of failures two above the count before the failing
    [get] (the count on entry, or 0 when a [get] succeeded before); the
    breaker is open afterwards exactly when that count has reached
    [errorThreshold]. *)
Theorem failing_mget_counts_twice leading key rest t (s : MemoryStore) cb cfg :
  circuitBreaker s = Some cb -> circuitBreakerConfig s = Some cfg -> isOpen cb = false ->
  Forall (fun k => is_valid_key k = true) leading -> is_valid_key key = false ->
  exists cb',
    outcome (mget (leading ++ key :: rest) t s) = Throw key_error
    /\ circuitBreaker (final (mget (leading ++ key :: rest) t s)) = Some cb'
    /\ failures cb' = (match leading with [] => failures cb | _ => 0 end) + 2
    /\ isOpen cb' = (errorThreshold cfg <=? failures cb').
Proof.
  intros Hcb Hcfg Hclosed Hvalid Hkey.
  destruct (mget_loop_fails key rest t cfg leading [] s cb Hcb Hcfg Hclosed Hvalid Hkey)
    as (s1 & Hloop & Hcfg1 & Hcb1).
  unfold mget.
  rewrite (execute_closed_failure _ t s cb cfg key_error t s1 _ cfg
             Hcb Hcfg Hclosed Hloop Hcb1 Hcfg1).
  cbn [outcome final fst snd]. eexists. split; [reflexivity |].
  split; [reflexivity |].
  set (before := match leading with [] => cb | _ => after_success cb end).
  assert (Hbefore : isOpen before = false /\
                    failures before = match leading with [] => failures cb | _ => 0 end).
  { subst before. destruct leading; cbn; auto. }
  destruct Hbefore as [Hopen <-]. clearbody before.
  unfold after_failure. cbn.
  destruct (errorThreshold cfg <=? failures before + 1) eqn:Hfirst; cbn;
    destruct (errorThreshold cfg <=? failures before + 1 + 1) eqn:Hsecond; cbn;
    rewrite ?Hopen;
    repeat match goal with
           | H : (_ <=? _) = true |- _ => apply Z.leb_le in H
           | H : (_ <=? _) = false |- _ => apply Z.leb_gt in H
           end;
    (split; [lia |]); symmetry;
    first [apply Z.leb_le; lia | apply Z.leb_gt; lia].
Qed.

End NestedWrappers.

(** ** Rejected input in the bulk operations of a MemoryStore *)

Section BulkRejection.
Import BaseStore BreakerSteps MemoryStore FanOut Bulk.
Local Open Scope Z_scope.

Lemma same_breaker_refl {X} (s : Store X) : same_breaker s s.
Proof. split; reflexivity. Qed.

Lemma same_breaker_trans {X} (s1 s2 s3 : Store X) :
  same_breaker s1 s2 -> same_breaker s2 s3 -> same_breaker s1 s3.
Proof.
  intros [Hcfg12 Hcb12] [Hcfg23 Hcb23]. split; [congruence |].
  rewrite Hcb23. exact Hcb12.
Qed.

(** On a ready store a wrapped call whose operation leaves the breaker alone
    is its operation, and the breaker stays of the same kind. *)
Lemma execute_ready_kind {X A} (operation : M (Store X) A) t s :
  ready s -> frames operation ->
  exists s1,
    executeWithCircuitBreaker operation t s = (outcome (operation t s), t, s1)
    /\ self s1 = self (final (operation t s))
    /\ same_breaker s s1
    /\ (failed (outcome (operation t s)) = false -> ready s1).
Proof.
  intros Hready Hframes. specialize (Hframes t s).
  destruct (operation t s) as [[r t'] s'] eqn:Hop.
  destruct Hframes as (-> & Hcb & Hcfg). cbn [outcome final fst snd].
  destruct (circuitBreaker s) as [cb |] eqn:Hb.
  2:{ exists s'. rewrite execute_no_breaker by (left; exact Hb).
      rewrite Hop. split; [reflexivity |]. split; [reflexivity |].
      split; [split; [exact Hcfg | rewrite Hcb, Hb; reflexivity] |].
      intros _. unfold ready. rewrite Hcb. exact I. }
  destruct (circuitBreakerConfig s) as [cfg |] eqn:Hc.
  2:{ exists s'. rewrite execute_no_breaker by (right; exact Hc).
      rewrite Hop. split; [reflexivity |]. split; [reflexivity |].
      split; [split; [rewrite Hcfg, Hc; reflexivity | rewrite Hcb, Hb; reflexivity] |].
      intros _. unfold ready. rewrite Hcb, Hcfg. exact I. }
  assert (Hclosed : isOpen cb = false).
  { unfold ready in Hready. rewrite Hb, Hc in Hready. exact Hready. }
  destruct r as [r | e].
  - rewrite (execute_closed_success operation t s cb cfg r t s' cb Hb Hc Hclosed Hop Hcb).
    eexists. split; [reflexivity |]. split; [reflexivity |].
    split; [split; cbn; [rewrite Hcfg, Hc; reflexivity | rewrite Hb; split; discriminate] |].
    intros _. unfold ready. cbn. rewrite Hcfg. exact Hclosed.
  - rewrite (execute_closed_failure operation t s cb cfg e t s' cb cfg Hb Hc Hclosed Hop Hcb Hcfg).
    eexists. split; [reflexivity |]. split; [reflexivity |].
    split; [split; cbn; [rewrite Hcfg, Hc; reflexivity | rewrite Hb; split; discriminate] |].
    cbn. discriminate.
Qed.

(** On a ready store a wrapped call passes on what its operation throws,
    when the operation leaves a breaker of the same kind. *)
Lemma execute_ready_throw {X A} (operation : M (Store X) A) t s e s' :
  ready s -> operation t s = (Throw e, t, s') -> same_breaker s s' ->
  exists s1,
    executeWithCircuitBreaker operation t s = (Throw e, t, s1) /\ self s1 = self s'.
Proof.
  intros Hready Hop [Hcfg Hcb].
  destruct (circuitBreaker s) as [cb |] eqn:Hb.
  2:{ exists s'. rewrite execute_no_breaker by (left; exact Hb). auto. }
  destruct (circuitBreakerConfig s) as [cfg |] eqn:Hc.
  2:{ exists s'. rewrite execute_no_breaker by (right; exact Hc). auto. }
  assert (Hclosed : isOpen cb = false).
  { unfold ready in Hready. rewrite Hb, Hc in Hready. exact Hready. }
  destruct (circuitBreaker s') as [cb' |] eqn:Hb'.
  2:{ destruct Hcb as [Hcb _]. specialize (Hcb eq_refl). discriminate. }
  rewrite (execute_closed_failure operation t s cb cfg e t s' cb' cfg
             Hb Hc Hclosed Hop Hb' Hcfg).
  eexists. split; reflexivity.
Qed.

Lemma get_valid_kind key t (s : MemoryStore) :
  ready s -> is_valid_key key = true ->
  exists found s1,
    get key t s = (Ok found, t, s1) /\ ready s1 /\ same_breaker s s1.
Proof.
  intros Hready Hkey.
  destruct key as [| | b | n | k | items | fields]; try discriminate.
  cbn in Hkey. apply negb_true_iff in Hkey.
  destruct (get_ready k t s Hready Hkey) as (s' & Hget & Hready' & _).
  destruct (execute_ready_kind _ t s Hready (frames_get_body (VStr k)))
    as (s1 & Hrun & _ & Hkind & _).
  pose proof (eq_trans (eq_sym Hget) Hrun) as Hsame.
  set (o := outcome _) in Hsame. clearbody o.
  injection Hsame as _ Hs. subst s1. eauto.
Qed.

Lemma get_invalid_kind key t (s : MemoryStore) :
  ready s -> is_valid_key key = false ->
  exists s1,
    get key t s = (Throw key_error, t, s1) /\ self s1 = self s /\ same_breaker s s1.
Proof.
  intros Hready Hkey.
  destruct (execute_ready_kind _ t s Hready (frames_get_body key))
    as (s1 & Hrun & Hself & Hkind & _).
  assert (Hbody : forall A (rest : string -> M MemoryStore A),
             (k <- validateKey name key ;; rest k) t s = (Throw key_error, t, s)).
  { intros A rest. unfold bind at 1. rewrite (validateKey_invalid key t s Hkey). reflexivity. }
  rewrite Hbody in Hrun, Hself. cbn [outcome final fst snd] in Hrun, Hself.
  exists s1. split; [exact Hrun |]. split; assumption.
Qed.

Lemma set_valid_kind key value options t (s : MemoryStore) :
  ready s -> is_valid_pair (key, value) = true ->
  exists s1,
    set key value options t s = (Ok tt, t, s1) /\ ready s1 /\ same_breaker s s1.
Proof.
  intros Hready Hpair. unfold is_valid_pair in Hpair. cbn [fst snd] in Hpair.
  apply andb_true_iff in Hpair as [Hkey Hvalue].
  destruct key as [| | b | n | k | items | fields]; try discriminate.
  cbn in Hkey. apply negb_true_iff in Hkey.
  assert (Hdefined : value <> VUndefined) by (intros ->; discriminate).
  destruct (set_ready k value options t s Hready Hkey Hdefined) as (s' & Hset & Hready' & _).
  destruct (execute_ready_kind _ t s Hready (frames_set_body (VStr k) value options))
    as (s1 & Hrun & _ & Hkind & _).
  pose proof (eq_trans (eq_sym Hset) Hrun) as Hsame.
  set (o := outcome _) in Hsame. clearbody o.
  injection Hsame as _ Hs. subst s1. eauto.
Qed.

Lemma set_invalid_kind key value options t (s : MemoryStore) :
  ready s -> is_valid_pair (key, value) = false ->
  exists s1,
    set key value options t s
    = (Throw (if is_valid_key key then value_error else key_error), t, s1)
    /\ self s1 = self s /\ same_breaker s s1.
Proof.
  intros Hready Hpair.
  destruct (execute_ready_kind _ t s Hready (frames_set_body key value options))
    as (s1 & Hrun & Hself & Hkind & _).
  assert (Hbody : forall A (rest : string -> M MemoryStore A),
             (k <- validateKey name key ;; validateValue name value ;;; rest k) t s
             = (Throw (if is_valid_key key then value_error else key_error), t, s)).
  { intros A rest. unfold bind at 1. destruct (is_valid_key key) eqn:Hkey.
    - destruct (validateKey_valid key t s Hkey) as (k & ->).
      unfold is_valid_pair in Hpair. cbn [fst snd] in Hpair. rewrite Hkey in Hpair.
      destruct value; try discriminate. reflexivity.
    - rewrite (validateKey_invalid key t s Hkey). reflexivity. }
  rewrite Hbody in Hrun, Hself. cbn [outcome final fst snd] in Hrun, Hself.
  exists s1. split; [exact Hrun |]. split; assumption.
Qed.

Lemma mget_loop_rejects key rest t : forall leading results (s : MemoryStore),
  ready s -> Forall (fun k => is_valid_key k = true) leading -> is_valid_key key = false ->
  exists s1,
    mget_loop (leading ++ key :: rest) results t s = (Throw key_error, t, s1)
    /\ self s1 = self (after_reading leading t s) /\ same_breaker s s1.
Proof.
  induction leading as [| k leading IH]; intros results s Hready Hvalid Hkey.
  - cbn [app mget_loop after_reading]. unfold bind.
    destruct (get_invalid_kind key t s Hready Hkey) as (s1 & -> & Hself & Hkind). eauto.
  - cbn [app mget_loop after_reading]. unfold bind at 1.
    inversion Hvalid as [| k0 l0 Hk Hleading]; subst.
    destruct (get_valid_kind k t s Hready Hk) as (found & s1 & Hget & Hready1 & Hkind1).
    rewrite Hget. cbn [final snd].
    destruct (IH (results ++ [found]) s1 Hready1 Hleading Hkey) as (s2 & Hrun & Hself & Hkind2).
    exists s2. split; [exact Hrun |]. split; [exact Hself |].
    exact (same_breaker_trans _ _ _ Hkind1 Hkind2).
Qed.

Lemma mset_loop_rejects key value options rest t : forall leading (s : MemoryStore),
  ready s -> Forall (fun pair => is_valid_pair pair = true) leading ->
  is_valid_pair (key, value) = false ->
  exists s1,
    for_of (leading ++ (key, value) :: rest) (fun '(key, value) => set key value options) t s
    = (Throw (if is_valid_key key then value_error else key_error), t, s1)
    /\ self s1 = self (after_writing leading options t s) /\ same_breaker s s1.
Proof.
  induction leading as [| [k v] leading IH]; intros s Hready Hvalid Hpair.
  - cbn [app for_of after_writing]. unfold bind.
    destruct (set_invalid_kind key value options t s Hready Hpair)
      as (s1 & -> & Hself & Hkind). eauto.
  - cbn [app for_of after_writing]. unfold bind at 1.
    inversion Hvalid as [| p0 l0 Hp Hleading]; subst.
    destruct (set_valid_kind k v options t s Hready Hp) as (s1 & Hset & Hready1 & Hkind1).
    rewrite Hset. cbn [final snd].
    destruct (IH s1 Hready1 Hleading Hpair) as (s2 & Hrun & Hself & Hkind2).
    exists s2. split; [exact Hrun |]. split; [exact Hself |].
    exact (same_breaker_trans _ _ _ Hkind1 Hkind2).
Qed.

Lemma mget_rejects key rest t leading (s : MemoryStore) :
  ready s -> Forall (fun k => is_valid_key k = true) leading -> is_valid_key key = false ->
  exists s',
    mget (leading ++ key :: rest) t s = (Throw key_error, t, s')
    /\ self s' = self (after_reading leading t s).
Proof.
  intros Hready Hvalid Hkey.
  destruct (mget_loop_rejects key rest t leading [] s Hready Hvalid Hkey)
    as (s1 & Hloop & Hself & Hkind).
  destruct (execute_ready_throw _ t s key_error s1 Hready Hloop Hkind) as (s' & Hrun & Hself').
  exists s'. split; [exact Hrun | congruence].
Qed.

Lemma mset_rejects key value options rest t leading (s : MemoryStore) :
  ready s -> Forall (fun pair => is_valid_pair pair = true) leading ->
  is_valid_pair (key, value) = false ->
  exists s',
    mset (leading ++ (key, value) :: rest) options t s
    = (Throw (if is_valid_key key then value_error else key_error), t, s')
    /\ self s' = self (after_writing leading options t s).
Proof.
  intros Hready Hvalid Hpair.
  destruct (mset_loop_rejects key value options rest t leading s Hready Hvalid Hpair)
    as (s1 & Hloop & Hself & Hkind).
  destruct (execute_ready_throw _ t s _ s1 Hready Hloop Hkind) as (s' & Hrun & Hself').
  exists s'. split; [exact Hrun | congruence].
Qed.

(** C3 (as amended). In a MemoryStore whose breaker lets the call through,
    [get], [set], [del] and [exists] with an invalid key, and [set] with an
    undefined value, are rejected with a StoreError before the cache and the
    indexes of the store are touched.  [mget] and [mset] validate call by
    call: they raise the same StoreError at the first invalid key (or
    undefined value) they reach, when the keys before it have been read and
    the pairs before it written.  The cache manager absorbs the rejection in
    [get], [del] and [exists], which return null, false and false; [set]
    raises the aggregated error of the layered strategy once every store has
    rejected the write. *)
Theorem invalid_input_rejected_in_the_stores key value options t
    (manager : @CacheManager.t MemoryStore) :
  is_valid_key key = false \/ value = VUndefined ->
  (forall s : MemoryStore,
      ready s ->
      exists s',
        set key value options t s
        = (Throw (if is_valid_key key then value_error else key_error), t, s')
        /\ self s' = self s)
  /\ (forall (s : MemoryStore) leading rest,
        ready s -> Forall (fun pair => is_valid_pair pair = true) leading ->
        exists s',
          mset (leading ++ (key, value) :: rest) options t s
          = (Throw (if is_valid_key key then value_error else key_error), t, s')
          /\ self s' = self (after_writing leading options t s))
  /\ (exists reasons,
        outcome (CacheManager.set key value options t manager)
        = Throw (Error ("Failed to set key " ++ js_String key ++ " in all stores: "
                        ++ reasons)))
  /\ (is_valid_key key = false ->
      (forall s : MemoryStore,
          ready s ->
          exists s', get key t s = (Throw key_error, t, s') /\ self s' = self s)
      /\ (forall s : MemoryStore,
            ready s ->
            exists s', del key t s = (Throw key_error, t, s') /\ self s' = self s)
      /\ (forall s : MemoryStore,
            ready s ->
            exists s', exists_ key t s = (Throw key_error, t, s') /\ self s' = self s)
      /\ (forall (s : MemoryStore) leading rest,
            ready s -> Forall (fun k => is_valid_key k = true) leading ->
            exists s',
              mget (leading ++ key :: rest) t s = (Throw key_error, t, s')
              /\ self s' = self (after_reading leading t s))
      /\ outcome (CacheManager.get key t manager) = Ok VNull
      /\ outcome (CacheManager.del key t manager) = Ok false
      /\ outcome (CacheManager.exists_ key t manager) = Ok false).
Proof.
  intros Hbad.
  assert (Hpair : is_valid_pair (key, value) = false).
  { unfold is_valid_pair. cbn [fst snd].
    destruct Hbad as [-> | ->]; [reflexivity | apply andb_false_r]. }
  split; [| split; [| split]].
  - intros s Hready.
    destruct (memory_set_rejects key value options t s Hbad) as (e & s' & Heq & Hself & He).
    exists s'. rewrite <- (He Hready). auto.
  - intros s leading rest Hready Hvalid.
    exact (mset_rejects key value options rest t leading s Hready Hvalid Hpair).
  - apply manager_set_all_throw. intros t0 s.
    destruct (memory_set_rejects key value options t0 s Hbad) as (e & s' & Heq & _).
    exists e, t0, s'. exact Heq.
  - intros Hkey. repeat split.
    + intros s Hready.
      destruct (memory_get_rejects key t s Hkey) as (e & s' & Heq & Hself & He).
      exists s'. rewrite <- (He Hready). auto.
    + intros s Hready.
      destruct (memory_del_rejects key t s Hkey) as (e & s' & Heq & Hself & He).
      exists s'. rewrite <- (He Hready). auto.
    + intros s Hready.
      destruct (memory_exists_rejects key t s Hkey) as (e & s' & Heq & Hself & He).
      exists s'. rewrite <- (He Hready). auto.
    + intros s leading rest Hready Hvalid.
      exact (mget_rejects key rest t leading s Hready Hvalid Hkey).
    + apply manager_get_all_throw. intros t0 s.
      destruct (memory_get_rejects key t0 s Hkey) as (e & s' & Heq & _).
      exists e, t0, s'. exact Heq.
    + apply manager_del_all_throw. intros t0 s.
      destruct (memory_del_rejects key t0 s Hkey) as (e & s' & Heq & _).
      exists e, t0, s'. exact Heq.
    + apply manager_exists_all_throw. exact Hkey.
Qed.

End BulkRejection.

(** ** The further properties at concrete stores *)

Section FurtherWitnesses.
Import BaseStore BreakerSteps MemoryStore Invariant Exactness Holding Effects Example Sample
  Reads Reach Bulk Children.
Local Open Scope Z_scope.

Lemma set_then_get_within_lifetime_witness :
  outcome (get (VStr "a") 301000 (final (set (VStr "a") (VNum 1) None 1000 empty_store)))
  = Ok (VNum 1).
Proof.
  apply (set_then_get_within_lifetime "a" (VNum 1) None 1000 301000 empty_store).
  - exact I.
  - reflexivity.
  - discriminate.
  - right. vm_compute. discriminate.
Defined.





Lemma blog_reachable : reachable blog.
Proof.
  exact (reachable_step user_store (CallSet (VStr "post:1") (VStr "post1") depending) 1500
           (reachable_step empty_store (CallSet (VStr "user:1") (VStr "user1") tagged) 1000
              (reachable_new config))).
Defined.

Lemma indexes_list_exactly_the_labelled_keys_witness :
  (forall tag k,
      carries tags tag (held (self blog) k) = true
      <-> exists keys, tagIndex (self blog) !! tag = Some keys /\ In k keys)
  /\ (forall dependency k,
        carries dependencies dependency (held (self blog) k) = true
        <-> exists keys, dependencyIndex (self blog) !! dependency = Some keys /\ In k keys)
  /\ (forall label keys,
        tagIndex (self blog) !! label = Some keys
        \/ dependencyIndex (self blog) !! label = Some keys ->
        List.NoDup keys).
Proof.
  apply (indexes_list_exactly_the_labelled_keys blog). exact blog_reachable.
Defined.

Lemma invalidateByTag_removes_exactly_the_tagged_witness :
  let run := invalidateByTag "user" 2000 blog in
  exists n keys,
    outcome run = Ok n
    /\ List.NoDup keys
    /\ (forall k, In k keys <-> carries tags "user" (held (self blog) k) = true)
    /\ n = Z.of_nat (length keys)
    /\ (forall k, held (self (final run)) k
                  = if carries tags "user" (held (self blog) k) then None
                    else held (self blog) k)
    /\ tagIndex (self (final run)) !! "user"%string = None.
Proof.
  apply (invalidateByTag_removes_exactly_the_tagged "user" 2000 blog).
  - exact blog_reachable.
  - exact I.
Defined.

Lemma invalidateByDependency_removes_exactly_the_dependents_witness :
  let run := invalidateByDependency "user:1" 2000 blog in
  exists n keys,
    outcome run = Ok n
    /\ List.NoDup keys
    /\ (forall k, In k keys <-> carries dependencies "user:1" (held (self blog) k) = true)
    /\ n = Z.of_nat (length keys)
    /\ (forall k, held (self (final run)) k
                  = if carries dependencies "user:1" (held (self blog) k) then None
                    else held (self blog) k)
    /\ dependencyIndex (self (final run)) !! "user:1"%string = None.
Proof.
  apply (invalidateByDependency_removes_exactly_the_dependents "user:1" 2000 blog).
  - exact blog_reachable.
  - exact I.
Defined.


Lemma layered_get_reads_through_witness :
  LayeredStrategy.get (VStr "user:1") 2000 [empty_store; user_store]
  = (Ok (VStr "user1"),
     (FanOut.each_store (store_set (VStr "user:1") (VStr "user1") None) 2000
        (FanOut.each_store (store_get (VStr "user:1")) 2000 [empty_store]).2).1.2,
     (FanOut.each_store (store_set (VStr "user:1") (VStr "user1") None) 2000
        (FanOut.each_store (store_get (VStr "user:1")) 2000 [empty_store]).2).2
     ++ [(MemoryStore.get (VStr "user:1") 2000 user_store).2]).
Proof.
  apply (proj2 (layered_get_reads_through (VStr "user:1") 2000)
           [empty_store] user_store [] (VStr "user1") 2000
           (MemoryStore.get (VStr "user:1") 2000 user_store).2).
  - vm_compute. reflexivity.
  - vm_compute. reflexivity.
  - discriminate.
Defined.

Lemma dependency_invalidation_without_cascade_witness :
  DependencyInvalidator.invalidateByDependency 1 (VStr "user:1") None 2000 [blog]
  = let '(rs, t', stores') :=
      FanOut.each_store (PerStore.by_dependency (VStr "user:1")) 2000 [blog] in
    (Ok (Some (if wants_async None then 0 else sum (List.map Answers.counted rs))),
     t', stores').
Proof.
  apply (dependency_invalidation_without_cascade 0 (VStr "user:1") None 2000 [blog]).
  right. reflexivity.
Defined.

Lemma keys_lists_the_glob_matches_witness :
  (String.eqb "user:*" "" = false ->
   exists listed,
     outcome (keys (Some "user:*"%string) 2000 blog) = Ok listed
     /\ (forall k,
           In k listed ->
           In k (LRUCache.keys 2000 (cache (self blog)))
           /\ Glob.glob_match "user:*" k = true)
     /\ (forall k,
           GlobTerms.has_line_terminator k = false ->
           In k (LRUCache.keys 2000 (cache (self blog))) ->
           Glob.glob_match "user:*" k = true ->
           In k listed))
  /\ outcome (keys (Some ""%string) 2000 blog) = outcome (keys None 2000 blog).
Proof.
  apply (keys_lists_the_glob_matches "user:*" 2000 blog). exact I.
Defined.


Lemma invalid_keys_trip_the_breaker_witness :
  let s := after_gets (VStr "") [10; 20]
             (constructor (mkStoreConfig (Some 100%nat) (Some 300%N)
                             (Some (mkConfig true 2 1000)))) in
  get (VStr "a") 500 s = (Throw (CircuitBreakerError "Circuit breaker is open"), 500, s).
Proof.
  apply (invalid_keys_trip_the_breaker (VStr "") (Some 100%nat) (Some 300%N)
           (mkConfig true 2 1000) [10; 20] "a" 500).
  - reflexivity.
  - reflexivity.
  - discriminate.
  - reflexivity.
  - cbn. lia.
Defined.

Lemma cascade_with_visited_set_returns_witness :
  exists count warnings t' stores',
    VisitedDependencyInvalidator.invalidateByDependency 4 (VStr "A") Cyclic.cascading 3000
      [Cyclic.store]
    = (Ok (Some count, warnings), t', stores').
Proof.
  apply (cascade_with_visited_set_returns 4 (VStr "A") Cyclic.cascading 3000 [Cyclic.store]).
  vm_compute. lia.
Defined.

Lemma failing_mget_counts_twice_witness :
  let s := constructor (mkStoreConfig (Some 100%nat) (Some 300%N)
                          (Some (mkConfig true 2 1000))) in
  exists cb',
    outcome (mget ([VStr "a"] ++ VStr "" :: [VStr "b"]) 10 s) = Throw key_error
    /\ circuitBreaker (final (mget ([VStr "a"] ++ VStr "" :: [VStr "b"]) 10 s)) = Some cb'
    /\ failures cb' = 0 + 2
    /\ isOpen cb' = (2 <=? failures cb').
Proof.
  apply (failing_mget_counts_twice [VStr "a"] (VStr "") [VStr "b"] 10
           (constructor (mkStoreConfig (Some 100%nat) (Some 300%N)
                           (Some (mkConfig true 2 1000))))
           (mkBreaker false 0 None None) (mkConfig true 2 1000)).
  - reflexivity.
  - reflexivity.
  - reflexivity.
  - repeat constructor.
  - reflexivity.
Defined.

Lemma invalid_input_rejected_in_the_stores_witness :
  (exists reasons,
      outcome (CacheManager.set (VStr "") (VStr "v") None 2000 example_manager)
      = Throw (Error ("Failed to set key " ++ js_String (VStr "") ++ " in all stores: "
                      ++ reasons)))
  /\ outcome (CacheManager.get (VStr "") 2000 example_manager) = Ok VNull
  /\ outcome (CacheManager.del (VStr "") 2000 example_manager) = Ok false
  /\ outcome (CacheManager.exists_ (VStr "") 2000 example_manager) = Ok false
  /\ (exists s',
        mset ([(VStr "a", VNum 1)] ++ (VStr "", VStr "v") :: []) None 2000 empty_store
        = (Throw key_error, 2000, s')
        /\ self s' = self (after_writing [(VStr "a", VNum 1)] None 2000 empty_store)).
Proof.
  destruct (invalid_input_rejected_in_the_stores (VStr "") (VStr "v") None 2000
              example_manager (or_introl eq_refl))
    as (_ & Hmset & Hset & Hkey).
  destruct (Hkey eq_refl) as (_ & _ & _ & _ & Hget & Hdel & Hexists).
  split; [exact Hset |]. split; [exact Hget |]. split; [exact Hdel |].
  split; [exact Hexists |].
  apply (Hmset empty_store [(VStr "a", VNum 1)] []); [exact I | repeat constructor].
Defined.

Lemma child_dependencies_exclude_the_parent_witness :
  exists children t' stores',
    DependencyInvalidator.findChildDependencies (VStr "A") 3000 [Cyclic.store]
    = (Ok children, t', stores')
    /\ length stores' = length [Cyclic.store]
    /\ incl children (universe [Cyclic.store])
    /\ Forall (fun dep => is_string dep = true) children
    /\ ~ In (VStr "A") children
    /\ List.NoDup children.
Proof.
  apply (child_dependencies_exclude_the_parent "A" 3000 [Cyclic.store]).
  vm_compute. repeat constructor.
Defined.

End FurtherWitnesses.
